(** * Fisher linear discriminant analysis: [lda/src/subspace.cpp]

    A shallow embedding of [subspace::project], [subspace::reconstruct] and
    of the class [subspace::LinearDiscriminantAnalysis], together with the
    properties of its scatter construction, component selection and error
    behaviour.

    Conventions of the embedding.
    - Matrix elements are rationals ([Qc]): every finite [double] is one.
      The arithmetic that [subspace.cpp] performs itself (the reciprocals
      [1.0/static_cast<double>(n)] of [compute]) is IEEE 754 binary64,
      rounded to nearest.  The arithmetic inside the OpenCV primitives
      ([add], [subtract], [convertTo], [gemm], [mulTransposed], [inv]) is
      exact: a statement about their results says which expression is
      computed, not how it is rounded.
    - [cv::Mat] has reference semantics: a header (shape, offset, step)
      points into a shared, reference-counted buffer.  Headers are the
      record [Mat]; buffers live in a [store]; functions that touch matrix
      data run in a state-and-exception monad over the store.
    - [std::vector<int>] has value semantics and is a [list Z].
    - [CV_Error] is an exception: the monad returns [Throw e] together with
      the state reached when the exception was raised. *)

From Stdlib Require Import QArith Qcanon ZArith Lia Sorted.
From stdpp Require Import base numbers list sorting gmap.

(** ** Exact linear algebra on row-major lists *)

Abbreviation vec := (list Qc).
Abbreviation matrix := (list (list Qc)).

Definition vzeros (n : nat) : vec := replicate n 0%Qc.
Definition vadd (u v : vec) : vec := zip_with Qcplus u v.
Definition vsub (u v : vec) : vec := zip_with Qcminus u v.
Definition vscale (a : Qc) (v : vec) : vec := map (fun x => (x * a)%Qc) v.
Definition dot (u v : vec) : Qc := foldr Qcplus 0%Qc (zip_with Qcmult u v).

Definition mzeros (r c : nat) : matrix := replicate r (vzeros c).
Definition madd (A B : matrix) : matrix := zip_with vadd A B.
Definition msub (A B : matrix) : matrix := zip_with vsub A B.
Definition mscale (a : Qc) (A : matrix) : matrix := map (vscale a) A.

Definition mat_at (A : matrix) (i j : nat) : Qc := nth j (nth i A []) 0%Qc.
Definition mat_of (r c : nat) (f : nat -> nat -> Qc) : matrix :=
  map (fun i => map (f i) (seq 0 c)) (seq 0 r).

Definition shape (r c : nat) (A : matrix) : Prop :=
  length A = r /\ Forall (fun row => length row = c) A.

(** [mtranspose r c A] is the [c]-by-[r] transpose of the [r]-by-[c] matrix [A]. *)
Definition mtranspose (r c : nat) (A : matrix) : matrix :=
  mat_of c r (fun i j => mat_at A j i).

(** [vecmat c x B] is the row vector [x * B], a linear combination of the
    rows of [B]; [c] is the number of columns of [B]. *)
Definition vecmat (c : nat) (x : vec) (B : matrix) : vec :=
  foldr (fun '(a, b) acc => vadd (vscale a b) acc) (vzeros c) (zip x B).

(** [A * B] and [A * B^T]. *)
Definition mmul (c : nat) (A B : matrix) : matrix := map (fun x => vecmat c x B) A.
Definition mmul_nt (A B : matrix) : matrix := map (fun x => map (dot x) B) A.

Definition outer (u v : vec) : matrix := map (fun a => vscale a v) u.
Definition identity (n : nat) : matrix :=
  mat_of n n (fun i j => if decide (i = j) then 1%Qc else 0%Qc).

(** Row-major flattening of an [r]-by-[c] matrix: the layout of a
    continuous [cv::Mat] buffer. *)
Definition flatten (r c : nat) (A : matrix) : list Qc :=
  map (fun k => mat_at A (k / c) (k mod c)) (seq 0 (r * c)).

(** Determinant by Laplace expansion along the first row, and the inverse
    as adjugate over determinant.  [n] is the order of the matrix. *)
Fixpoint alt_sum (l : list Qc) : Qc :=
  match l with
  | [] => 0%Qc
  | x :: l' => (x - alt_sum l')%Qc
  end.

Fixpoint det (n : nat) (A : matrix) : Qc :=
  match n with
  | O => 1%Qc
  | S n' =>
      match A with
      | [] => 0%Qc
      | r :: rest =>
          alt_sum (imap (fun j x => (x * det n' (map (delete j) rest))%Qc) r)
      end
  end.

Definition minor (i j : nat) (A : matrix) : matrix := map (delete j) (delete i A).
Definition sign (k : nat) : Qc := if Nat.even k then 1%Qc else (-1)%Qc.
Definition inverse (n : nat) (A : matrix) : matrix :=
  mat_of n n (fun i j =>
    (sign (i + j) * det (pred n) (minor j i A) / det n A)%Qc).

(** ** IEEE 754 binary64, round to nearest, ties to even *)

(** [2^e * b <= a], for any integer [e]. *)
Definition scaled_le (e a b : Z) : bool :=
  if (0 <=? e)%Z then (2 ^ e * b <=? a)%Z else (b <=? a * 2 ^ (- e))%Z.

(** [floor (log2 (a / b))] for positive [a] and [b]. *)
Definition ilog2 (a b : Z) : Z :=
  let e := (Z.log2 a - Z.log2 b)%Z in
  if scaled_le e a b then e else (e - 1)%Z.

(** The integer nearest to [num / den], the even one of two at equal
    distance. *)
Definition round_half_even (num den : Z) : Z :=
  let f := (num / den)%Z in
  let r2 := (2 * (num mod den))%Z in
  if (r2 <? den)%Z then f
  else if (den <? r2)%Z then (f + 1)%Z
  else if Z.even f then f else (f + 1)%Z.

(** The double nearest to [a / b], for [a >= 0] and [b > 0]: 53
    significant bits, exponents from -1022 (below, the spacing of the
    subnormal numbers), and [None] from [2^1024 - 2^970] on, where the
    result is an infinity. *)
Definition nearest_double (a b : Z) : option Q :=
  if (a =? 0)%Z then Some 0%Q
  else if scaled_le 970 a ((2 ^ 54 - 1) * b) then None
  else
    let e := Z.max (ilog2 a b) (-1022) in
    let k := (52 - e)%Z in
    Some (if (0 <=? k)%Z
          then Qmake (round_half_even (a * 2 ^ k) b) (Z.to_pos (2 ^ k))
          else inject_Z (round_half_even a (b * 2 ^ (- k)) * 2 ^ (- k))).

Definition binary64 (x : Q) : option Q :=
  let y := nearest_double (Z.abs (Qnum x)) (Z.pos (Qden x)) in
  if (Qnum x <? 0)%Z then option_map Qopp y else y.

(** [x / y] on doubles; a quotient by zero is an infinity or a NaN. *)
Definition fdiv (x y : Qc) : option Qc :=
  if bool_decide (y = 0%Qc) then None
  else option_map Q2Qc (binary64 (this x / this y)).

(** ** Exceptions and mutable state *)

(** The error codes raised through [CV_Error] and [CV_Assert]
    ([CV_StsBadArg], [CV_StsUnmatchedSizes], [CV_StsAssert], [CV_BadStep]),
    and the failure of a matrix inversion.  [NotFinite] is no exception of
    the program: it ends a run in which the program divides by zero and
    goes on with an infinity or a NaN, values that a matrix of rationals
    cannot hold; the embedding does not follow such a run further. *)
Inductive error : Type :=
  | StsBadArg
  | StsUnmatchedSizes
  | StsAssert
  | BadStep
  | SingularMatrix
  | NotFinite.

Inductive result (A : Type) : Type :=
  | Ok (a : A)
  | Throw (e : error).
Arguments Ok {A} a.
Arguments Throw {A} e.

Definition M (S A : Type) : Type := S -> result A * S.

Definition ret {S A : Type} (a : A) : M S A := fun s => (Ok a, s).
Definition throw {S A : Type} (e : error) : M S A := fun s => (Throw e, s).
Definition bind {S A B : Type} (m : M S A) (k : A -> M S B) : M S B :=
  fun s =>
    match m s with
    | (Ok a, s') => k a s'
    | (Throw e, s') => (Throw e, s')
    end.
Definition gets {S A : Type} (f : S -> A) : M S A := fun s => (Ok (f s), s).
Definition modify {S : Type} (f : S -> S) : M S unit := fun s => (Ok tt, f s).

Notation "'let*' x ':=' m 'in' k" := (bind m (fun x => k))
  (at level 10, x pattern, m at level 100, k at level 200).
Notation "m ';;' k" := (bind m (fun _ => k))
  (at level 100, k at level 200, right associativity, only parsing).

(** [for (int i = 0; i < n; i++) acc = body(i, acc);] is [for_ (seq 0 n) body acc]. *)
Fixpoint for_ {S A : Type} (l : list nat) (body : nat -> A -> M S A) (acc : A) : M S A :=
  match l with
  | [] => ret acc
  | i :: l' => let* acc' := body i acc in for_ l' body acc'
  end.

Definition outcome {S A : Type} (r : result A * S) : result A := fst r.
Definition final {S A : Type} (r : result A * S) : S := snd r.
Definition succeeds {S A : Type} (r : result A * S) : Prop :=
  exists a, outcome r = Ok a.

(** ** The OpenCV matrix type and the primitives used by [subspace.cpp] *)

Module cv.

(** Modelled from the spec: the [cv::Mat] header (OpenCV core, not under
    src/).  [data] names the buffer the header points into ([None] for a
    default-constructed [Mat()]); element [(i, j)] lives at index
    [offset + i * step + j] of that buffer.  Several headers may share
    one buffer: a row view, a column range and a reshaped header all
    alias the matrix they were taken from.  The element depth is not
    recorded (all values are exact rationals); [channels] is. *)
Record Mat : Type := mkMat {
  rows : nat;
  cols : nat;
  channels : nat;
  data : option nat;
  offset : nat;
  step : nat
}.

Definition empty : Mat := mkMat 0 0 1 None 0 0.

(** The heap of matrix buffers, addressed by position. *)
Abbreviation store := (list (list Qc)).

Definition buffer (m : Mat) (s : store) : list Qc :=
  match data m with
  | Some b => default [] (s !! b)
  | None => []
  end.

Definition at_ (m : Mat) (s : store) (i j : nat) : Qc :=
  nth (offset m + i * step m + j) (buffer m s) 0%Qc.

(** The matrix seen through a header. *)
Definition read (m : Mat) (s : store) : matrix :=
  mat_of (rows m) (cols m) (at_ m s).

(** The element of the header's window stored at buffer index [k], if any. *)
Definition position (m : Mat) (k : nat) : option (nat * nat) :=
  if decide (offset m <= k) then
    let i := (k - offset m) / step m in
    let j := (k - offset m) mod step m in
    if decide (i < rows m /\ j < cols m) then Some (i, j) else None
  else None.

(** Overwrite the window of [m] with the elements of [A], in place. *)
Definition write (m : Mat) (A : matrix) (s : store) : store :=
  match data m with
  | Some b =>
      alter (imap (fun k old =>
               match position m k with
               | Some (i, j) => mat_at A i j
               | None => old
               end)) b s
  | None => s
  end.

(** The header of a continuous single-channel [r]-by-[c] matrix that
    owns buffer [b], and the allocation of such a matrix holding [A]. *)
Definition fresh (r c b : nat) : Mat := mkMat r c 1 (Some b) 0 c.

Definition alloc (r c : nat) (A : matrix) : M store Mat :=
  fun s => (Ok (fresh r c (length s)), s ++ [flatten r c A]).

(** Modelled from the spec: [Mat::create] (OpenCV core) followed by
    filling the destination: an output argument that already has the
    requested size keeps its buffer and is written in place, any other is
    re-bound to a fresh buffer.  The header the output variable holds
    afterwards is returned. *)
Definition fits (dst : Mat) (r c : nat) : bool :=
  bool_decide (rows dst = r /\ cols dst = c /\ is_Some (data dst)).

Definition output (dst : Mat) (r c : nat) (A : matrix) : M store Mat :=
  if fits dst r c then fun s => (Ok dst, write dst A s) else alloc r c A.

Definition same_size (a b : Mat) : bool :=
  bool_decide (rows a = rows b /\ cols a = cols b).

(** Modelled from the spec: [Mat::zeros(rows, cols, type)] (OpenCV core,
    not under src/), a new matrix of zeros. *)
Definition zeros (r c : nat) : M store Mat := alloc r c (mzeros r c).

(** Modelled from the spec: [Mat::clone()] (OpenCV core), a deep copy into
    a new buffer. *)
Definition clone (m : Mat) : M store Mat :=
  let* A := gets (read m) in alloc (rows m) (cols m) A.

(** Modelled from the spec: [Mat::total()] (OpenCV core), the number of
    elements. *)
Definition total (m : Mat) : nat := rows m * cols m.

(** Modelled from the spec: [Mat::row(i)] (OpenCV core), a one-row header
    sharing the buffer of [m]. *)
Definition row (m : Mat) (i : nat) : Mat :=
  mkMat 1 (cols m) (channels m) (data m) (offset m + i * step m) (step m).

(** Modelled from the spec: [Mat(m, Range::all(), Range(a, b))] (OpenCV
    core), a header on columns [a .. b-1] sharing the buffer of [m]; the
    constructor asserts [0 <= a <= b <= m.cols]. *)
Definition colRange {S : Type} (m : Mat) (a b : Z) : M S Mat :=
  if bool_decide (0 <= a /\ a <= b /\ b <= Z.of_nat (cols m))%Z then
    ret (mkMat (rows m) (Z.to_nat (b - a)) (channels m) (data m)
               (offset m + Z.to_nat a) (step m))
  else throw StsAssert.

(** Modelled from the spec: [Mat::reshape(1, 1)] (OpenCV core) on a
    single-channel matrix: a one-row header over the same buffer; changing
    the number of rows requires a continuous matrix. *)
Definition reshape_1_1 {S : Type} (m : Mat) : M S Mat :=
  if bool_decide (rows m = 1) then ret m
  else if bool_decide (step m = cols m) then
    ret (mkMat 1 (rows m * cols m) (channels m) (data m) (offset m) (rows m * cols m))
  else throw BadStep.

(** Modelled from the spec: [Mat::convertTo(dst, type, alpha)] (OpenCV
    core), [dst = src * alpha]; the change of element depth is the
    identity on exact values. *)
Definition convertTo (m dst : Mat) (alpha : Qc) : M store Mat :=
  let* A := gets (read m) in output dst (rows m) (cols m) (mscale alpha A).

(** Modelled from the spec: [cv::add(a, b, dst)] (OpenCV core),
    element-wise on matrices of equal size. *)
Definition add (a b dst : Mat) : M store Mat :=
  if same_size a b then
    let* A := gets (read a) in
    let* B := gets (read b) in
    output dst (rows a) (cols a) (madd A B)
  else throw StsUnmatchedSizes.

(** Modelled from the spec: [cv::subtract(a, b, dst)] (OpenCV core),
    element-wise on matrices of equal size. *)
Definition subtract (a b dst : Mat) : M store Mat :=
  if same_size a b then
    let* A := gets (read a) in
    let* B := gets (read b) in
    output dst (rows a) (cols a) (msub A B)
  else throw StsUnmatchedSizes.

(** Modelled from the spec: [cv::repeat(src, ny, nx)] (OpenCV core), a
    new matrix tiling [src] [ny] times vertically and [nx] times
    horizontally. *)
Definition repeat (m : Mat) (ny nx : nat) : M store Mat :=
  let* A := gets (read m) in
  alloc (rows m * ny) (cols m * nx)
    (concat (replicate ny (map (fun r => concat (replicate nx r)) A))).

Definition GEMM_1_T : Z := 1.
Definition GEMM_2_T : Z := 2.
Definition GEMM_3_T : Z := 4.

(** Modelled from the spec: [cv::gemm(A, B, alpha, C, beta, D, flags)]
    (OpenCV core), [D = alpha * op(A) * op(B) + beta * op(C)] where [op]
    transposes the operand whose flag is set and [C] may be absent; the
    inner dimensions and the size of [C] are asserted. *)
Definition gemm (a b : Mat) (alpha : Qc) (c : option Mat) (beta : Qc)
    (dst : Mat) (flags : Z) : M store Mat :=
  let tA := Z.testbit flags 0 in
  let tB := Z.testbit flags 1 in
  let tC := Z.testbit flags 2 in
  let '(ar, ac) := if tA then (cols a, rows a) else (rows a, cols a) in
  let '(br, bc) := if tB then (cols b, rows b) else (rows b, cols b) in
  if bool_decide (ac = br) then
    let* A := gets (read a) in
    let* B := gets (read b) in
    let opA := if tA then mtranspose (rows a) (cols a) A else A in
    let P := mscale alpha (if tB then mmul_nt opA B else mmul bc opA B) in
    match c with
    | None => output dst ar bc P
    | Some c =>
        let '(cr, cc) := if tC then (cols c, rows c) else (rows c, cols c) in
        if bool_decide (cr = ar /\ cc = bc) then
          let* C := gets (read c) in
          let opC := if tC then mtranspose (rows c) (cols c) C else C in
          output dst ar bc (madd P (mscale beta opC))
        else throw StsAssert
    end
  else throw StsAssert.

(** Modelled from the spec: [cv::mulTransposed(src, dst, aTa)] (OpenCV
    core), [dst = src^T * src] when [aTa] is set and [src * src^T]
    otherwise. *)
Definition mulTransposed (m dst : Mat) (aTa : bool) : M store Mat :=
  let* A := gets (read m) in
  if aTa then
    output dst (cols m) (cols m) (mmul (cols m) (mtranspose (rows m) (cols m) A) A)
  else
    output dst (rows m) (rows m) (mmul_nt A A).

(** Modelled from the spec: [Mat::inv()] (OpenCV core).  The spec (4.3, 7):
    "If Sw is singular, inversion fails with a SingularMatrix error";
    otherwise the result is the inverse, in a new matrix. *)
Definition inv (m : Mat) : M store Mat :=
  if bool_decide (rows m = cols m) then
    let* A := gets (read m) in
    if bool_decide (det (rows m) A = 0%Qc) then throw SingularMatrix
    else alloc (rows m) (rows m) (inverse (rows m) A)
  else throw StsAssert.

(** *** helper.hpp *)

(** Modelled from the spec: [transpose(src)] (helper.hpp, not under src/),
    the transpose of [src] as a new matrix. *)
Definition transpose (m : Mat) : M store Mat :=
  let* A := gets (read m) in
  alloc (cols m) (rows m) (mtranspose (rows m) (cols m) A).

(** Modelled from the spec: [cv::remove_dups] (helper.hpp).  The spec (6):
    "given a sequence of integers, return the set of unique values in
    order of first occurrence". *)
Fixpoint remove_dups_from (seen : list Z) (l : list Z) : list Z :=
  match l with
  | [] => []
  | x :: l' =>
      if bool_decide (x ∈ seen) then remove_dups_from seen l'
      else x :: remove_dups_from (x :: seen) l'
  end.

(** Modelled from the spec: [cv::remove_dups] (helper.hpp), as above. *)
Definition remove_dups (l : list Z) : list Z := remove_dups_from [] l.

(** Modelled from the spec: [argsort(src, ascending)] (helper.hpp).  The
    spec (4.3): "Sort all D eigenpairs by eigenvalue descending (ties:
    stable ...)": the indices of the elements of a one-dimensional matrix
    in sorted order, equal elements keeping their relative order.
    [goes_first asc x y] holds when [x] must precede [y]. *)
Definition goes_first (ascending : bool) (x y : Qc) : bool :=
  if ascending then bool_decide (x < y)%Qc else bool_decide (y < x)%Qc.

Fixpoint insert_index (ascending : bool) (v : vec) (i : nat) (l : list nat) : list nat :=
  match l with
  | [] => [i]
  | k :: l' =>
      if goes_first ascending (nth k v 0%Qc) (nth i v 0%Qc)
      then k :: insert_index ascending v i l'
      else i :: k :: l'
  end.

Definition sort_indices (ascending : bool) (v : vec) : list nat :=
  foldr (insert_index ascending v) [] (seq 0 (length v)).

(** Modelled from the spec: [argsort(src, ascending)] (helper.hpp), on
    the elements of [src] in row-major order. *)
Definition argsort (m : Mat) (ascending : bool) : M store (list nat) :=
  let* A := gets (read m) in ret (sort_indices ascending (concat A)).

(** Modelled from the spec: [sortMatrixByColumn(src, indices)]
    (helper.hpp).  The spec (4.3): "Reorder the eigenvector matrix's
    columns to match": column [i] of the new matrix is column
    [indices[i]] of [src]; taking a column outside [src] is an assertion
    failure of [Mat::col]. *)
Definition sortMatrixByColumn (m : Mat) (indices : list nat) : M store Mat :=
  if bool_decide (Forall (fun k => k < cols m) indices) then
    let* A := gets (read m) in
    alloc (rows m) (length indices)
      (map (fun r => map (fun k => nth k r 0%Qc) indices) A)
  else throw StsAssert.

End cv.

(** ** subspace.cpp *)

Module subspace.
Import cv.

(** [static_cast<double>(n)] for an [int] [n]: every [int] is a double. *)
Definition to_double (n : nat) : Qc := Q2Qc (inject_Z (Z.of_nat n)).

(** [1.0/static_cast<double>(n)]: the quotient rounded to a double; for
    [n = 0] it is an infinity. *)
Definition reciprocal {S : Type} (n : nat) : M S Qc :=
  match fdiv 1 (to_double n) with
  | Some alpha => ret alpha
  | None => throw NotFinite
  end.

(** [subspace::project]: computes [Y = (X - mean) * W]. *)
Definition project (W mean src : Mat) (dataAsRow : bool) : M store Mat :=
  (* get number of samples and dimension *)
  let n := if dataAsRow then rows src else cols src in
  let d := if dataAsRow then cols src else rows src in
  (* assert mean has correct shape *)
  if bool_decide (d <> total mean) then throw StsUnmatchedSizes
  else
    (* convert src data to correct type *)
    let* data := convertTo src empty 1 in
    (* center the data *)
    let* dataT := (if dataAsRow then ret data else transpose data) in
    let* mean1 := reshape_1_1 mean in
    let* means := repeat mean1 n 1 in
    let* X := subtract dataT means empty in
    (* calculate projection as Y = (X-mean)*W *)
    let* Y := gemm X W 1 None 0 empty 0 in
    if dataAsRow then ret Y else transpose Y.

(** [subspace::reconstruct]: computes [X = Y * W' + mean]. *)
Definition reconstruct (W mean src : Mat) (dataAsRow : bool) : M store Mat :=
  let n := if dataAsRow then rows src else cols src in
  let d := if dataAsRow then cols src else rows src in
  if bool_decide (d <> total mean) then throw StsUnmatchedSizes
  else
    let* data := convertTo src empty 1 in
    let* dataT := (if dataAsRow then ret data else transpose data) in
    let* mean1 := reshape_1_1 mean in
    let* means := repeat mean1 n 1 in
    let* X := gemm dataT W 1 (Some means) 1 empty GEMM_2_T in
    if dataAsRow then ret X else transpose X.

Module LinearDiscriminantAnalysis.

(** The fields of a [LinearDiscriminantAnalysis] object. *)
Record t : Type := mk {
  _dataAsRow : bool;
  _num_components : Z;
  _eigenvectors : Mat;
  _eigenvalues : Mat
}.

Definition set_num_components (k : Z) (o : t) : t :=
  mk (_dataAsRow o) k (_eigenvectors o) (_eigenvalues o).
Definition set_eigenvectors (m : Mat) (o : t) : t :=
  mk (_dataAsRow o) (_num_components o) m (_eigenvalues o).
Definition set_eigenvalues (m : Mat) (o : t) : t :=
  mk (_dataAsRow o) (_num_components o) (_eigenvectors o) m.

(** Member functions run on the object and the matrix heap. *)
Definition state : Type := t * store.

Definition this {A : Type} (f : t -> A) : M state A := gets (fun st => f (fst st)).
Definition assign (f : t -> t) : M state unit :=
  modify (fun st => (f (fst st), snd st)).
Definition lift {A : Type} (m : M store A) : M state A :=
  fun st => let '(r, s') := m (snd st) in (r, (fst st, s')).

(** Lines 80-87: the labels mapped to [0 .. C-1]. *)
Definition label2num (num2label : list Z) : gmap Z nat :=
  foldl (fun m i => <[nth i num2label 0%Z := i]> m) ∅ (seq 0 (length num2label)).

Definition mapped_labels (labels : list Z) : list nat :=
  map (fun l => default 0 (label2num (cv.remove_dups labels) !! l)) labels.

(** Lines 99-101: clip number of components to be a valid number. *)
Definition clip (C : nat) (o : t) : t :=
  if bool_decide (_num_components o <= 0 \/ _num_components o > Z.of_nat C - 1)%Z
  then set_num_components (Z.of_nat C - 1) o
  else o.

(** Lines 102-119: the sum over all rows and the sum and size of each class. *)
Definition sums (data : Mat) (mapped : list nat) (N D C : nat)
    : M store (Mat * list Mat * list nat) :=
  let* meanTotal := zeros 1 D in
  let* (meanClass, numClass) :=
    for_ (seq 0 C) (fun i '(meanClass, numClass) =>
      let* z := zeros 1 D in
      ret (<[i := z]> meanClass, <[i := 0]> numClass))
      (replicate C empty, replicate C 0) in
  for_ (seq 0 N) (fun i '(meanTotal, meanClass, numClass) =>
    let instance := row data i in
    let classIdx := nth i mapped 0 in
    let* meanTotal := add meanTotal instance meanTotal in
    let* m := add (nth classIdx meanClass empty) instance (nth classIdx meanClass empty) in
    ret (meanTotal, <[classIdx := m]> meanClass,
         <[classIdx := S (nth classIdx numClass 0)]> numClass))
    (meanTotal, meanClass, numClass).

(** Lines 120-123: calculate means. *)
Definition means (meanTotal : Mat) (meanClass : list Mat) (numClass : list nat)
    (N C : nat) : M store (Mat * list Mat) :=
  let* alpha := reciprocal N in
  let* meanTotal := convertTo meanTotal meanTotal alpha in
  let* meanClass :=
    for_ (seq 0 C) (fun i meanClass =>
      let* alpha := reciprocal (nth i numClass 0) in
      let* m := convertTo (nth i meanClass empty) (nth i meanClass empty) alpha in
      ret (<[i := m]> meanClass)) meanClass in
  ret (meanTotal, meanClass).

(** Lines 124-129: subtract class means. *)
Definition center (data : Mat) (mapped : list nat) (meanClass : list Mat) (N : nat)
    : M store unit :=
  for_ (seq 0 N) (fun i _ =>
    let classIdx := nth i mapped 0 in
    let instance := row data i in
    let* _ := subtract instance (nth classIdx meanClass empty) instance in
    ret tt) tt.

(** Lines 130-132: calculate within-classes scatter. *)
Definition within_scatter (data : Mat) (D : nat) : M store Mat :=
  let* Sw := zeros D D in
  mulTransposed data Sw true.

(** Lines 133-140: calculate between-classes scatter. *)
Definition between_scatter (meanTotal : Mat) (meanClass : list Mat) (D C : nat)
    : M store Mat :=
  let* Sb := zeros D D in
  for_ (seq 0 C) (fun i Sb =>
    let* tmp := subtract (nth i meanClass empty) meanTotal empty in
    let* tmp := mulTransposed tmp tmp true in
    add Sb tmp Sb) Sb.

(** Lines 102-140: the means, the class-centred data, and both scatter
    matrices [(Sw, Sb)]. *)
Definition scatter (data : Mat) (mapped : list nat) (N D C : nat) : M store (Mat * Mat) :=
  let* (meanTotal, meanClass, numClass) := sums data mapped N D C in
  let* (meanTotal, meanClass) := means meanTotal meanClass numClass N C in
  center data mapped meanClass N ;;
  let* Sw := within_scatter data D in
  let* Sb := between_scatter meanTotal meanClass D C in
  ret (Sw, Sb).

Section Solver.

(** The eigenvalue solver ([EigenvalueDecomposition] of decomposition.hpp,
    or [Eigen::EigenSolver]) is a black box: for a square matrix it
    returns the real parts of the eigenvalues and, as the columns of a
    matrix, of the eigenvectors, in no particular order. *)
Variable EigenvalueDecomposition : matrix -> vec * matrix.

(** Lines 146-159: the eigenvalues as an [n]-by-1 matrix and the
    eigenvectors with one column per eigenvalue, assigned to the fields. *)
Definition solve (m : Mat) : M state unit :=
  let* A := lift (gets (read m)) in
  let es := EigenvalueDecomposition A in
  let* values := lift (alloc (length (fst es)) 1 (map (fun x => [x]) (fst es))) in
  assign (set_eigenvalues values) ;;
  let* vectors := lift (alloc (length (snd es)) (length (fst es)) (snd es)) in
  assign (set_eigenvectors vectors).

(** Lines 160-169: sort by descending eigenvalue and keep the first
    [_num_components] columns. *)
Definition select : M state unit :=
  (* reshape eigenvalues, so they are stored by column *)
  let* values := this _eigenvalues in
  let* values := reshape_1_1 values in
  assign (set_eigenvalues values) ;;
  (* get sorted indices descending by their eigenvalue *)
  let* sorted_indices := lift (argsort values false) in
  (* now sort eigenvalues and eigenvectors accordingly *)
  let* values := lift (sortMatrixByColumn values sorted_indices) in
  assign (set_eigenvalues values) ;;
  let* vectors := this _eigenvectors in
  let* vectors := lift (sortMatrixByColumn vectors sorted_indices) in
  assign (set_eigenvectors vectors) ;;
  (* and now take only the num_components and we're out! *)
  let* k := this _num_components in
  let* values := colRange values 0 k in
  assign (set_eigenvalues values) ;;
  let* vectors := colRange vectors 0 k in
  assign (set_eigenvectors vectors).

(** [LinearDiscriminantAnalysis::compute(const Mat& src, const vector<int>& labels)].
    The warning written to [cout] when [N < D] is not part of the state. *)
Definition compute (src : Mat) (labels : list Z) : M state unit :=
  if bool_decide (channels src <> 1) then throw StsBadArg
  else
    let* dataAsRow := this _dataAsRow in
    let* data := lift (if dataAsRow then clone src else transpose src) in
    (* since we are dealing with very small numbers, use double values *)
    let* data := lift (convertTo data data 1) in
    (* maps the labels, so they have an ascending identifier from 0:C *)
    let mapped := mapped_labels labels in
    (* get sample size, dimension *)
    let N := rows data in
    let D := cols data in
    (* get number of classes (number of unique labels) *)
    let C := length (cv.remove_dups labels) in
    (* assert, that: len(src) = len(labels) *)
    if bool_decide (length labels <> N) then throw StsBadArg
    else
      (* clip number of components to be a valid number *)
      assign (clip C) ;;
      let* (Sw, Sb) := lift (scatter data mapped N D C) in
      (* invert Sw *)
      let* Swi := lift (inv Sw) in
      (* M = inv(Sw)*Sb *)
      let* M := lift (gemm Swi Sb 1 None 0 empty 0) in
      solve M ;;
      select.

End Solver.

(** [LinearDiscriminantAnalysis::project] and [::reconstruct]. *)
Definition project (src : Mat) : M state Mat :=
  let* dataAsRow := this _dataAsRow in
  let* eigenvectors := this _eigenvectors in
  let* a := lift (if dataAsRow then ret src else transpose src) in
  let* dst := lift (gemm a eigenvectors 1 None 0 empty 0) in
  if dataAsRow then ret dst else lift (transpose dst).

Definition reconstruct (src : Mat) : M state Mat :=
  let* dataAsRow := this _dataAsRow in
  let* a := lift (if dataAsRow then ret src else transpose src) in
  let* dst := lift (gemm a src 1 None 0 empty GEMM_2_T) in
  if dataAsRow then ret dst else lift (transpose dst).

End LinearDiscriminantAnalysis.

End subspace.

(** * Specification vocabulary *)

Import cv subspace.
Module LDA := subspace.LinearDiscriminantAnalysis.

(** Weakest precondition: [wp m Q s] holds when running [m] from [s]
    ends, normally or by an exception, in an outcome and a state that
    satisfy [Q]. *)
Definition wp {S A : Type} (m : M S A) (Q : result A -> S -> Prop) (s : S) : Prop :=
  Q (outcome (m s)) (final (m s)).

(** [allocated m s]: the buffer of [m], if it has one, exists in [s].
    [local s0 m]: the buffer of [m], if it has one, was allocated after [s0]. *)
Definition allocated (m : Mat) (s : store) : Prop :=
  forall b, data m = Some b -> b < length s.
Definition local (s0 : store) (m : Mat) : Prop :=
  forall b, data m = Some b -> length s0 <= b.

(** [framed s0 P]: the postcondition of a computation that leaves every
    buffer of [s0] alone, whatever its outcome, and whose result (if any)
    satisfies [P]. *)
Definition framed {A : Type} (s0 : store) (P : A -> Prop) (r : result A) (s : store) : Prop :=
  (exists e, s = s0 ++ e) /\ (forall a, r = Ok a -> P a).

(** For member functions: the matrix heap only grows. *)
Definition grows {A : Type} (s0 : store) (r : result A) (st : LDA.state) : Prop :=
  exists e, snd st = s0 ++ e.

(** The number of distinct classes of a label vector. *)
Definition distinct (labels : list Z) : nat := size (list_to_set labels : gset Z).

(** The number of components the clipping rule retains for [C] classes. *)
Definition clipped (requested : Z) (C : nat) : Z :=
  if bool_decide (requested <= 0 \/ requested > Z.of_nat C - 1)%Z
  then (Z.of_nat C - 1)%Z else requested.

(** [retains k o]: the object holds the setting [k] and exactly [k]
    eigenvalues and eigenvectors. *)
Definition retains (k : Z) (o : LDA.t) : Prop :=
  LDA._num_components o = k /\
  Z.of_nat (cols (LDA._eigenvalues o)) = k /\
  Z.of_nat (cols (LDA._eigenvectors o)) = k.

(** ** Concrete inputs on which the model is run *)

Definition q (z : Z) : Qc := Q2Qc (inject_Z z).

(** A solver that is exact on diagonal matrices: the diagonal as
    eigenvalues, the unit vectors as eigenvectors. *)
Definition diagonal_solver (A : matrix) : vec * matrix :=
  (map (fun i => mat_at A i i) (seq 0 (length A)), identity (length A)).

(** An object as constructed, before any [compute]. *)
Definition untrained (dataAsRow : bool) (num_components : Z) : LDA.t :=
  LDA.mk dataAsRow num_components empty empty.

(** Four observations of two features, as rows, in buffer 0 of a heap. *)
Definition clusters : matrix := [[q 0; q 0]; [q 1; q 2]; [q 10; q 10]; [q 12; q 11]].
Definition clusters_heap : store := [flatten 4 2 clusters].
Definition clusters_src : Mat := fresh 4 2 0.

(** Two observations of one feature. *)
Definition pair_heap : store := [[q 0; q 2]].
Definition pair_src : Mat := fresh 2 1 0.

(** ** Class statistics, as the spec states them *)


Definition vsum (D : nat) (l : list vec) : vec := foldl vadd (vzeros D) l.



(** The sum of the outer products [v^T * v] of a list of row vectors. *)
Definition sum_outer (D : nat) (l : list vec) : matrix :=
  foldl madd (mzeros D D) (map (fun v => outer v v) l).



(** ** Class statistics and scatter, as the program computes them *)

(** [holds s b r c A]: buffer [b] of the heap is the continuous
    [r]-by-[c] matrix [A]. *)
Definition holds (s : store) (b r c : nat) (A : matrix) : Prop :=
  s !! b = Some (flatten r c A) /\ shape r c A.

(** The observations among the first [k] that belong to class [c]. *)
Definition members (mapped : list nat) (c k : nat) : list nat :=
  filter (fun i => nth i mapped 0 = c) (seq 0 k).

Definition rows_at (X : matrix) (idx : list nat) : list vec :=
  map (fun i => nth i X []) idx.

(** The double [1.0/static_cast<double>(n)] of lines 121 and 123, for
    [n > 0]. *)
Definition rho (n : nat) : Qc := default 0%Qc (fdiv 1 (to_double n)).

(** What lines 103-123 leave in [meanTotal] and in [meanClass[c]]: the
    sums of the observations, scaled by the rounded reciprocals of the
    counts. *)
Definition total_mean (X : matrix) (N D : nat) : vec :=
  vscale (rho N) (vsum D (rows_at X (seq 0 N))).

Definition class_mean (X : matrix) (mapped : list nat) (N D c : nat) : vec :=
  vscale (rho (length (members mapped c N)))
    (vsum D (rows_at X (members mapped c N))).

(** What lines 125-129 leave in [data]. *)
Definition centered (X : matrix) (mapped : list nat) (N D : nat) : matrix :=
  map (fun i => vsub (nth i X []) (class_mean X mapped N D (nth i mapped 0))) (seq 0 N).

(** [stats_at s n D C T Sc]: buffer [n] is the row [T] and buffers
    [n+1 .. n+C] are the rows [Sc 0 .. Sc (C-1)]: the layout of
    [meanTotal] and [meanClass] in the heap. *)
Definition stats_at (s : store) (n D C : nat) (T : vec) (Sc : nat -> vec) : Prop :=
  holds s n 1 D [T] /\ forall c, c < C -> holds s (n + 1 + c) 1 D [Sc c].

(** The headers of [meanClass] in that layout. *)
Definition class_headers (n D C : nat) : list Mat :=
  map (fun c => fresh 1 D (n + 1 + c)) (seq 0 C).

(** What lines 131-140 leave in [Sw] and [Sb]. *)
Definition Sw_of (X : matrix) (mapped : list nat) (N D : nat) : matrix :=
  sum_outer D (centered X mapped N D).

Definition Sb_of (X : matrix) (mapped : list nat) (N D C : nat) : matrix :=
  sum_outer D (map (fun c => vsub (class_mean X mapped N D c) (total_mean X N D)) (seq 0 C)).

(** The observations as rows: what lines 77-79 leave in [data]. *)
Definition observations (dataAsRow : bool) (src : Mat) (s : store) : matrix :=
  if dataAsRow then read src s else mtranspose (rows src) (cols src) (read src s).

(** The scatter phase (lines 102-140) as [compute] runs it: on the new
    buffer that lines 77-79 fill with the observations. *)
Definition scatter_phase (o : LDA.t) (s : store) (src : Mat) (labels : list Z)
    : result (Mat * Mat) * store :=
  let N := if LDA._dataAsRow o then rows src else cols src in
  let D := if LDA._dataAsRow o then cols src else rows src in
  LDA.scatter (fresh N D (length s)) (LDA.mapped_labels labels) N D
    (length (cv.remove_dups labels))
    (s ++ [flatten N D (observations (LDA._dataAsRow o) src s)]).

(** ** Stable ordering of indices *)

(** [precedes asc v i j]: in a stable sort of the positions of [v]
    (ascending or descending), position [i] comes before position [j]:
    its value comes strictly first, or the values are equal and [i < j]. *)
Definition precedes (ascending : bool) (v : vec) (i j : nat) : Prop :=
  goes_first ascending (nth i v 0%Qc) (nth j v 0%Qc) = true \/
  (nth i v 0%Qc = nth j v 0%Qc /\ i < j).

(** What [solve] followed by [select] leave in the object, for the
    eigenpairs [(vals, vecs)] that the solver returned. *)
Definition selected (vals : vec) (vecs : matrix) (o : LDA.t) (s : store) : Prop :=
  let idx := sort_indices false vals in
  let K := Z.to_nat (LDA._num_components o) in
  K <= length vals /\
  read (LDA._eigenvalues o) s = [map (fun k => nth k vals 0%Qc) (take K idx)] /\
  read (LDA._eigenvectors o) s =
    mat_of (length vecs) K (fun i j => mat_at vecs i (nth j idx 0)).

(** [ends vals vecs k r st]: how [solve] and [select] end for the
    eigenpairs [(vals, vecs)] and the component count [k]: normally,
    with the [k] leading eigenpairs stored, when [0 <= k <= length vals];
    otherwise by the assertion of [Range(0, k)], with all eigenpairs
    stored, sorted but not truncated. *)
Definition ends (vals : vec) (vecs : matrix) (k : Z) (r : result unit)
    (st : LDA.state) : Prop :=
  LDA._num_components (fst st) = k /\
  (((0 <= k <= Z.of_nat (length vals))%Z /\ r = Ok tt /\
    selected vals vecs (fst st) (snd st)) \/
   (~ (0 <= k <= Z.of_nat (length vals))%Z /\ r = Throw StsAssert /\
    cols (LDA._eigenvectors (fst st)) = length vals /\
    read (LDA._eigenvalues (fst st)) (snd st)
      = [map (fun k => nth k vals 0%Qc) (sort_indices false vals)])).

(** ** The mean as [project] and [reconstruct] use it *)

(** The header [mean.reshape(1,1)] of a continuous [mean], and its only row. *)
Definition reshaped (m : Mat) : Mat :=
  if bool_decide (rows m = 1) then m
  else mkMat 1 (rows m * cols m) (channels m) (data m) (offset m) (rows m * cols m).

Definition mean_row (mean : Mat) (s : store) : vec := nth 0 (read (reshaped mean) s) [].

(** A matrix is continuous when its rows follow each other in the buffer. *)
Definition continuous (m : Mat) : Prop := rows m = 1 \/ step m = cols m.

(** ** More concrete inputs *)

(** A square zero pattern above the diagonal: [src * src^T] differs from
    what [reconstruct] returns for column-oriented data. *)
Definition shift : matrix := [[q 0; q 1]; [q 0; q 0]].
Definition shift_heap : store := [flatten 2 2 shift].


(** The observations of [clusters] with an orthogonal basis (a swap of
    the two features) in buffer 1 and a mean in buffer 2. *)
Definition affine_heap : store :=
  [flatten 4 2 clusters; [q 0; q 1; q 1; q 0]; [q 3; q 4]].

(** ** Symmetry *)

(** A [D]-by-[D] matrix that equals its transpose. *)
Definition symmetric (D : nat) (A : matrix) : Prop := mtranspose D D A = A.

(** ** Inputs for the affine maps and for the degenerate cases *)

(** The observations of [clusters] with a basis of one column,
    [(1, 1)^T], in buffer 1 and a mean in buffer 2. *)
Definition reduced_heap : store := [flatten 4 2 clusters; [q 1; q 1]; [q 3; q 4]].

(** [affine_heap] followed by the observations of [clusters] as columns. *)
Definition oriented_heap : store :=
  affine_heap ++ [flatten 2 4 (mtranspose 4 2 clusters)].

(** An object whose eigenvectors are the basis in buffer 1 of [affine_heap]. *)
Definition swapped : LDA.t := LDA.mk true 0 (fresh 2 2 1) empty.


(** Five observations of two features: three of one class, two of
    another, so that neither [1.0/3] nor [1.0/5] is exact. *)
Definition triple : matrix :=
  [[q 0; q 0]; [q 0; q 3]; [q 1; q 0]; [q 10; q 10]; [q 12; q 11]].
Definition triple_heap : store := [flatten 5 2 triple].

(** Three observations 0, 0, 1 of one feature. *)
Definition thirds : matrix := [[q 0]; [q 0]; [q 1]].
Definition thirds_heap : store := [flatten 3 1 thirds].

(** Eight observations of three features, two for each of four classes:
    [Sw] is [diag(4, 2, 2)] and [Sb] is [diag(0, 4, 4)]. *)
Definition spread : matrix :=
  [[q 1; q 1; q 1]; [q (-1); q 1; q 1];
   [q 0; q 2; q (-1)]; [q 0; q 0; q (-1)];
   [q 0; q (-1); q 2]; [q 0; q (-1); q 0];
   [q 1; q (-1); q (-1)]; [q (-1); q (-1); q (-1)]].
Definition spread_heap : store := [flatten 8 3 spread].
Definition spread_src : Mat := fresh 8 3 0.


(** A header with three channels. *)
Definition colour_src : Mat := mkMat 4 2 3 (Some 0) 0 2.

(** * Verification *)

(** ** The rounded reciprocal of a count *)


Lemma this_to_double n : this (to_double n) = inject_Z (Z.of_nat n).
Proof.
  unfold to_double. simpl. apply Qred_identity. simpl. apply Z.gcd_1_r.
Qed.

Lemma to_double_eq_0 n : to_double n = 0%Qc -> n = 0.
Proof.
  intros H. apply (f_equal this) in H. rewrite this_to_double in H.
  injection H. lia.
Qed.



(** [1.0 / n] for a positive [int] [n]: a finite double within one unit
    roundoff of [1/n]. *)
Lemma fdiv_reciprocal p :
  fdiv 1 (to_double (Pos.to_nat p)) =
    option_map Q2Qc (nearest_double 1 (Z.pos p)).
Proof.
  unfold fdiv.
  rewrite bool_decide_false by (intros H%to_double_eq_0; lia).
  rewrite this_to_double, positive_nat_Z. done.
Qed.

Lemma reciprocal_is_finite n :
  0 < n -> exists r, fdiv 1 (to_double n) = Some r.
Proof.
  intros Hn. rewrite <- (Nat2Pos.id n) by lia. rewrite fdiv_reciprocal.
  set (p := Pos.of_nat n). unfold nearest_double. simpl (1 =? 0)%Z. cbv iota.
  assert (scaled_le 970 1 ((2 ^ 54 - 1) * Z.pos p) = false) as ->.
  { unfold scaled_le. simpl (0 <=? 970)%Z. cbv iota. apply Z.leb_gt.
    assert (0 < 2 ^ 970)%Z by (apply Z.pow_pos_nonneg; lia).
    assert (2 ^ 54 - 1 = 18014398509481983)%Z as -> by reflexivity. nia. }
  simpl. eauto.
Qed.


Lemma reciprocal_of_one : fdiv 1 (to_double 1) = Some 1%Qc.
Proof.
  change (to_double 1) with (to_double (Pos.to_nat 1)). rewrite fdiv_reciprocal.
  assert (nearest_double 1 1 = Some (2 ^ 52 # 2 ^ 52)) as -> by (vm_compute; reflexivity).
  simpl. f_equal. by apply Qc_is_canon.
Qed.

(** The doubles [1.0/3] (rounded down), [1.0/10] (rounded up) and
    [1.0/4] (exact); [1.0/0] is not a finite double. *)
Lemma reciprocal_examples :
  fdiv 1 (to_double 3) = Some (Q2Qc (6004799503160661 # 2 ^ 54)) /\
  fdiv 1 (to_double 10) = Some (Q2Qc (7205759403792794 # 2 ^ 56)) /\
  fdiv 1 (to_double 4) = Some (Q2Qc (1 # 4)) /\
  fdiv 1 (to_double 0) = None.
Proof.
  split_and!; apply (bool_decide_unpack _); vm_compute; exact I.
Qed.

(** ** Weakest preconditions for the state-and-exception monad *)

Section WP.
Context {S : Type}.

Lemma wp_ret {A} (a : A) (Q : result A -> S -> Prop) s : Q (Ok a) s -> wp (ret a) Q s.
Proof. done. Qed.

Lemma wp_throw {A} e (Q : result A -> S -> Prop) s : Q (Throw e) s -> wp (throw e) Q s.
Proof. done. Qed.

Lemma wp_gets {A} (f : S -> A) (Q : result A -> S -> Prop) s :
  Q (Ok (f s)) s -> wp (gets f) Q s.
Proof. done. Qed.

Lemma wp_modify (f : S -> S) (Q : result unit -> S -> Prop) s :
  Q (Ok tt) (f s) -> wp (modify f) Q s.
Proof. done. Qed.

Lemma wp_bind {A B} (m : M S A) (k : A -> M S B) (Q : result B -> S -> Prop) s :
  wp m (fun r s' =>
          match r with
          | Ok a => wp (k a) Q s'
          | Throw e => Q (Throw e) s'
          end) s ->
  wp (bind m k) Q s.
Proof.
  unfold wp, bind, outcome, final. destruct (m s) as [[a|e] s']; simpl; auto.
Qed.

Lemma wp_mono {A} (m : M S A) (P Q : result A -> S -> Prop) s :
  wp m P s -> (forall r s', P r s' -> Q r s') -> wp m Q s.
Proof. unfold wp. auto. Qed.

End WP.

Lemma wp_lift {A} (m : M store A) (Q : result A -> LDA.state -> Prop) o s :
  wp m (fun r s' => Q r (o, s')) s -> wp (LDA.lift m) Q (o, s).
Proof.
  unfold wp, LDA.lift, outcome, final. simpl. destruct (m s) as [r s']. done.
Qed.

Lemma wp_this {A} (f : LDA.t -> A) (Q : result A -> LDA.state -> Prop) o s :
  Q (Ok (f o)) (o, s) -> wp (LDA.this f) Q (o, s).
Proof. done. Qed.

Lemma wp_assign (f : LDA.t -> LDA.t) (Q : result unit -> LDA.state -> Prop) o s :
  Q (Ok tt) (f o, s) -> wp (LDA.assign f) Q (o, s).
Proof. done. Qed.

(** ** Frame: buffers allocated before a call *)

Lemma read_ext m s e : allocated m s -> read m (s ++ e) = read m s.
Proof.
  intros Ha. unfold read, at_, buffer.
  destruct (data m) as [b|] eqn:Hb; [|done].
  rewrite lookup_app_l by (by apply Ha). done.
Qed.

Lemma write_local s0 e m A :
  local s0 m -> exists e', write m A (s0 ++ e) = s0 ++ e'.
Proof.
  intros Hl. unfold write. destruct (data m) as [b|] eqn:Hb; [|eauto].
  specialize (Hl b Hb).
  replace b with (length s0 + (b - length s0)) by lia.
  rewrite alter_app_r. eauto.
Qed.

Lemma local_empty s0 : local s0 empty.
Proof. intros b Hb. discriminate. Qed.

Lemma local_fresh s0 e r c : local s0 (fresh r c (length (s0 ++ e))).
Proof. intros b [= <-]. rewrite length_app. lia. Qed.

Lemma local_row s0 m i : local s0 m -> local s0 (row m i).
Proof. done. Qed.

Lemma framed_alloc s0 e r c A :
  wp (alloc r c A) (framed s0 (local s0)) (s0 ++ e).
Proof.
  split; simpl.
  - exists (e ++ [flatten r c A]). by rewrite app_assoc.
  - intros a [= <-]. apply local_fresh.
Qed.

Lemma framed_output s0 e dst r c A :
  local s0 dst -> wp (output dst r c A) (framed s0 (local s0)) (s0 ++ e).
Proof.
  intros Hl. unfold output. destruct (fits dst r c).
  - split; simpl; [by apply write_local|]. by intros a [= <-].
  - apply framed_alloc.
Qed.

Lemma framed_throw {A} s0 (P : A -> Prop) err e :
  wp (throw err) (framed s0 P) (s0 ++ e).
Proof. split; simpl; [eauto | intros ? [=]]. Qed.

Lemma framed_ret {A} s0 (P : A -> Prop) a e :
  P a -> wp (ret a) (framed s0 P) (s0 ++ e).
Proof. intros Ha. split; simpl; [eauto | by intros ? [= <-]]. Qed.

Lemma framed_bind {A B} s0 (P : A -> Prop) (P' : B -> Prop) (m : M store A) k s :
  wp m (framed s0 P) s ->
  (forall a e, P a -> wp (k a) (framed s0 P') (s0 ++ e)) ->
  wp (bind m k) (framed s0 P') s.
Proof.
  intros Hm Hk. apply wp_bind. eapply wp_mono; [exact Hm|].
  intros [a|err] s' [[e ->] Ha]; [auto|]. split; [eauto | intros ? [=]].
Qed.

Lemma framed_gets {A B} s0 (P' : B -> Prop) (f : store -> A) k s :
  wp (k (f s)) (framed s0 P') s -> wp (bind (gets f) k) (framed s0 P') s.
Proof. intros H. by apply wp_bind, wp_gets. Qed.

Lemma framed_for {A} s0 (P : A -> Prop) body l acc e :
  P acc ->
  (forall i acc e, P acc -> wp (body i acc) (framed s0 P) (s0 ++ e)) ->
  wp (for_ l body acc) (framed s0 P) (s0 ++ e).
Proof.
  intros Hacc Hbody. revert acc e Hacc.
  induction l as [|i l IH]; intros acc e Hacc; simpl.
  - by apply framed_ret.
  - eapply framed_bind; [by apply Hbody|]. intros acc' e' Hacc'. by apply IH.
Qed.

(** The primitives write only through their output argument. *)
Section FramedPrimitives.
Variable s0 : store.
Implicit Types (e : store) (m a b dst : Mat).

Ltac prim := repeat first
  [ apply framed_throw
  | apply framed_alloc
  | by apply framed_output
  | apply framed_gets; cbv beta
  | match goal with |- wp (if ?c then _ else _) _ _ => destruct c end
  | match goal with |- wp (match ?c with _ => _ end) _ _ => destruct c end ].

Lemma framed_zeros e r c : wp (zeros r c) (framed s0 (local s0)) (s0 ++ e).
Proof. apply framed_alloc. Qed.

Lemma framed_clone e m : wp (clone m) (framed s0 (local s0)) (s0 ++ e).
Proof. unfold clone. prim. Qed.

Lemma framed_transpose e m : wp (transpose m) (framed s0 (local s0)) (s0 ++ e).
Proof. unfold transpose. prim. Qed.

Lemma framed_repeat e m ny nx : wp (repeat m ny nx) (framed s0 (local s0)) (s0 ++ e).
Proof. unfold repeat. prim. Qed.

Lemma framed_inv e m : wp (inv m) (framed s0 (local s0)) (s0 ++ e).
Proof. unfold inv. prim. Qed.

Lemma framed_sortMatrixByColumn e m idx :
  wp (sortMatrixByColumn m idx) (framed s0 (local s0)) (s0 ++ e).
Proof. unfold sortMatrixByColumn. prim. Qed.

Lemma framed_argsort e m asc :
  wp (argsort m asc) (framed s0 (fun _ => True)) (s0 ++ e).
Proof. unfold argsort. apply framed_gets. by apply framed_ret. Qed.

Lemma framed_convertTo e m dst alpha :
  local s0 dst -> wp (convertTo m dst alpha) (framed s0 (local s0)) (s0 ++ e).
Proof. intros. unfold convertTo. prim. Qed.

Lemma framed_add e a b dst :
  local s0 dst -> wp (add a b dst) (framed s0 (local s0)) (s0 ++ e).
Proof. intros. unfold add. prim. Qed.

Lemma framed_subtract e a b dst :
  local s0 dst -> wp (subtract a b dst) (framed s0 (local s0)) (s0 ++ e).
Proof. intros. unfold subtract. prim. Qed.

Lemma framed_mulTransposed e m dst aTa :
  local s0 dst -> wp (mulTransposed m dst aTa) (framed s0 (local s0)) (s0 ++ e).
Proof. intros. unfold mulTransposed. prim. Qed.

Lemma framed_gemm e a b alpha c beta dst flags :
  local s0 dst -> wp (gemm a b alpha c beta dst flags) (framed s0 (local s0)) (s0 ++ e).
Proof. intros. unfold gemm. prim. Qed.

End FramedPrimitives.

(** The phases of [compute] write only to matrices they allocated. *)
Section FramedPhases.
Variable s0 : store.

Lemma local_nth (l : list Mat) i : Forall (local s0) l -> local s0 (nth i l empty).
Proof.
  intros Hl. destruct (decide (i < length l)) as [Hi|Hi].
  - apply Forall_nth; [done | lia].
  - rewrite nth_overflow by lia. apply local_empty.
Qed.

Lemma framed_sums e data mapped N D C :
  local s0 data ->
  wp (LDA.sums data mapped N D C)
     (framed s0 (fun '(mt, mc, nc) => local s0 mt /\ Forall (local s0) mc)) (s0 ++ e).
Proof.
  intros Hd. unfold LDA.sums.
  eapply framed_bind; [apply framed_zeros|]. intros mt e1 Hmt.
  eapply framed_bind.
  { apply (framed_for s0 (fun '(mc, nc) => Forall (local s0) mc)).
    - apply Forall_replicate, local_empty.
    - intros i [mc nc] e2 Hmc.
      eapply framed_bind; [apply framed_zeros|]. intros z e3 Hz.
      apply framed_ret. by apply Forall_insert. }
  intros [mc nc] e2 Hmc.
  apply (framed_for s0 (fun '(mt, mc, nc) => local s0 mt /\ Forall (local s0) mc)); [done|].
  intros i [[mt' mc'] nc'] e3 [Hmt' Hmc'].
  eapply framed_bind; [by apply framed_add|]. intros mt'' e4 Hmt''.
  eapply framed_bind; [by apply framed_add, local_nth|]. intros m e5 Hm.
  apply framed_ret. split; [done|]. by apply Forall_insert.
Qed.

Lemma framed_reciprocal e n :
  wp (reciprocal n) (framed s0 (fun _ => True)) (s0 ++ e).
Proof.
  unfold reciprocal. destruct (fdiv 1 (to_double n)); [by apply framed_ret|].
  apply framed_throw.
Qed.

Lemma framed_means e mt mc nc N C :
  local s0 mt -> Forall (local s0) mc ->
  wp (LDA.means mt mc nc N C)
     (framed s0 (fun '(mt, mc) => local s0 mt /\ Forall (local s0) mc)) (s0 ++ e).
Proof.
  intros Hmt Hmc. unfold LDA.means.
  eapply framed_bind; [apply framed_reciprocal|]. intros alpha e0 _.
  eapply framed_bind; [by apply framed_convertTo|]. intros mt' e1 Hmt'.
  eapply framed_bind.
  { apply (framed_for s0 (Forall (local s0))); [done|].
    intros i mc' e2 Hmc'.
    eapply framed_bind; [apply framed_reciprocal|]. intros alpha' e2' _.
    eapply framed_bind; [by apply framed_convertTo, local_nth|]. intros m e3 Hm.
    apply framed_ret. by apply Forall_insert. }
  intros mc' e2 Hmc'. by apply framed_ret.
Qed.

Lemma framed_center e data mapped mc N :
  local s0 data ->
  wp (LDA.center data mapped mc N) (framed s0 (fun _ => True)) (s0 ++ e).
Proof.
  intros Hd. unfold LDA.center.
  apply (framed_for s0 (fun _ => True)); [done|].
  intros i _ e1 _.
  eapply framed_bind; [by apply framed_subtract, local_row|]. intros m e2 Hm.
  by apply framed_ret.
Qed.

Lemma framed_within_scatter e data D :
  wp (LDA.within_scatter data D) (framed s0 (local s0)) (s0 ++ e).
Proof.
  unfold LDA.within_scatter.
  eapply framed_bind; [apply framed_zeros|]. intros Sw e1 HSw.
  by apply framed_mulTransposed.
Qed.

Lemma framed_between_scatter e mt mc D C :
  wp (LDA.between_scatter mt mc D C) (framed s0 (local s0)) (s0 ++ e).
Proof.
  unfold LDA.between_scatter.
  eapply framed_bind; [apply framed_zeros|]. intros Sb e1 HSb.
  apply (framed_for s0 (local s0)); [done|].
  intros i Sb' e2 HSb'.
  eapply framed_bind; [apply framed_subtract, local_empty|]. intros tmp e3 Htmp.
  eapply framed_bind; [by apply framed_mulTransposed|]. intros tmp' e4 Htmp'.
  by apply framed_add.
Qed.

Lemma framed_scatter e data mapped N D C :
  local s0 data ->
  wp (LDA.scatter data mapped N D C) (framed s0 (fun _ => True)) (s0 ++ e).
Proof.
  intros Hd. unfold LDA.scatter.
  eapply framed_bind; [by apply framed_sums|]. intros [[mt mc] nc] e1 [Hmt Hmc].
  eapply framed_bind; [by apply framed_means|]. intros [mt' mc'] e2 [Hmt' Hmc'].
  eapply framed_bind; [by apply framed_center|]. intros _ e3 _.
  eapply framed_bind; [apply framed_within_scatter|]. intros Sw e4 HSw.
  eapply framed_bind; [apply framed_between_scatter|]. intros Sb e5 HSb.
  by apply framed_ret.
Qed.

End FramedPhases.

Lemma grows_lift {A B} s0 (P : A -> Prop) (m : M store A) (k : A -> M LDA.state B) o e :
  wp m (framed s0 P) (s0 ++ e) ->
  (forall a e', P a -> wp (k a) (grows s0) (o, s0 ++ e')) ->
  wp (bind (LDA.lift m) k) (grows s0) (o, s0 ++ e).
Proof.
  intros Hm Hk. apply wp_bind, wp_lift. eapply wp_mono; [exact Hm|].
  intros [a|err] s' [[e' ->] Ha]; [auto|]. by exists e'.
Qed.

Lemma grows_bind {A B} s0 (m : M LDA.state A) (k : A -> M LDA.state B) st :
  wp m (grows s0) st ->
  (forall a o e, wp (k a) (grows s0) (o, s0 ++ e)) ->
  wp (bind m k) (grows s0) st.
Proof.
  intros Hm Hk. apply wp_bind. eapply wp_mono; [exact Hm|].
  intros [a|err] [o s'] [e He]; simpl in He; subst s'; [auto | by exists e].
Qed.

Lemma grows_pure {A B} s0 (m : M LDA.state A) (k : A -> M LDA.state B) o e :
  (forall st, final (m st) = st) ->
  (forall a, wp (k a) (grows s0) (o, s0 ++ e)) ->
  wp (bind m k) (grows s0) (o, s0 ++ e).
Proof.
  intros Hm Hk. apply wp_bind. unfold wp at 1. rewrite Hm.
  destruct (outcome _) as [a|err]; [auto | by exists e].
Qed.

Lemma colRange_final {S} m a b (st : S) : final (colRange m a b st) = st.
Proof. unfold colRange. by destruct (bool_decide _). Qed.

Lemma reshape_1_1_final {S} m (st : S) : final (reshape_1_1 m st) = st.
Proof. unfold reshape_1_1. by repeat destruct (bool_decide _). Qed.

Section FramedCompute.
Variable solver : matrix -> vec * matrix.
Variable s0 : store.

Lemma grows_solve o e m : wp (LDA.solve solver m) (grows s0) (o, s0 ++ e).
Proof.
  unfold LDA.solve.
  apply wp_bind, wp_lift, wp_gets.
  eapply grows_lift; [apply framed_alloc|]. intros values e1 _.
  apply wp_bind, wp_assign.
  eapply grows_lift; [apply framed_alloc|]. intros vectors e2 _.
  apply wp_assign. by exists e2.
Qed.

Lemma grows_select o e : wp LDA.select (grows s0) (o, s0 ++ e).
Proof.
  unfold LDA.select.
  apply wp_bind, wp_this.
  apply grows_pure; [apply reshape_1_1_final|]. intros values.
  apply wp_bind, wp_assign.
  eapply grows_lift; [apply framed_argsort|]. intros idx e1 _.
  eapply grows_lift; [apply framed_sortMatrixByColumn|]. intros values' e2 _.
  apply wp_bind, wp_assign.
  apply wp_bind, wp_this.
  eapply grows_lift; [apply framed_sortMatrixByColumn|]. intros vectors' e3 _.
  apply wp_bind, wp_assign.
  apply wp_bind, wp_this.
  apply grows_pure; [apply colRange_final|]. intros values''.
  apply wp_bind, wp_assign.
  apply grows_pure; [apply colRange_final|]. intros vectors''.
  apply wp_assign. by exists e3.
Qed.

Lemma grows_compute o e src labels :
  wp (LDA.compute solver src labels) (grows s0) (o, s0 ++ e).
Proof.
  unfold LDA.compute.
  destruct (bool_decide (channels src <> 1)); [by exists e|].
  apply wp_bind, wp_this.
  eapply grows_lift.
  { destruct (LDA._dataAsRow o); [apply framed_clone | apply framed_transpose]. }
  intros data e1 Hdata.
  eapply grows_lift; [by apply framed_convertTo|]. intros data' e2 Hdata'.
  destruct (bool_decide (length labels <> rows data')); [by exists e2|].
  apply wp_bind, wp_assign.
  eapply grows_lift; [by apply framed_scatter|]. intros [Sw Sb] e3 _.
  eapply grows_lift; [apply framed_inv|]. intros Swi e4 _.
  eapply grows_lift; [apply framed_gemm, local_empty|]. intros Mm e5 _.
  eapply grows_bind; [apply grows_solve|]. intros _ o' e6.
  apply grows_select.
Qed.

End FramedCompute.

(** ** The number of distinct classes *)

Lemma remove_dups_from_spec seen l :
  NoDup (cv.remove_dups_from seen l) /\
  (forall x, x ∈ cv.remove_dups_from seen l <-> x ∈ l /\ x ∉ seen).
Proof.
  revert seen. induction l as [|y l IH]; intros seen; simpl.
  - split; [constructor|]. intros x. split.
    + intros H. by apply elem_of_nil in H.
    + intros [H _]. by apply elem_of_nil in H.
  - case_bool_decide as Hy.
    + destruct (IH seen) as [Hnd Hin]. split; [done|].
      intros x. rewrite Hin, elem_of_cons. split.
      * intros [Hx Hs]. auto.
      * intros [[->|Hx] Hs]; [done | auto].
    + destruct (IH (y :: seen)) as [Hnd Hin]. split.
      * constructor; [|done]. rewrite Hin, not_elem_of_cons. intros [_ [Hne _]]. done.
      * intros x. rewrite !elem_of_cons, Hin, not_elem_of_cons.
        destruct (decide (x = y)) as [->|Hne]; [tauto|]. tauto.
Qed.

Lemma remove_dups_NoDup l : NoDup (cv.remove_dups l).
Proof. apply remove_dups_from_spec. Qed.

Lemma elem_of_remove_dups l x : x ∈ cv.remove_dups l <-> x ∈ l.
Proof.
  unfold cv.remove_dups. rewrite (proj2 (remove_dups_from_spec [] l)). split.
  - by intros [H _].
  - intros H. split; [done|]. apply not_elem_of_nil.
Qed.

Lemma remove_dups_length l : length (cv.remove_dups l) = distinct l.
Proof.
  unfold distinct. rewrite <- (size_list_to_set (C:=gset Z)) by apply remove_dups_NoDup.
  f_equal. apply set_eq. intros x.
  rewrite !elem_of_list_to_set. apply elem_of_remove_dups.
Qed.

Lemma wp_any {S A} (m : M S A) (Q : result A -> S -> Prop) s :
  (forall r s', Q r s') -> wp m Q s.
Proof. unfold wp. auto. Qed.

Lemma wp_conj {S A} (m : M S A) (P Q : result A -> S -> Prop) s :
  wp m P s -> wp m Q s -> wp m (fun r s' => P r s' /\ Q r s') s.
Proof. unfold wp. auto. Qed.

(** ** Component count clipping *)

Lemma clip_num_components C o :
  LDA._num_components (LDA.clip C o) = clipped (LDA._num_components o) C.
Proof. unfold LDA.clip, clipped. by case_bool_decide. Qed.

Section Clipping.
Variable solver : matrix -> vec * matrix.

Lemma select_retains o s :
  wp LDA.select (fun r st => r = Ok tt -> retains (LDA._num_components o) (fst st)) (o, s).
Proof.
  unfold LDA.select.
  apply wp_bind, wp_this.
  apply wp_bind. unfold reshape_1_1.
  assert (forall m, wp (LDA.assign (LDA.set_eigenvalues m);;
    let* sorted_indices := LDA.lift (argsort m false) in
    let* values := LDA.lift (sortMatrixByColumn m sorted_indices) in
    LDA.assign (LDA.set_eigenvalues values);;
    let* vectors := LDA.this LDA._eigenvectors in
    let* vectors := LDA.lift (sortMatrixByColumn vectors sorted_indices) in
    LDA.assign (LDA.set_eigenvectors vectors);;
    let* k := LDA.this LDA._num_components in
    let* values := colRange values 0 k in
    LDA.assign (LDA.set_eigenvalues values);;
    let* vectors := colRange vectors 0 k in
    LDA.assign (LDA.set_eigenvectors vectors))
    (fun r st => r = Ok tt -> retains (LDA._num_components o) (fst st)) (o, s)) as Hrest.
  { intros m.
    apply wp_bind, wp_assign.
    apply wp_bind, wp_lift, wp_any. intros [idx|err] s1; [|by intros [=]].
    apply wp_bind, wp_lift, wp_any. intros [values|err] s2; [|by intros [=]].
    apply wp_bind, wp_assign.
    apply wp_bind, wp_this.
    apply wp_bind, wp_lift, wp_any. intros [vectors|err] s3; [|by intros [=]].
    apply wp_bind, wp_assign.
    apply wp_bind, wp_this. simpl.
    apply wp_bind. unfold colRange at 1. case_bool_decide as Hk; [|by intros [=]].
    apply wp_ret, wp_bind, wp_assign.
    apply wp_bind. unfold colRange. case_bool_decide as Hk'; [|by intros [=]].
    apply wp_ret, wp_assign. intros _. unfold retains. simpl. lia. }
  repeat case_bool_decide; try (by intros [=]); apply wp_ret, Hrest.
Qed.

Lemma solve_num_components o s m (Q : result unit -> LDA.state -> Prop) :
  (forall err o' s', Q (Throw err) (o', s')) ->
  (forall o' s', LDA._num_components o' = LDA._num_components o -> Q (Ok tt) (o', s')) ->
  wp (LDA.solve solver m) Q (o, s).
Proof.
  intros Hthrow Hok. unfold LDA.solve.
  apply wp_bind, wp_lift, wp_gets.
  apply wp_bind, wp_lift, wp_any. intros [values|err] s1; [|apply Hthrow].
  apply wp_bind, wp_assign.
  apply wp_bind, wp_lift, wp_any. intros [vectors|err] s2; [|apply Hthrow].
  apply wp_assign. by apply Hok.
Qed.

Lemma compute_retains o s src labels :
  wp (LDA.compute solver src labels)
     (fun r st => r = Ok tt ->
        retains (clipped (LDA._num_components o) (distinct labels)) (fst st)) (o, s).
Proof.
  unfold LDA.compute.
  case_bool_decide; [by intros [=]|].
  apply wp_bind, wp_this.
  apply wp_bind, wp_lift, wp_any. intros [data|err] s1; [|by intros [=]].
  apply wp_bind, wp_lift, wp_any. intros [data'|err] s2; [|by intros [=]].
  case_bool_decide; [by intros [=]|].
  apply wp_bind, wp_assign.
  apply wp_bind, wp_lift, wp_any. intros [[Sw Sb]|err] s3; [|by intros [=]].
  apply wp_bind, wp_lift, wp_any. intros [Swi|err] s4; [|by intros [=]].
  apply wp_bind, wp_lift, wp_any. intros [Mm|err] s5; [|by intros [=]].
  apply wp_bind, solve_num_components; [by intros ??? [=]|]. intros o' s6 Ho'.
  eapply wp_mono; [apply select_retains|]. intros r st Hr Hok.
  rewrite Ho', clip_num_components, remove_dups_length in Hr. auto.
Qed.

End Clipping.

Lemma wp_alloc r c A (Q : result Mat -> store -> Prop) s :
  Q (Ok (fresh r c (length s))) (s ++ [flatten r c A]) -> wp (alloc r c A) Q s.
Proof. done. Qed.

Lemma fits_fresh r c b : fits (fresh r c b) r c = true.
Proof. unfold fits. apply bool_decide_eq_true. simpl. eauto. Qed.

Lemma fits_empty r c : fits empty r c = false.
Proof. unfold fits. apply bool_decide_eq_false. simpl. intros (_ & _ & [? [=]]). Qed.

Lemma wp_output_fits dst r c A (Q : result Mat -> store -> Prop) s :
  fits dst r c = true -> Q (Ok dst) (write dst A s) -> wp (output dst r c A) Q s.
Proof. intros Hf HQ. unfold output. by rewrite Hf. Qed.

Lemma wp_output_alloc dst r c A (Q : result Mat -> store -> Prop) s :
  fits dst r c = false ->
  Q (Ok (fresh r c (length s))) (s ++ [flatten r c A]) -> wp (output dst r c A) Q s.
Proof. intros Hf HQ. unfold output. by rewrite Hf. Qed.

(** ** Input validation *)

Section Validation.
Variable solver : matrix -> vec * matrix.

Lemma compute_mismatch o s src labels :
  (if LDA._dataAsRow o then rows src else cols src) <> length labels ->
  wp (LDA.compute solver src labels)
     (fun r st => r = Throw StsBadArg /\ fst st = o) (o, s).
Proof.
  intros Hne. unfold LDA.compute.
  case_bool_decide; [done|].
  apply wp_bind, wp_this.
  apply wp_bind, wp_lift.
  apply wp_mono with (P := fun r s' => exists c b,
    r = Ok (fresh (if LDA._dataAsRow o then rows src else cols src) c b)).
  { destruct (LDA._dataAsRow o); apply wp_bind, wp_gets, wp_alloc; eauto. }
  intros r s' (c & b & ->).
  apply wp_bind, wp_lift. unfold convertTo. apply wp_bind, wp_gets.
  apply wp_output_fits; [apply fits_fresh|].
  rewrite bool_decide_true; [done|]. simpl. congruence.
Qed.

End Validation.

(** ** Matrices as lists: shapes and element access *)

Lemma mat_of_ext r c f g :
  (forall i j, i < r -> j < c -> f i j = g i j) -> mat_of r c f = mat_of r c g.
Proof.
  intros H. unfold mat_of. apply map_ext_in. intros i Hi%in_seq.
  apply map_ext_in. intros j Hj%in_seq. apply H; lia.
Qed.

Lemma shape_mat_of r c f : shape r c (mat_of r c f).
Proof.
  unfold shape, mat_of. split.
  - by rewrite length_map, length_seq.
  - apply Forall_map, Forall_forall. intros i _. simpl.
    by rewrite length_map, length_seq.
Qed.

Lemma mat_at_mat_of r c f i j : i < r -> j < c -> mat_at (mat_of r c f) i j = f i j.
Proof.
  intros Hi Hj. unfold mat_at, mat_of.
  rewrite (nth_indep _ [] (map (f 0) (seq 0 c))) by (by rewrite length_map, length_seq).
  rewrite (map_nth (fun i => map (f i) (seq 0 c))), seq_nth by done. simpl.
  rewrite (nth_indep _ 0%Qc (f i 0)) by (by rewrite length_map, length_seq).
  rewrite (map_nth (f i)), seq_nth by done. done.
Qed.

Lemma vec_of_nth c (v : vec) : length v = c -> map (fun j => nth j v 0%Qc) (seq 0 c) = v.
Proof.
  intros <-. apply list_eq. intros j.
  rewrite list_lookup_fmap. destruct (decide (j < length v)) as [Hj|Hj].
  - rewrite lookup_seq_lt by done. simpl.
    destruct (lookup_lt_is_Some_2 v j Hj) as [x Hx]. rewrite Hx.
    f_equal. by apply nth_lookup_Some.
  - rewrite lookup_seq_ge, lookup_ge_None_2 by lia. done.
Qed.

Lemma mat_of_mat_at r c (A : matrix) : shape r c A -> mat_of r c (mat_at A) = A.
Proof.
  intros [Hr Hc]. unfold mat_of, mat_at. apply list_eq. intros i.
  rewrite list_lookup_fmap. destruct (decide (i < r)) as [Hi|Hi].
  - rewrite lookup_seq_lt by done. simpl.
    destruct (lookup_lt_is_Some_2 A i) as [x Hx]; [lia|]. rewrite Hx. f_equal.
    rewrite (nth_lookup_Some _ _ _ _ Hx).
    apply vec_of_nth. by eapply (Forall_lookup_1 _ _ _ _ Hc).
  - rewrite lookup_seq_ge, lookup_ge_None_2 by lia. done.
Qed.

Lemma length_flatten r c A : length (flatten r c A) = r * c.
Proof. unfold flatten. by rewrite length_map, length_seq. Qed.

Lemma nth_flatten r c A k :
  k < r * c -> nth k (flatten r c A) 0%Qc = mat_at A (k / c) (k mod c).
Proof.
  intros Hk. unfold flatten.
  rewrite (nth_indep _ 0%Qc (mat_at A (0 / c) (0 mod c))) by (by rewrite length_map, length_seq).
  rewrite (map_nth (fun k => mat_at A (k / c) (k mod c))), seq_nth by done. done.
Qed.

Lemma index_div i j c : j < c -> (i * c + j) / c = i.
Proof. intros Hj. rewrite Nat.div_add_l by lia. rewrite Nat.div_small by done. lia. Qed.

Lemma index_mod i j c : j < c -> (i * c + j) mod c = j.
Proof.
  intros Hj. rewrite Nat.add_comm, Nat.Div0.mod_add. by apply Nat.mod_small.
Qed.

Lemma index_lt i j r c : i < r -> j < c -> i * c + j < r * c.
Proof. nia. Qed.

(** ** Reading and writing continuous matrices *)

Section Heap.
Implicit Types (s : store) (A : matrix).

Lemma at_fresh s r c b A i j :
  s !! b = Some (flatten r c A) -> i < r -> j < c ->
  at_ (fresh r c b) s i j = mat_at A i j.
Proof.
  intros Hb Hi Hj. unfold at_, buffer. simpl. rewrite Hb. simpl.
  rewrite nth_flatten by (by apply index_lt).
  by rewrite index_div, index_mod.
Qed.

Lemma read_fresh_raw s r c b A :
  s !! b = Some (flatten r c A) -> read (fresh r c b) s = mat_of r c (mat_at A).
Proof.
  intros Hb. unfold read. simpl.
  apply mat_of_ext. intros i j Hi Hj. by apply at_fresh.
Qed.

Lemma read_fresh s r c b A :
  s !! b = Some (flatten r c A) -> shape r c A -> read (fresh r c b) s = A.
Proof.
  intros Hb HA. rewrite (read_fresh_raw _ _ _ _ _ Hb). by apply mat_of_mat_at.
Qed.

Lemma read_row_fresh s r c b A i :
  s !! b = Some (flatten r c A) -> shape r c A -> i < r ->
  read (row (fresh r c b) i) s = [nth i A []].
Proof.
  intros Hb [Hr Hc] Hi. unfold read, mat_of. simpl. f_equal.
  rewrite <- (vec_of_nth c (nth i A [])).
  - apply map_ext_in. intros j Hj%in_seq.
    unfold at_, buffer. simpl. rewrite Hb. simpl.
    replace (i * c + 0 + j) with (i * c + j) by lia.
    rewrite nth_flatten by (apply index_lt; lia).
    rewrite index_div, index_mod by lia. done.
  - apply (proj1 (Forall_nth (fun row => length row = c) [] A) Hc). lia.
Qed.

Lemma alter_lookup {X} (f : X -> X) (l : list X) b x :
  l !! b = Some x -> alter f b l = <[b := f x]> l.
Proof.
  intros Hb. apply list_eq. intros k. destruct (decide (k = b)) as [->|Hk].
  - rewrite list_lookup_alter_eq, Hb. simpl.
    rewrite list_lookup_insert_eq; [done|]. by eapply lookup_lt_Some.
  - by rewrite list_lookup_alter_ne, list_lookup_insert_ne.
Qed.

Lemma position_fresh r c b k :
  k < r * c -> position (fresh r c b) k = Some (k / c, k mod c).
Proof.
  intros Hk. unfold position. simpl.
  assert (c <> 0) by nia.
  destruct (decide (0 <= k)) as [_|]; [|lia]. rewrite Nat.sub_0_r.
  destruct (decide (k / c < r /\ k mod c < c)) as [_|Hn]; [done|].
  destruct Hn. split.
  - apply Nat.Div0.div_lt_upper_bound. lia.
  - by apply Nat.mod_upper_bound.
Qed.

Lemma write_fresh s r c b A buf :
  s !! b = Some buf -> length buf = r * c ->
  write (fresh r c b) A s = <[b := flatten r c A]> s.
Proof.
  intros Hb Hlen. unfold write. simpl. rewrite (alter_lookup _ _ _ _ Hb). f_equal.
  apply list_eq. intros k. rewrite list_lookup_imap.
  unfold flatten. rewrite list_lookup_fmap.
  destruct (decide (k < r * c)) as [Hk|Hk].
  - rewrite lookup_seq_lt by done.
    destruct (lookup_lt_is_Some_2 buf k) as [x Hx]; [lia|]. rewrite Hx. simpl.
    by rewrite position_fresh.
  - rewrite lookup_seq_ge, lookup_ge_None_2 by lia. done.
Qed.

Lemma position_row r c b i k :
  k < r * c -> i < r ->
  position (row (fresh r c b) i) k =
    if decide (k / c = i) then Some (0, k mod c) else None.
Proof.
  intros Hk Hi. unfold position. simpl.
  assert (c <> 0) as Hc by nia.
  pose proof (Nat.div_mod_eq k c) as Hdm.
  pose proof (Nat.mod_upper_bound k c Hc) as Hm.
  destruct (decide (k / c = i)) as [Hq|Hq].
  - destruct (decide (i * c <= k)) as [_|]; [|nia].
    replace (k - i * c) with (k mod c) by nia.
    rewrite Nat.div_small, Nat.mod_small by done.
    destruct (decide (0 < 1 /\ k mod c < c)) as [_|Hn]; [done|]. destruct Hn. lia.
  - destruct (decide (i * c <= k)) as [Hle|Hle]; [|done].
    destruct (decide _) as [[Hlt _]|]; [|done].
    apply Nat.lt_1_r in Hlt. apply Nat.div_small_iff in Hlt; [|done]. nia.
Qed.

Lemma write_row_fresh s r c b A i v :
  s !! b = Some (flatten r c A) -> length A = r -> i < r ->
  write (row (fresh r c b) i) [v] s = <[b := flatten r c (<[i := v]> A)]> s.
Proof.
  intros Hb HA Hi. unfold write. cbn [data row fresh]. rewrite (alter_lookup _ _ _ _ Hb). f_equal.
  apply list_eq. intros k. rewrite list_lookup_imap.
  unfold flatten. rewrite !list_lookup_fmap.
  destruct (decide (k < r * c)) as [Hk|Hk].
  - rewrite lookup_seq_lt by done. simpl. f_equal.
    rewrite position_row by done. unfold mat_at.
    destruct (decide (k / c = i)) as [<-|Hq].
    + simpl. rewrite (nth_lookup _ (k / c)), list_lookup_insert_eq by lia. done.
    + rewrite !(nth_lookup _ (k / c)), list_lookup_insert_ne by done. done.
  - rewrite lookup_seq_ge by lia. done.
Qed.

End Heap.

(** ** Shapes of the results of the linear algebra *)

Section Shapes.
Implicit Types (u v : vec) (A B : matrix).

Lemma length_vzeros n : length (vzeros n) = n.
Proof. apply length_replicate. Qed.

Lemma length_vadd u v c : length u = c -> length v = c -> length (vadd u v) = c.
Proof. intros Hu Hv. unfold vadd. rewrite length_zip_with. lia. Qed.

Lemma length_vsub u v c : length u = c -> length v = c -> length (vsub u v) = c.
Proof. intros Hu Hv. unfold vsub. rewrite length_zip_with. lia. Qed.

Lemma length_vscale a v : length (vscale a v) = length v.
Proof. apply length_map. Qed.

Lemma shape_row v c : length v = c -> shape 1 c [v].
Proof. intros Hv. split; [done|]. by constructor. Qed.

Lemma shape_mzeros r c : shape r c (mzeros r c).
Proof.
  split; [apply length_replicate|]. apply Forall_replicate, length_vzeros.
Qed.

Lemma shape_zip_with (f : vec -> vec -> vec) r c A B :
  (forall u v, length u = c -> length v = c -> length (f u v) = c) ->
  shape r c A -> shape r c B -> shape r c (zip_with f A B).
Proof.
  intros Hf [HrA HcA] [HrB HcB]. split.
  - rewrite length_zip_with. lia.
  - apply Forall_forall. intros x Hx.
    apply elem_of_lookup_zip_with in Hx as (i & u & v & -> & Hu & Hv).
    apply Hf.
    + by apply (Forall_lookup_1 _ _ _ _ HcA Hu).
    + by apply (Forall_lookup_1 _ _ _ _ HcB Hv).
Qed.

Lemma shape_madd r c A B : shape r c A -> shape r c B -> shape r c (madd A B).
Proof. apply shape_zip_with. intros. by apply length_vadd. Qed.

Lemma shape_msub r c A B : shape r c A -> shape r c B -> shape r c (msub A B).
Proof. apply shape_zip_with. intros. by apply length_vsub. Qed.

Lemma shape_mscale a r c A : shape r c A -> shape r c (mscale a A).
Proof.
  intros [Hr Hc]. split; [by unfold mscale; rewrite length_map|].
  apply Forall_map. eapply Forall_impl; [exact Hc|].
  intros v Hv. simpl. by rewrite length_vscale.
Qed.

Lemma length_vecmat c x B :
  Forall (fun row => length row = c) B -> length (vecmat c x B) = c.
Proof.
  intros HB. unfold vecmat. revert B HB.
  induction x as [|a x IH]; intros B HB; [apply length_vzeros|].
  destruct B as [|b B]; [apply length_vzeros|]. simpl.
  inversion HB; subst. apply length_vadd; [by rewrite length_vscale | by apply IH].
Qed.

Lemma shape_mmul r c A B :
  length A = r -> Forall (fun row => length row = c) B -> shape r c (mmul c A B).
Proof.
  intros HA HB. split; [by unfold mmul; rewrite length_map|].
  apply Forall_map, Forall_forall. intros x _. simpl. by apply length_vecmat.
Qed.

Lemma shape_outer u v : shape (length u) (length v) (outer u v).
Proof.
  split; [by unfold outer; rewrite length_map|].
  apply Forall_map, Forall_forall. intros x _. simpl. apply length_vscale.
Qed.

Lemma length_vsum D l : Forall (fun v => length v = D) l -> length (vsum D l) = D.
Proof.
  unfold vsum. generalize (length_vzeros D). generalize (vzeros D).
  induction l as [|v l IH]; intros acc Hacc Hl; [done|]. simpl.
  apply Forall_cons in Hl as [Hv Hl']. apply IH; [by apply length_vadd | done].
Qed.

Lemma shape_sum_outer D l :
  Forall (fun v => length v = D) l -> shape D D (sum_outer D l).
Proof.
  unfold sum_outer. generalize (shape_mzeros D D). generalize (mzeros D D).
  induction l as [|v l IH]; intros acc Hacc Hl; [done|]. simpl.
  apply Forall_cons in Hl as [Hv Hl']. apply IH; [|done].
  apply shape_madd; [done|]. pose proof (shape_outer v v) as H. by rewrite Hv in H.
Qed.

Lemma length_nth_row r c A i : shape r c A -> i < r -> length (nth i A []) = c.
Proof.
  intros [Hr Hc] Hi.
  apply (proj1 (Forall_nth (fun row => length row = c) [] A) Hc). lia.
Qed.

Lemma Forall_rows_at r c A idx :
  shape r c A -> Forall (fun i => i < r) idx ->
  Forall (fun v => length v = c) (rows_at A idx).
Proof.
  intros HA Hidx. apply Forall_map. eapply Forall_impl; [exact Hidx|].
  intros i Hi. simpl. by eapply length_nth_row.
Qed.

End Shapes.

(** ** Loops over [0 .. n-1] *)

Lemma wp_for_seq {St A} (n : nat) (body : nat -> A -> M St A)
    (I : nat -> A -> St -> Prop) (Q : result A -> St -> Prop) acc s :
  I 0 acc s ->
  (forall k acc s, k < n -> I k acc s ->
     wp (body k acc) (fun r s' =>
       match r with
       | Ok acc' => I (S k) acc' s'
       | Throw e => Q (Throw e) s'
       end) s) ->
  (forall acc s, I n acc s -> Q (Ok acc) s) ->
  wp (for_ (seq 0 n) body acc) Q s.
Proof.
  intros H0 Hbody Hend.
  assert (forall m k acc s, k + m = n -> I k acc s ->
            wp (for_ (seq k m) body acc) Q s) as Hgen.
  { induction m as [|m IH]; intros k acc' s' Hk HI; simpl.
    - apply wp_ret, Hend. by replace n with k by lia.
    - apply wp_bind. eapply wp_mono; [apply Hbody; [lia | exact HI]|].
      intros [acc''|e] s''; [|done]. apply IH. lia. }
  by apply Hgen.
Qed.

Lemma nth_map_seq {X} (f : nat -> X) n i d : i < n -> nth i (map f (seq 0 n)) d = f i.
Proof.
  intros Hi. rewrite nth_lookup, list_lookup_fmap, lookup_seq_lt by done. done.
Qed.

Lemma insert_map_seq {X} (f g : nat -> X) n i :
  (forall j, j <> i -> f j = g j) ->
  <[i := g i]> (map f (seq 0 n)) = map g (seq 0 n).
Proof.
  intros Hfg. apply list_eq. intros j.
  destruct (decide (i = j)) as [<-|Hij].
  - destruct (decide (i < n)) as [Hi|Hi].
    + rewrite list_lookup_insert_eq by (by rewrite length_map, length_seq).
      rewrite list_lookup_fmap, lookup_seq_lt by done. done.
    + rewrite list_insert_ge by (rewrite length_map, length_seq; lia).
      rewrite !list_lookup_fmap, lookup_seq_ge by lia. done.
  - rewrite list_lookup_insert_ne by done. rewrite !list_lookup_fmap.
    destruct (seq 0 n !! j) as [j'|] eqn:Hj; [|done]. simpl.
    apply lookup_seq in Hj as [-> _]. simpl. f_equal. apply Hfg. lia.
Qed.

(** ** Facts about buffers *)

Section Holds.
Implicit Types (s e : store) (A : matrix).

Lemma holds_lt s b r c A : holds s b r c A -> b < length s.
Proof. intros [Hb _]. by eapply lookup_lt_Some. Qed.

Lemma holds_app s e b r c A : holds s b r c A -> holds (s ++ e) b r c A.
Proof. intros [Hb HA]. split; [|done]. by apply lookup_app_l_Some. Qed.

Lemma holds_alloc s r c A : shape r c A -> holds (s ++ [flatten r c A]) (length s) r c A.
Proof. intros HA. split; [|done]. by rewrite list_lookup_middle. Qed.

Lemma holds_insert s b r c A (x : list Qc) :
  b < length s -> shape r c A -> holds (<[b := flatten r c A]> s) b r c A.
Proof. intros Hb HA. split; [|done]. by apply list_lookup_insert_eq. Qed.

Lemma holds_insert_ne s b b' (x : list Qc) r c A :
  b <> b' -> holds s b r c A -> holds (<[b' := x]> s) b r c A.
Proof. intros Hne [Hb HA]. split; [|done]. by rewrite list_lookup_insert_ne. Qed.

Lemma holds_same s s' b r c A : s' !! b = s !! b -> holds s b r c A -> holds s' b r c A.
Proof. intros Heq [Hb HA]. split; [|done]. by rewrite Heq. Qed.

Lemma holds_read s b r c A : holds s b r c A -> read (fresh r c b) s = A.
Proof. intros [Hb HA]. by apply read_fresh. Qed.

Lemma holds_read_row s b r c A i :
  holds s b r c A -> i < r -> read (row (fresh r c b) i) s = [nth i A []].
Proof. intros [Hb HA] Hi. by apply read_row_fresh. Qed.

(** Writing through an output argument. *)
Lemma wp_output_fresh s b r c A A0 (Q : result Mat -> store -> Prop) :
  holds s b r c A0 ->
  Q (Ok (fresh r c b)) (<[b := flatten r c A]> s) ->
  wp (output (fresh r c b) r c A) Q s.
Proof.
  intros [Hb _] HQ. apply wp_output_fits; [apply fits_fresh|].
  erewrite write_fresh; [done | exact Hb | apply length_flatten].
Qed.

Lemma wp_output_row s b r c X i v (Q : result Mat -> store -> Prop) :
  holds s b r c X -> i < r ->
  Q (Ok (row (fresh r c b) i)) (<[b := flatten r c (<[i := v]> X)]> s) ->
  wp (output (row (fresh r c b) i) 1 c [v]) Q s.
Proof.
  intros [Hb [Hr _]] Hi HQ. apply wp_output_fits.
  - unfold fits. apply bool_decide_eq_true. simpl. eauto.
  - by rewrite (write_row_fresh s r c b X i v).
Qed.

Lemma wp_output_empty s r c A (Q : result Mat -> store -> Prop) :
  Q (Ok (fresh r c (length s))) (s ++ [flatten r c A]) ->
  wp (output empty r c A) Q s.
Proof. apply wp_output_alloc, fits_empty. Qed.

Lemma same_size_true a b : rows a = rows b -> cols a = cols b -> same_size a b = true.
Proof. intros. by apply bool_decide_eq_true. Qed.

End Holds.

(** ** The scatter phases, run on a continuous data matrix *)

Lemma members_S mapped c k :
  members mapped c (S k) =
    members mapped c k ++ (if decide (nth k mapped 0 = c) then [k] else []).
Proof.
  unfold members. rewrite seq_S, filter_app. simpl. by f_equal.
Qed.

Lemma members_lt mapped c k : Forall (fun i => i < k) (members mapped c k).
Proof.
  apply Forall_forall. intros i Hi. unfold members in Hi.
  apply list_elem_of_filter in Hi as [_ Hi]. apply elem_of_seq in Hi. lia.
Qed.

Lemma vsum_snoc D l v : vsum D (l ++ [v]) = vadd (vsum D l) v.
Proof. unfold vsum. by rewrite foldl_app. Qed.

Lemma rows_at_snoc X idx i : rows_at X (idx ++ [i]) = rows_at X idx ++ [nth i X []].
Proof. unfold rows_at. by rewrite map_app. Qed.

Lemma Forall_seq_lt k : Forall (fun i => i < k) (seq 0 k).
Proof. apply Forall_forall. intros i Hi%elem_of_seq. lia. Qed.

Section Sums.
Variables (s : store) (b N D C : nat) (X : matrix) (mapped : list nat).
Hypothesis Hdata : holds s b N D X.
Hypothesis Hmapped : forall i, i < N -> nth i mapped 0 < C.

Lemma length_vsum_rows idx k :
  k <= N -> Forall (fun i => i < k) idx -> length (vsum D (rows_at X idx)) = D.
Proof using Hdata.
  intros Hk Hidx. apply length_vsum. eapply Forall_rows_at; [apply Hdata|].
  eapply Forall_impl; [exact Hidx|]. simpl. lia.
Qed.

Lemma sums_run (Q : result (Mat * list Mat * list nat) -> store -> Prop) :
  (forall s',
     length s' = length s + 1 + C ->
     (forall b', b' < length s -> s' !! b' = s !! b') ->
     stats_at s' (length s) D C (vsum D (rows_at X (seq 0 N)))
       (fun c => vsum D (rows_at X (members mapped c N))) ->
     Q (Ok (fresh 1 D (length s), class_headers (length s) D C,
            map (fun c => length (members mapped c N)) (seq 0 C))) s') ->
  wp (LDA.sums (fresh N D b) mapped N D C) Q s.
Proof using Hdata Hmapped.
  intros HQ. unfold LDA.sums.
  set (z := flatten 1 D (mzeros 1 D)).
  apply wp_bind, wp_alloc. fold z.
  (* initialize *)
  apply wp_bind.
  apply wp_for_seq with (I := fun k '(mc, nc) s' =>
    mc = map (fun c => fresh 1 D (length s + 1 + c)) (seq 0 k) ++ replicate (C - k) empty /\
    nc = replicate C 0 /\
    s' = (s ++ [z]) ++ replicate k z).
  { rewrite Nat.sub_0_r, app_nil_r. done. }
  { intros k [mc nc] s' Hk (-> & -> & ->).
    apply wp_bind, wp_alloc. apply wp_ret. repeat split.
    - rewrite !length_app, length_replicate. cbn [length].
      rewrite seq_S, map_app, <- app_assoc. cbn [map app].
      replace (C - k) with (S (C - S k)) by lia. cbn [replicate].
      rewrite insert_app_r_alt by (rewrite length_map, length_seq; lia).
      rewrite length_map, length_seq, Nat.sub_diag. done.
    - apply list_insert_id. by apply lookup_replicate_2.
    - fold z. rewrite <- app_assoc. f_equal.
      change [z] with (replicate 1 z). by rewrite <- replicate_add, Nat.add_1_r. }
  intros [mc nc] s1 (-> & -> & ->).
  rewrite Nat.sub_diag, app_nil_r. fold (class_headers (length s) D C).
  assert (Hz : shape 1 D (mzeros 1 D)) by apply shape_mzeros.
  (* calculate sums *)
  apply wp_for_seq with (I := fun k '(mt, mc, nc) s' =>
    mt = fresh 1 D (length s) /\
    mc = class_headers (length s) D C /\
    nc = map (fun c => length (members mapped c k)) (seq 0 C) /\
    length s' = length s + 1 + C /\
    (forall b', b' < length s -> s' !! b' = s !! b') /\
    stats_at s' (length s) D C (vsum D (rows_at X (seq 0 k)))
      (fun c => vsum D (rows_at X (members mapped c k)))).
  { split_and!; [done | done | | | |].
    - apply list_eq. intros i. rewrite list_lookup_fmap.
      destruct (decide (i < C)) as [Hi|Hi].
      + rewrite lookup_replicate_2, lookup_seq_lt by done. done.
      + rewrite lookup_seq_ge by lia. apply lookup_replicate_None. lia.
    - rewrite !length_app, length_replicate. simpl. lia.
    - intros b' Hb'. rewrite <- app_assoc. by apply lookup_app_l.
    - split; [split; [|done] | intros c Hc; split; [|done]].
      + rewrite <- app_assoc, lookup_app_r by lia. by rewrite Nat.sub_diag.
      + rewrite lookup_app_r by (rewrite length_app; simpl; lia).
        rewrite length_app. simpl. apply lookup_replicate_2. lia. }
  2:{ intros [[mt mc] nc] s' (-> & -> & -> & Hlen & Hold & Hst). by apply HQ. }
  intros k [[mt mc] nc] s' Hk (-> & -> & -> & Hlen & Hold & [HT HSc]).
  assert (holds s' b N D X) as Hd.
  { eapply holds_same; [|exact Hdata]. apply Hold. by eapply holds_lt. }
  pose proof (holds_lt _ _ _ _ _ Hdata) as Hb.
  pose proof (Hmapped k Hk) as Hc0. set (c0 := nth k mapped 0) in *.
  assert (length (nth k X []) = D) as HXk by (by eapply length_nth_row; [apply Hdata|]).
  (* add(meanTotal, instance, meanTotal) *)
  apply wp_bind. unfold add at 1. rewrite same_size_true by done.
  simpl (rows _); simpl (cols _).
  apply wp_bind, wp_gets. apply wp_bind, wp_gets.
  rewrite (holds_read _ _ _ _ _ HT), (holds_read_row _ _ _ _ _ _ Hd Hk).
  eapply wp_output_fresh; [exact HT|]. simpl (madd _ _).
  set (s1 := <[length s := _]> s').
  assert (holds s1 b N D X) as Hd1 by (apply holds_insert_ne; [lia | done]).
  assert (holds s1 (length s + 1 + c0) 1 D [vsum D (rows_at X (members mapped c0 k))]) as HS1.
  { apply holds_insert_ne; [lia|]. by apply HSc. }
  (* add(meanClass[classIdx], instance, meanClass[classIdx]) *)
  unfold class_headers at 1 2. rewrite !nth_map_seq by done.
  apply wp_bind. unfold add at 1. rewrite same_size_true by done.
  simpl (rows _); simpl (cols _).
  apply wp_bind, wp_gets. apply wp_bind, wp_gets.
  rewrite (holds_read _ _ _ _ _ HS1), (holds_read_row _ _ _ _ _ _ Hd1 Hk).
  eapply wp_output_fresh; [exact HS1|]. simpl (madd _ _).
  apply wp_ret. split_and!; [done | | | | |].
  - unfold class_headers.
    by apply (insert_map_seq (fun c => fresh 1 D (length s + 1 + c))
                (fun c => fresh 1 D (length s + 1 + c))).
  - replace (S (length (members mapped c0 k)))
      with (length (members mapped c0 (S k))).
    + apply (insert_map_seq _ (fun c => length (members mapped c (S k)))).
      intros j Hj. rewrite members_S. fold c0. rewrite decide_False by done.
      by rewrite app_nil_r.
    + rewrite members_S. fold c0. rewrite decide_True by done.
      rewrite length_app. simpl. lia.
  - unfold s1. by rewrite !length_insert.
  - intros b' Hb'. unfold s1. rewrite !list_lookup_insert_ne by lia. by apply Hold.
  - split; [split | intros c Hc; split].
    + rewrite list_lookup_insert_ne by lia. unfold s1.
      rewrite list_lookup_insert_eq by lia.
      by rewrite seq_S, rows_at_snoc, vsum_snoc.
    + apply shape_row, (length_vsum_rows _ (S k)); [lia | apply Forall_seq_lt].
    + destruct (decide (c = c0)) as [->|Hc'].
      * rewrite list_lookup_insert_eq by (unfold s1; rewrite length_insert; lia).
        rewrite members_S. fold c0. rewrite decide_True by done.
        by rewrite rows_at_snoc, vsum_snoc.
      * rewrite list_lookup_insert_ne by lia. unfold s1.
        rewrite list_lookup_insert_ne by lia.
        rewrite members_S. fold c0. rewrite decide_False by done.
        rewrite app_nil_r. by apply HSc.
    + apply shape_row, (length_vsum_rows _ (S k)); [lia | apply members_lt].
Qed.

End Sums.

Lemma rows_seq N (X : matrix) : length X = N -> map (fun i => nth i X []) (seq 0 N) = X.
Proof.
  intros <-. apply list_eq. intros i. rewrite list_lookup_fmap.
  destruct (decide (i < length X)) as [Hi|Hi].
  - rewrite lookup_seq_lt by done. simpl.
    destruct (lookup_lt_is_Some_2 X i Hi) as [x Hx]. rewrite Hx.
    f_equal. by apply nth_lookup_Some.
  - rewrite lookup_seq_ge, lookup_ge_None_2 by lia. done.
Qed.

Lemma shape_map_seq N D (f : nat -> vec) :
  (forall i, i < N -> length (f i) = D) -> shape N D (map f (seq 0 N)).
Proof.
  intros Hf. split; [by rewrite length_map, length_seq|].
  apply Forall_map, Forall_forall. intros i Hi%elem_of_seq. apply Hf. lia.
Qed.

Lemma wp_reciprocal {S B : Type} (n : nat) (k : Qc -> M S B) Q (st : S) :
  0 < n -> wp (k (rho n)) Q st -> wp (let* alpha := reciprocal n in k alpha) Q st.
Proof.
  intros Hn Hk. destruct (reciprocal_is_finite n Hn) as [r Hr].
  unfold wp, bind, reciprocal, rho in *. rewrite Hr in *. exact Hk.
Qed.

Section Means.
Variables (s : store) (n N D C : nat) (T : vec) (Sc : nat -> vec) (nc : list nat).
Hypothesis Hstats : stats_at s n D C T Sc.
Hypothesis HN : 0 < N.
Hypothesis Hnc : forall c, c < C -> 0 < nth c nc 0.

Lemma means_run (Q : result (Mat * list Mat) -> store -> Prop) :
  (forall s',
     length s' = length s ->
     (forall b', b' < n -> s' !! b' = s !! b') ->
     (forall b', n + 1 + C <= b' -> s' !! b' = s !! b') ->
     stats_at s' n D C (vscale (rho N) T)
       (fun c => vscale (rho (nth c nc 0)) (Sc c)) ->
     Q (Ok (fresh 1 D n, class_headers n D C)) s') ->
  wp (LDA.means (fresh 1 D n) (class_headers n D C) nc N C) Q s.
Proof using Hstats HN Hnc.
  intros HQ. destruct Hstats as [HT HSc]. unfold LDA.means.
  assert (length T = D) as HlT.
  { destruct HT as [_ [_ H]]. by apply Forall_inv in H. }
  apply wp_reciprocal; [done|].
  apply wp_bind. unfold convertTo at 1. apply wp_bind, wp_gets.
  rewrite (holds_read _ _ _ _ _ HT). simpl (rows _); simpl (cols _).
  eapply wp_output_fresh; [exact HT|]. simpl (mscale _ _).
  set (s1 := <[n := _]> s).
  apply wp_bind.
  apply wp_for_seq with (I := fun k mc s' =>
    mc = class_headers n D C /\
    length s' = length s /\
    (forall b', b' < n -> s' !! b' = s !! b') /\
    (forall b', n + 1 + C <= b' -> s' !! b' = s !! b') /\
    stats_at s' n D C (vscale (rho N) T)
      (fun c => if decide (c < k)
                then vscale (rho (nth c nc 0)) (Sc c) else Sc c)).
  { split_and!; [done | | | |].
    - unfold s1. by rewrite length_insert.
    - intros b' Hb'. unfold s1. by rewrite list_lookup_insert_ne by lia.
    - intros b' Hb'. unfold s1. by rewrite list_lookup_insert_ne by lia.
    - split.
      + apply holds_insert; [exact [] | by eapply holds_lt |].
        apply shape_row. by rewrite length_vscale.
      + intros c Hc. rewrite decide_False by lia.
        apply holds_insert_ne; [lia | by apply HSc]. }
  2:{ intros mc s' (-> & Hlen & Hlo & Hhi & [HT' HSc']). apply wp_ret, HQ; try done.
      split; [done|]. intros c Hc. specialize (HSc' c Hc).
      by rewrite decide_True in HSc' by done. }
  intros k mc s' Hk (-> & Hlen & Hlo & Hhi & [HT' HSc']).
  unfold class_headers at 1 2. rewrite !nth_map_seq by done.
  pose proof (HSc' k Hk) as Hck. rewrite decide_False in Hck by lia.
  assert (length (Sc k) = D) as Hlk.
  { destruct Hck as [_ [_ H]]. by apply Forall_inv in H. }
  apply wp_reciprocal; [by apply Hnc|].
  apply wp_bind. unfold convertTo at 1. apply wp_bind, wp_gets.
  rewrite (holds_read _ _ _ _ _ Hck). simpl (rows _); simpl (cols _).
  eapply wp_output_fresh; [exact Hck|]. simpl (mscale _ _).
  apply wp_ret. split_and!.
  - unfold class_headers.
    by apply (insert_map_seq (fun c => fresh 1 D (n + 1 + c))
                (fun c => fresh 1 D (n + 1 + c))).
  - by rewrite length_insert.
  - intros b' Hb'. rewrite list_lookup_insert_ne by lia. by apply Hlo.
  - intros b' Hb'. rewrite list_lookup_insert_ne by lia. by apply Hhi.
  - split.
    + apply holds_insert_ne; [lia | done].
    + intros c Hc. destruct (decide (c = k)) as [->|Hne].
      * rewrite decide_True by lia.
        apply holds_insert; [exact [] | by eapply holds_lt |].
        apply shape_row. by rewrite length_vscale.
      * apply holds_insert_ne; [lia|].
        specialize (HSc' c Hc).
        destruct (decide (c < k)), (decide (c < S k)); try lia; done.
Qed.

End Means.

Section Center.
Variables (s : store) (b n N D C : nat) (X : matrix) (mapped : list nat) (Mc : nat -> vec).
Hypothesis Hdata : holds s b N D X.
Hypothesis Hmapped : forall i, i < N -> nth i mapped 0 < C.
Hypothesis Hmeans : forall c, c < C -> holds s (n + 1 + c) 1 D [Mc c].
Hypothesis Hb : b < n.

Lemma center_run (Q : result unit -> store -> Prop) :
  (forall s',
     length s' = length s ->
     (forall b', b' <> b -> s' !! b' = s !! b') ->
     holds s' b N D (map (fun i => vsub (nth i X []) (Mc (nth i mapped 0))) (seq 0 N)) ->
     Q (Ok tt) s') ->
  wp (LDA.center (fresh N D b) mapped (class_headers n D C) N) Q s.
Proof using Hdata Hmapped Hmeans Hb.
  intros HQ. unfold LDA.center.
  assert (forall c, c < C -> length (Mc c) = D) as HlM.
  { intros c Hc. destruct (Hmeans c Hc) as [_ [_ H]]. by apply Forall_inv in H. }
  assert (forall i, i < N -> length (nth i X []) = D) as HlX.
  { intros i Hi. by eapply length_nth_row; [apply Hdata|]. }
  apply wp_for_seq with (I := fun k (_ : unit) s' =>
    length s' = length s /\
    (forall b', b' <> b -> s' !! b' = s !! b') /\
    holds s' b N D
      (map (fun i => if decide (i < k)
                     then vsub (nth i X []) (Mc (nth i mapped 0))
                     else nth i X []) (seq 0 N))).
  { split_and!; [done | done |].
    rewrite (map_ext _ (fun i => nth i X [])); [|done].
    rewrite rows_seq; [done | apply Hdata]. }
  2:{ intros [] s' (Hlen & Hfr & Hd). apply HQ; [done..|].
      rewrite (map_ext_in _ (fun i => if decide (i < N)
                     then vsub (nth i X []) (Mc (nth i mapped 0))
                     else nth i X [])); [done|].
      intros i Hi%in_seq. by rewrite decide_True by lia. }
  intros k [] s' Hk (Hlen & Hfr & Hd).
  pose proof (Hmapped k Hk) as Hc0. set (c0 := nth k mapped 0) in *.
  unfold class_headers. rewrite nth_map_seq by done.
  assert (holds s' (n + 1 + c0) 1 D [Mc c0]) as Hm.
  { eapply holds_same; [|by apply Hmeans]. apply Hfr. lia. }
  apply wp_bind. unfold subtract at 1. rewrite same_size_true by done.
  simpl (rows _); simpl (cols _).
  apply wp_bind, wp_gets. apply wp_bind, wp_gets.
  rewrite (holds_read _ _ _ _ _ Hm), (holds_read_row _ _ _ _ _ _ Hd Hk).
  rewrite nth_map_seq by done. rewrite decide_False by lia.
  simpl (msub _ _).
  eapply wp_output_row; [exact Hd | done |].
  apply wp_ret. split_and!.
  - by rewrite length_insert.
  - intros b' Hb'. rewrite list_lookup_insert_ne by done. by apply Hfr.
  - set (g := fun i => if decide (i < S k)
                       then vsub (nth i X []) (Mc (nth i mapped 0))
                       else nth i X []).
    replace (vsub (nth k X []) (Mc c0)) with (g k)
      by (unfold g; by rewrite decide_True by lia).
    rewrite (insert_map_seq _ g).
    + apply holds_insert; [exact [] | by eapply holds_lt |].
      apply shape_map_seq. intros i Hi. unfold g. case_decide; [|by apply HlX].
      apply length_vsub; [by apply HlX | by apply HlM, Hmapped].
    + intros j Hj. unfold g.
      destruct (decide (j < k)), (decide (j < S k)); try lia; done.
Qed.

End Center.

(** ** Outer products *)

Section Algebra.
Implicit Types (u v : vec) (A B : matrix).

Lemma vadd_comm u v : vadd u v = vadd v u.
Proof.
  unfold vadd. revert v. induction u as [|x u IH]; intros [|y v]; simpl; try done.
  by rewrite Qcplus_comm, IH.
Qed.

Lemma vadd_assoc u v w : vadd u (vadd v w) = vadd (vadd u v) w.
Proof.
  unfold vadd. revert v w.
  induction u as [|x u IH]; intros [|y v] [|z w]; simpl; try done.
  by rewrite Qcplus_assoc, IH.
Qed.

Lemma madd_comm A B : madd A B = madd B A.
Proof.
  unfold madd. revert B. induction A as [|x A IH]; intros [|y B]; simpl; try done.
  by rewrite vadd_comm, IH.
Qed.

Lemma madd_assoc A B C : madd A (madd B C) = madd (madd A B) C.
Proof.
  unfold madd. revert B C.
  induction A as [|x A IH]; intros [|y B] [|z C]; simpl; try done.
  by rewrite vadd_assoc, IH.
Qed.

Lemma vadd_zeros_r v c : length v = c -> vadd v (vzeros c) = v.
Proof.
  intros <-. unfold vadd, vzeros. induction v as [|x v IH]; simpl; [done|].
  by rewrite Qcplus_0_r, IH.
Qed.

Lemma foldr_madd_shift (l : list matrix) A B :
  foldr madd (madd A B) l = madd B (foldr madd A l).
Proof.
  induction l as [|x l IH]; simpl; [apply madd_comm|].
  rewrite IH, !madd_assoc. f_equal. apply madd_comm.
Qed.

Lemma foldl_madd_foldr (l : list matrix) A : foldl madd A l = foldr madd A l.
Proof.
  revert A. induction l as [|x l IH]; intros A; simpl; [done|].
  by rewrite IH, foldr_madd_shift.
Qed.

Lemma outer_nth u v c :
  length u = c -> outer u v = map (fun j => vscale (nth j u 0%Qc) v) (seq 0 c).
Proof.
  intros Hu. unfold outer. rewrite <- (vec_of_nth c u) at 1 by done.
  by rewrite map_map.
Qed.

(** [d^T * d] for a single row [d], as [mulTransposed] computes it. *)
Lemma mulTransposed_row d c :
  length d = c -> mmul c (mtranspose 1 c [d]) [d] = outer d d.
Proof.
  intros Hd. rewrite (outer_nth d d c Hd).
  unfold mmul, mtranspose, mat_of. rewrite map_map.
  apply map_ext. intros j. simpl. unfold mat_at. simpl.
  apply vadd_zeros_r. by rewrite length_vscale.
Qed.

(** [A^T * A] is the sum of the outer products of the rows of [A]. *)
Lemma mulTransposed_sum_outer r c A :
  shape r c A -> mmul c (mtranspose r c A) A = sum_outer c A.
Proof.
  unfold sum_outer. rewrite foldl_madd_foldr.
  revert r. induction A as [|a A IH]; intros r [Hr Hc].
  - simpl in Hr. subst r. simpl. unfold mmul, mtranspose, mat_of, mzeros. simpl.
    rewrite map_map. simpl.
    apply list_eq. intros j. rewrite list_lookup_fmap.
    destruct (decide (j < c)) as [Hj|Hj].
    + by rewrite lookup_seq_lt, lookup_replicate_2.
    + rewrite lookup_seq_ge by lia. symmetry. apply lookup_replicate_None. lia.
  - simpl in Hr. destruct r as [|r]; [done|]. injection Hr as Hr.
    apply Forall_cons in Hc as [Ha Hc]. simpl.
    rewrite <- (IH r) by done.
    rewrite (outer_nth a a c Ha).
    unfold mmul, mtranspose, mat_of, madd. rewrite !map_map.
    rewrite zip_with_fmap_l, zip_with_fmap_r, zip_with_diag.
    apply map_ext. intros j.
    rewrite <- cons_seq, <- fmap_S_seq. simpl. rewrite map_map. done.
Qed.

Lemma sum_outer_snoc D l v : sum_outer D (l ++ [v]) = madd (sum_outer D l) (outer v v).
Proof. unfold sum_outer. by rewrite map_app, foldl_app. Qed.

End Algebra.

Lemma wp_output_any s b0 r0 c0 A0 r c A (Q : result Mat -> store -> Prop) :
  holds s b0 r0 c0 A0 -> shape r c A ->
  (forall bt s',
     holds s' bt r c A ->
     length s <= length s' ->
     (forall b', b' < length s -> b' <> b0 -> s' !! b' = s !! b') ->
     Q (Ok (fresh r c bt)) s') ->
  wp (output (fresh r0 c0 b0) r c A) Q s.
Proof.
  intros H0 HA HQ. unfold output. destruct (fits _ r c) eqn:Hfits.
  - apply bool_decide_eq_true in Hfits as (Hr & Hc & _). simpl in Hr, Hc. subst r0 c0.
    unfold wp. simpl.
    erewrite write_fresh; [|apply H0|apply length_flatten].
    apply HQ.
    + apply holds_insert; [exact [] | by eapply holds_lt | done].
    + by rewrite length_insert.
    + intros b' _ Hne. by rewrite list_lookup_insert_ne.
  - apply wp_alloc, HQ.
    + by apply holds_alloc.
    + rewrite length_app. lia.
    + intros b' Hb' _. by apply lookup_app_l.
Qed.

Lemma within_scatter_run s b N D R (Q : result Mat -> store -> Prop) :
  holds s b N D R ->
  Q (Ok (fresh D D (length s)))
    (s ++ [flatten D D (mmul D (mtranspose N D R) R)]) ->
  wp (LDA.within_scatter (fresh N D b) D) Q s.
Proof.
  intros Hd HQ. unfold LDA.within_scatter.
  apply wp_bind, wp_alloc.
  unfold mulTransposed. apply wp_bind, wp_gets.
  rewrite (holds_read _ _ _ _ _ (holds_app _ _ _ _ _ _ Hd)).
  simpl (rows _); simpl (cols _).
  eapply wp_output_fresh; [apply holds_alloc, shape_mzeros|].
  rewrite insert_app_r_alt by done. by rewrite Nat.sub_diag.
Qed.

Section Between.
Variables (s : store) (n D C : nat) (Tm : vec) (Mc : nat -> vec).
Hypothesis Hstats : stats_at s n D C Tm Mc.
Hypothesis Hn : n + 1 + C <= length s.

Lemma between_scatter_run (Q : result Mat -> store -> Prop) :
  (forall s',
     holds s' (length s) D D (sum_outer D (map (fun c => vsub (Mc c) Tm) (seq 0 C))) ->
     (forall b', b' < length s -> s' !! b' = s !! b') ->
     Q (Ok (fresh D D (length s))) s') ->
  wp (LDA.between_scatter (fresh 1 D n) (class_headers n D C) D C) Q s.
Proof using Hstats Hn.
  intros HQ. destruct Hstats as [HT HM]. unfold LDA.between_scatter.
  assert (length Tm = D) as HlT.
  { destruct HT as [_ [_ H]]. by apply Forall_inv in H. }
  assert (forall c, c < C -> length (Mc c) = D) as HlM.
  { intros c Hc. destruct (HM c Hc) as [_ [_ H]]. by apply Forall_inv in H. }
  apply wp_bind, wp_alloc.
  apply wp_for_seq with (I := fun k Sb s' =>
    Sb = fresh D D (length s) /\
    holds s' (length s) D D (sum_outer D (map (fun c => vsub (Mc c) Tm) (seq 0 k))) /\
    (forall b', b' < length s -> s' !! b' = s !! b')).
  { split_and!; [done | |].
    - apply holds_alloc, shape_mzeros.
    - intros b' Hb'. by apply lookup_app_l. }
  2:{ intros Sb s' (-> & HSb & Hfr). by apply HQ. }
  intros k Sb s' Hk (-> & HSb & Hfr).
  pose proof (holds_lt _ _ _ _ _ HSb) as Hlen.
  set (d := vsub (Mc k) Tm).
  assert (length d = D) as Hld by (apply length_vsub; [by apply HlM | done]).
  assert (holds s' n 1 D [Tm]) as HT'.
  { eapply holds_same; [|exact HT]. apply Hfr. lia. }
  assert (holds s' (n + 1 + k) 1 D [Mc k]) as HM'.
  { eapply holds_same; [|by apply HM]. apply Hfr. lia. }
  (* subtract(meanClass[i], meanTotal, tmp) *)
  unfold class_headers. rewrite nth_map_seq by done.
  apply wp_bind. unfold subtract at 1. rewrite same_size_true by done.
  simpl (rows _); simpl (cols _).
  apply wp_bind, wp_gets. apply wp_bind, wp_gets.
  rewrite (holds_read _ _ _ _ _ HT'), (holds_read _ _ _ _ _ HM').
  simpl (msub _ _). fold d.
  apply wp_output_empty.
  assert (holds (s' ++ [flatten 1 D [d]]) (length s') 1 D [d]) as Htmp
    by (by apply holds_alloc, shape_row).
  (* mulTransposed(tmp, tmp, true) *)
  apply wp_bind. unfold mulTransposed at 1. apply wp_bind, wp_gets.
  rewrite (holds_read _ _ _ _ _ Htmp). simpl (rows _); simpl (cols _).
  rewrite (mulTransposed_row d D Hld).
  assert (shape D D (outer d d)) as HO.
  { pose proof (shape_outer d d) as H. by rewrite Hld in H. }
  eapply wp_output_any; [exact Htmp | exact HO |].
  intros bt s2 Hbt Hlen2 Hfr2.
  rewrite length_app in Hlen2, Hfr2. simpl in Hlen2, Hfr2.
  assert (holds s2 (length s) D D
            (sum_outer D (map (fun c => vsub (Mc c) Tm) (seq 0 k)))) as HSb2.
  { eapply holds_same; [|by apply holds_app, HSb]. apply Hfr2; lia. }
  (* add(Sb, tmp, Sb) *)
  unfold add. rewrite same_size_true by done. simpl (rows _); simpl (cols _).
  apply wp_bind, wp_gets. apply wp_bind, wp_gets.
  rewrite (holds_read _ _ _ _ _ HSb2), (holds_read _ _ _ _ _ Hbt).
  eapply wp_output_fresh; [exact HSb2|].
  split_and!; [done | |].
  - rewrite seq_S, map_app. simpl (map _ [_]). rewrite sum_outer_snoc. fold d.
    apply holds_insert; [exact [] | by eapply holds_lt |].
    apply shape_madd; [apply HSb2 | done].
  - intros b' Hb'. rewrite list_lookup_insert_ne by lia.
    rewrite Hfr2 by lia. rewrite lookup_app_l by lia. by apply Hfr.
Qed.

End Between.

Section Scatter.
Variables (s : store) (b N D C : nat) (X : matrix) (mapped : list nat).
Hypothesis Hdata : holds s b N D X.
Hypothesis Hmapped : forall i, i < N -> nth i mapped 0 < C.
Hypothesis HN : 0 < N.
Hypothesis Hinhabited : forall c, c < C -> 0 < length (members mapped c N).

Lemma shape_centered : shape N D (centered X mapped N D).
Proof using Hdata Hmapped.
  apply shape_map_seq. intros i Hi. apply length_vsub.
  - by eapply length_nth_row; [apply Hdata|].
  - unfold class_mean. rewrite length_vscale.
    apply (length_vsum_rows s b N D X Hdata _ N); [done | apply members_lt].
Qed.

(** Lines 102-140 on a continuous [N]-by-[D] matrix [X] in buffer [b]:
    the buffer ends up holding the class-centred rows, and two new
    buffers hold [Sw] and [Sb]. *)
Lemma scatter_run (Q : result (Mat * Mat) -> store -> Prop) :
  (forall s' nSw nSb,
     holds s' b N D (centered X mapped N D) ->
     holds s' nSw D D
       (mmul D (mtranspose N D (centered X mapped N D)) (centered X mapped N D)) ->
     holds s' nSb D D (Sb_of X mapped N D C) ->
     (forall b', b' < length s -> b' <> b -> s' !! b' = s !! b') ->
     Q (Ok (fresh D D nSw, fresh D D nSb)) s') ->
  wp (LDA.scatter (fresh N D b) mapped N D C) Q s.
Proof using Hdata Hmapped HN Hinhabited.
  intros HQ. unfold LDA.scatter.
  pose proof (holds_lt _ _ _ _ _ Hdata) as Hb.
  apply wp_bind, (sums_run s b N D C X mapped Hdata Hmapped).
  intros s1 Hlen1 Hfr1 Hst1.
  apply wp_bind, (means_run s1 (length s) N D C _ _ _ Hst1 HN).
  { intros c Hc. rewrite nth_map_seq by done. by apply Hinhabited. }
  intros s2 Hlen2 Hlo2 Hhi2 Hst2.
  assert (stats_at s2 (length s) D C (total_mean X N D) (class_mean X mapped N D)) as Hst.
  { destruct Hst2 as [HT HM]. split; [done|]. intros c Hc.
    specialize (HM c Hc). by rewrite nth_map_seq in HM by done. }
  clear Hst2. destruct Hst as [HT HM].
  assert (holds s2 b N D X) as Hd2.
  { eapply holds_same; [|exact Hdata]. rewrite Hlo2 by done. by apply Hfr1. }
  apply wp_bind, (center_run s2 b (length s) N D C X mapped _ Hd2 Hmapped HM Hb).
  intros s3 Hlen3 Hfr3 Hd3. fold (centered X mapped N D) in Hd3.
  apply wp_bind, (within_scatter_run s3 b N D _ _ Hd3).
  set (Sw := mmul D _ _).
  assert (stats_at (s3 ++ [flatten D D Sw]) (length s) D C
            (total_mean X N D) (class_mean X mapped N D)) as Hst3.
  { split; [|intros c Hc]; apply holds_app.
    - eapply holds_same; [|exact HT]. apply Hfr3. lia.
    - eapply holds_same; [|by apply HM]. apply Hfr3. lia. }
  assert (length s + 1 + C <= length (s3 ++ [flatten D D Sw])) as Hn.
  { rewrite length_app. simpl. lia. }
  apply wp_bind, (between_scatter_run _ _ D C _ _ Hst3 Hn).
  intros s4 HSb Hfr4. apply wp_ret.
  apply (HQ s4 (length s3) (length (s3 ++ [flatten D D Sw]))).
  - eapply holds_same; [|by apply holds_app, Hd3].
    apply Hfr4. rewrite length_app. simpl. lia.
  - eapply holds_same; [apply Hfr4; rewrite length_app; simpl; lia|].
    apply holds_alloc. apply shape_mmul.
    + unfold mtranspose, mat_of. by rewrite length_map, length_seq.
    + apply shape_centered.
  - exact HSb.
  - intros b' Hb' Hne. rewrite Hfr4 by (rewrite length_app; simpl; lia).
    rewrite lookup_app_l by lia.
    rewrite Hfr3 by done. rewrite Hlo2 by done. by apply Hfr1.
Qed.

End Scatter.

(** ** The label remapping *)

Section Labels.
Implicit Types (nl labels : list Z).

Lemma label2num_lookup nl j l :
  NoDup nl -> nl !! j = Some l -> LDA.label2num nl !! l = Some j.
Proof.
  intros Hnd Hj. unfold LDA.label2num.
  assert (forall k, k <= length nl -> forall j l, j < k -> nl !! j = Some l ->
            foldl (fun m i => <[nth i nl 0%Z := i]> m) (∅ : gmap Z nat) (seq 0 k) !! l = Some j)
    as Hgen.
  { induction k as [|k IH]; intros Hk j' l' Hj' Hl'; [lia|].
    rewrite seq_S, foldl_app. simpl.
    destruct (decide (j' = k)) as [->|Hne].
    - rewrite (nth_lookup_Some _ _ _ _ Hl'). apply lookup_insert_eq.
    - destruct (lookup_lt_is_Some_2 nl k) as [lk Hlk]; [lia|].
      rewrite (nth_lookup_Some _ _ _ _ Hlk).
      rewrite lookup_insert_ne.
      + apply IH; [lia | lia | done].
      + intros ->. apply Hne. by eapply NoDup_lookup. }
  apply Hgen; [done | by eapply lookup_lt_Some | done].
Qed.

Lemma mapped_labels_nth labels i l :
  labels !! i = Some l ->
  exists j, cv.remove_dups labels !! j = Some l /\ nth i (LDA.mapped_labels labels) 0 = j.
Proof.
  intros Hi.
  assert (l ∈ cv.remove_dups labels) as Hl.
  { apply elem_of_remove_dups. by eapply list_elem_of_lookup_2. }
  apply list_elem_of_lookup in Hl as [j Hj]. exists j. split; [done|].
  unfold LDA.mapped_labels. rewrite nth_lookup, list_lookup_fmap, Hi. simpl.
  by rewrite (label2num_lookup _ _ _ (remove_dups_NoDup labels) Hj).
Qed.

(** Every mapped label is a class index below [C]. *)
Lemma mapped_labels_lt labels i :
  i < length labels ->
  nth i (LDA.mapped_labels labels) 0 < length (cv.remove_dups labels).
Proof.
  intros Hi. destruct (lookup_lt_is_Some_2 labels i Hi) as [l Hl].
  destruct (mapped_labels_nth labels i l Hl) as (j & Hj & ->).
  by eapply lookup_lt_Some.
Qed.

(** Two observations get the same class index exactly when they carry
    the same label. *)
Lemma mapped_labels_same_class labels i j li lj :
  labels !! i = Some li -> labels !! j = Some lj ->
  nth i (LDA.mapped_labels labels) 0 = nth j (LDA.mapped_labels labels) 0 <-> li = lj.
Proof.
  intros Hi Hj.
  destruct (mapped_labels_nth labels i li Hi) as (ki & Hki & ->).
  destruct (mapped_labels_nth labels j lj Hj) as (kj & Hkj & ->).
  split.
  - intros ->. congruence.
  - intros ->. by eapply NoDup_lookup; [apply remove_dups_NoDup| |].
Qed.

(** Every class index is the class of some observation. *)
Lemma class_inhabited labels c :
  c < length (cv.remove_dups labels) ->
  0 < length (members (LDA.mapped_labels labels) c (length labels)).
Proof.
  intros Hc.
  destruct (lookup_lt_is_Some_2 _ _ Hc) as [l Hl].
  assert (l ∈ labels) as Hin.
  { apply elem_of_remove_dups. by eapply list_elem_of_lookup_2. }
  apply list_elem_of_lookup_1 in Hin as [i Hi].
  destruct (mapped_labels_nth labels i l Hi) as (j & Hj & Hij).
  assert (j = c) as ->.
  { eapply NoDup_lookup; [apply remove_dups_NoDup | exact Hj | exact Hl]. }
  assert (i ∈ members (LDA.mapped_labels labels) c (length labels)) as Hmem.
  { unfold members. apply list_elem_of_filter. split; [done|].
    apply elem_of_seq. apply lookup_lt_Some in Hi. lia. }
  destruct (members _ _ _); [by apply elem_of_nil in Hmem | simpl; lia].
Qed.

End Labels.

(** ** The rounded means against the exact ones *)



Lemma rho_one : rho 1 = 1%Qc.
Proof. unfold rho. by rewrite reciprocal_of_one. Qed.







(** ** [compute] up to the scatter matrices *)

Lemma mscale_1 (A : matrix) : mscale 1 A = A.
Proof.
  unfold mscale, vscale. rewrite <- (map_id A) at 2. apply map_ext. intros v.
  rewrite <- (map_id v) at 2. apply map_ext. intros x. apply Qcmult_1_r.
Qed.

Lemma shape_read m s : shape (rows m) (cols m) (read m s).
Proof. apply shape_mat_of. Qed.

Lemma shape_mtranspose r c A : shape c r (mtranspose r c A).
Proof. apply shape_mat_of. Qed.

Lemma scatter_empty data mapped D s :
  outcome (LDA.scatter data mapped 0 D 0 s) = Throw NotFinite.
Proof. reflexivity. Qed.

Section ComputeRun.
Variable solver : matrix -> vec * matrix.
Variables (o : LDA.t) (s : store) (src : Mat) (labels : list Z).

Let N := if LDA._dataAsRow o then rows src else cols src.
Let D := if LDA._dataAsRow o then cols src else rows src.
Let X := observations (LDA._dataAsRow o) src s.
Let mapped := LDA.mapped_labels labels.
Let C := length (cv.remove_dups labels).

Lemma compute_prelude (Q : result unit -> LDA.state -> Prop) :
  channels src = 1 -> length labels = N ->
  wp (let* (Sw, Sb) := LDA.lift (LDA.scatter (fresh N D (length s)) mapped N D C) in
      let* Swi := LDA.lift (inv Sw) in
      let* M := LDA.lift (gemm Swi Sb 1 None 0 empty 0) in
      LDA.solve solver M;; LDA.select) Q (LDA.clip C o, s ++ [flatten N D X]) ->
  wp (LDA.compute solver src labels) Q (o, s).
Proof.
  intros Hch Hlen HQ. unfold LDA.compute.
  rewrite bool_decide_false by (by intros H; apply H).
  apply wp_bind, wp_this. apply wp_bind, wp_lift.
  apply wp_mono with (P := fun r s' =>
    r = Ok (fresh N D (length s)) /\ s' = s ++ [flatten N D X]).
  { subst N D X. unfold observations. destruct (LDA._dataAsRow o).
    - unfold clone. by apply wp_bind, wp_gets, wp_alloc.
    - unfold transpose. by apply wp_bind, wp_gets, wp_alloc. }
  intros r s1 [-> ->].
  assert (shape N D X) as HX.
  { subst N D X. unfold observations.
    destruct (LDA._dataAsRow o); [apply shape_read | apply shape_mtranspose]. }
  pose proof (holds_alloc s N D X HX) as Hd.
  apply wp_bind, wp_lift. unfold convertTo. apply wp_bind, wp_gets.
  rewrite (holds_read _ _ _ _ _ Hd), mscale_1. simpl (rows _); simpl (cols _).
  eapply wp_output_fresh; [exact Hd|].
  rewrite insert_app_r_alt, Nat.sub_diag by done. simpl (<[_:=_]> _).
  simpl (rows _); simpl (cols _).
  rewrite bool_decide_false by (by intros H; apply H).
  apply wp_bind, wp_assign. exact HQ.
Qed.

(** When the scatter phase fails, so does [compute], after the clipping. *)
Lemma compute_scatter_throws e :
  channels src = 1 -> length labels = N ->
  outcome (scatter_phase o s src labels) = Throw e ->
  wp (LDA.compute solver src labels)
     (fun r st => r = Throw e /\ fst st = LDA.clip C o) (o, s).
Proof.
  intros Hch Hlen He. apply compute_prelude; [done | done |].
  unfold scatter_phase in He. fold N D X mapped C in He.
  unfold wp, bind, LDA.lift. simpl (snd _). simpl (fst (LDA.clip _ _, _)).
  destruct (LDA.scatter _ _ _ _ _ _) as [[x|e'] s']; simpl in He; [done|].
  by injection He as ->.
Qed.

Lemma compute_empty :
  channels src = 1 -> length labels = N -> N = 0 ->
  wp (LDA.compute solver src labels)
     (fun r st => r = Throw NotFinite /\ fst st = LDA.clip C o) (o, s).
Proof.
  intros Hch Hlen HN. apply compute_scatter_throws; [done | done |].
  unfold scatter_phase. fold N. rewrite HN in *.
  apply nil_length_inv in Hlen as ->. apply scatter_empty.
Qed.


Lemma compute_run (Q : result unit -> LDA.state -> Prop) :
  channels src = 1 -> length labels = N -> 0 < N ->
  (forall s' nSw nSb,
     holds s' nSw D D (Sw_of X mapped N D) ->
     holds s' nSb D D (Sb_of X mapped N D C) ->
     wp (let* Swi := LDA.lift (inv (fresh D D nSw)) in
         let* M := LDA.lift (gemm Swi (fresh D D nSb) 1 None 0 empty 0) in
         LDA.solve solver M;; LDA.select) Q (LDA.clip C o, s')) ->
  wp (LDA.compute solver src labels) Q (o, s).
Proof.
  intros Hch Hlen HN HQ. apply compute_prelude; [done | done |].
  assert (shape N D X) as HX.
  { subst N D X. unfold observations.
    destruct (LDA._dataAsRow o); [apply shape_read | apply shape_mtranspose]. }
  pose proof (holds_alloc s N D X HX) as Hd.
  assert (forall i, i < N -> nth i mapped 0 < C) as Hm.
  { intros i Hi. apply mapped_labels_lt. lia. }
  apply wp_bind, wp_lift.
  apply (scatter_run (s ++ [flatten N D X]) (length s) N D C X mapped Hd Hm HN).
  { intros c Hc. rewrite <- Hlen. by apply class_inhabited. }
  intros s' nSw nSb HR HSw HSb _. apply HQ; [|done].
  rewrite (mulTransposed_sum_outer N D) in HSw; [done|].
  apply (shape_centered (s ++ [flatten N D X]) (length s) N D C X mapped Hd Hm).
Qed.

End ComputeRun.

(** ** [argsort] is a stable sort of the positions *)

Section Argsort.
Variables (ascending : bool) (v : vec).

Lemma goes_first_trans x y z :
  goes_first ascending x y = true -> goes_first ascending y z = true ->
  goes_first ascending x z = true.
Proof.
  unfold goes_first. destruct ascending; rewrite !bool_decide_eq_true; intros Hxy Hyz.
  - by eapply Qclt_trans.
  - by eapply Qclt_trans.
Qed.

Lemma goes_first_total x y :
  goes_first ascending x y = false -> goes_first ascending y x = true \/ x = y.
Proof.
  unfold goes_first. destruct ascending; rewrite bool_decide_eq_false, bool_decide_eq_true;
    intros H%Qcnot_lt_le%Qcle_lt_or_eq; destruct H as [H|H]; auto.
Qed.

Lemma precedes_trans i j k :
  precedes ascending v i j -> precedes ascending v j k -> precedes ascending v i k.
Proof.
  unfold precedes. intros [Hij|[Hij Hlt]] [Hjk|[Hjk Hlt']].
  - left. by eapply goes_first_trans.
  - left. by rewrite <- Hjk.
  - left. by rewrite Hij.
  - right. split; [congruence | lia].
Qed.

Lemma insert_index_perm i l : insert_index ascending v i l ≡ₚ i :: l.
Proof.
  induction l as [|k l IH]; simpl; [done|].
  destruct (goes_first _ _ _); [|done].
  rewrite IH. apply Permutation_swap.
Qed.

Lemma insert_index_sorted i l :
  StronglySorted (precedes ascending v) l ->
  Forall (fun k => i < k) l ->
  StronglySorted (precedes ascending v) (insert_index ascending v i l).
Proof.
  induction l as [|k l IH]; intros Hs Hi; simpl.
  - repeat constructor.
  - apply StronglySorted_inv in Hs as [Hs Hk].
    apply Forall_cons in Hi as [Hik Hi].
    destruct (goes_first ascending (nth k v 0%Qc) (nth i v 0%Qc)) eqn:Hg.
    + constructor; [by apply IH|].
      rewrite insert_index_perm. constructor; [by left | done].
    + assert (precedes ascending v i k) as Hpik.
      { destruct (goes_first_total _ _ Hg) as [H|H]; [by left | right; split; [done|lia]]. }
      constructor; [by constructor|].
      constructor; [done|].
      eapply Forall_impl; [exact Hk|]. intros j Hj. by eapply precedes_trans.
Qed.

Lemma sort_from_spec a n :
  let l := foldr (insert_index ascending v) [] (seq a n) in
  l ≡ₚ seq a n /\ StronglySorted (precedes ascending v) l.
Proof.
  revert a. induction n as [|n IH]; intros a; simpl.
  - split; [done | constructor].
  - destruct (IH (S a)) as [Hp Hs]. split.
    + by rewrite insert_index_perm, Hp.
    + apply insert_index_sorted; [done|]. rewrite Hp.
      apply Forall_forall. intros k Hk%elem_of_seq. lia.
Qed.

(** The result is a permutation of all positions, ... *)
Lemma sort_indices_perm : sort_indices ascending v ≡ₚ seq 0 (length v).
Proof. apply sort_from_spec. Qed.

(** ... in stable order. *)
Lemma sort_indices_sorted : StronglySorted (precedes ascending v) (sort_indices ascending v).
Proof. apply sort_from_spec. Qed.

Lemma sort_indices_length : length (sort_indices ascending v) = length v.
Proof. by rewrite sort_indices_perm, length_seq. Qed.

Lemma sort_indices_lt : Forall (fun k => k < length v) (sort_indices ascending v).
Proof.
  rewrite sort_indices_perm. apply Forall_forall. intros k Hk%elem_of_seq. lia.
Qed.

End Argsort.

Lemma precedes_descending v i j :
  precedes false v i j -> (nth j v 0 <= nth i v 0)%Qc.
Proof.
  unfold precedes, goes_first. intros [H|[-> _]].
  - apply bool_decide_eq_true in H. by apply Qclt_le_weak.
  - apply Qcle_refl.
Qed.

(** ** Component selection *)

Lemma allocated_fresh r c b (s : store) : b < length s -> allocated (fresh r c b) s.
Proof. intros Hb b' [= <-]. done. Qed.

Lemma read_window s b r c A r' c' ch :
  s !! b = Some (flatten r c A) -> r' <= r -> c' <= c ->
  read (mkMat r' c' ch (Some b) 0 c) s = mat_of r' c' (mat_at A).
Proof.
  intros Hb Hr Hc. unfold read. simpl. apply mat_of_ext. intros i j Hi Hj.
  unfold at_, buffer. simpl. rewrite Hb. simpl.
  rewrite nth_flatten by (apply index_lt; lia).
  rewrite index_div, index_mod by lia. done.
Qed.

Lemma mat_of_row c f : mat_of 1 c f = [map (f 0) (seq 0 c)].
Proof. done. Qed.

Lemma nth_map_lt {X Y} (f : X -> Y) (l : list X) i d d' :
  i < length l -> nth i (map f l) d' = f (nth i l d).
Proof.
  intros Hi. destruct (lookup_lt_is_Some_2 l i Hi) as [x Hx].
  rewrite (nth_lookup_Some _ _ d _ Hx).
  apply nth_lookup_Some. by rewrite list_lookup_fmap, Hx.
Qed.

Lemma mat_at_select_columns (A : matrix) idx i j :
  i < length A -> j < length idx ->
  mat_at (map (fun r => map (fun k => nth k r 0%Qc) idx) A) i j
  = mat_at A i (nth j idx 0).
Proof.
  intros Hi Hj. unfold mat_at.
  rewrite (nth_map_lt _ A i []) by done.
  by rewrite (nth_map_lt _ idx j 0) by done.
Qed.

Lemma read_column_as_row s b (vals : vec) h :
  s !! b = Some (flatten (length vals) 1 (map (fun x => [x]) vals)) ->
  h = fresh (length vals) 1 b \/
  h = mkMat 1 (length vals * 1) 1 (Some b) 0 (length vals * 1) ->
  rows h = 1 ->
  read h s = [vals].
Proof.
  intros Hb Hh Hrows.
  assert (forall j, j < length vals ->
            nth j (flatten (length vals) 1 (map (fun x => [x]) vals)) 0%Qc
            = nth j vals 0%Qc) as Hnth.
  { intros j Hj. rewrite nth_flatten by lia.
    rewrite Nat.div_1_r, Nat.mod_1_r. unfold mat_at.
    rewrite (nth_indep _ [] [0%Qc]) by (by rewrite length_map).
    by rewrite (map_nth (fun x => [x])). }
  destruct Hh as [->| ->].
  - simpl in Hrows. rewrite (read_fresh_raw _ _ _ _ _ Hb), Hrows, mat_of_row. simpl.
    unfold mat_at. destruct vals as [|x [|??]]; done.
  - unfold read. cbn [rows cols]. rewrite mat_of_row. f_equal.
    rewrite Nat.mul_1_r.
    transitivity (map (fun j => nth j vals 0%Qc) (seq 0 (length vals)));
      [|by apply vec_of_nth].
    apply map_ext_in. intros j Hj%in_seq.
    unfold at_, buffer. simpl. rewrite Hb. simpl. apply Hnth. lia.
Qed.

Section Select.
Variable solver : matrix -> vec * matrix.

Lemma solve_select_run o s m :
  wp (LDA.solve solver m;; LDA.select)
     (fun r st => r = Ok tt ->
        selected (fst (solver (read m s))) (snd (solver (read m s))) (fst st) (snd st))
     (o, s).
Proof.
  set (vals := fst (solver (read m s))). set (vecs := snd (solver (read m s))).
  set (idx := sort_indices false vals).
  unfold LDA.solve.
  apply wp_bind, wp_bind, wp_lift, wp_gets. fold vals vecs.
  apply wp_bind, wp_lift, wp_alloc. apply wp_bind, wp_assign.
  apply wp_bind, wp_lift, wp_alloc. apply wp_assign.
  set (bv := flatten (length vals) 1 (map (fun x => [x]) vals)).
  set (bw := flatten (length vecs) (length vals) vecs).
  rewrite length_app. simpl (length [_]).
  unfold LDA.select.
  apply wp_bind, wp_this. cbn [LDA._eigenvalues LDA.set_eigenvectors LDA.set_eigenvalues].
  assert (((s ++ [bv]) ++ [bw]) !! length s = Some bv) as Hbv.
  { rewrite lookup_app_l by (rewrite length_app; simpl; lia).
    by rewrite list_lookup_middle. }
  assert (((s ++ [bv]) ++ [bw]) !! (length s + 1) = Some bw) as Hbw.
  { rewrite lookup_app_r by (rewrite length_app; simpl; lia).
    rewrite length_app. simpl. by rewrite Nat.sub_diag. }
  apply wp_bind.
  apply wp_mono with (P := fun r st => exists h,
    r = Ok h /\ st = (LDA.set_eigenvectors (fresh (length vecs) (length vals) (length s + 1))
                        (LDA.set_eigenvalues (fresh (length vals) 1 (length s)) o),
                      (s ++ [bv]) ++ [bw]) /\
    rows h = 1 /\ cols h = length vals /\ read h ((s ++ [bv]) ++ [bw]) = [vals]).
  { unfold reshape_1_1. simpl (rows _); simpl (cols _); simpl (step _).
    case_bool_decide as Hn.
    - apply wp_ret. eexists. split_and!; [done.. | |]; [by simpl|].
      eapply read_column_as_row; [exact Hbv | by left | done].
    - rewrite bool_decide_true by done. apply wp_ret. eexists.
      split_and!; [done.. | |]; [simpl; lia|].
      eapply read_column_as_row; [exact Hbv | by right | done]. }
  intros r st (h & -> & -> & Hrows & Hcols & Hread).
  apply wp_bind, wp_assign.
  apply wp_bind, wp_lift. unfold argsort. apply wp_bind, wp_gets.
  rewrite Hread. simpl (concat _). rewrite app_nil_r. apply wp_ret. fold idx.
  apply wp_bind, wp_lift. unfold sortMatrixByColumn.
  rewrite bool_decide_true by (rewrite Hcols; apply sort_indices_lt).
  apply wp_bind, wp_gets, wp_alloc. rewrite Hread, Hrows. simpl (map _ [_]).
  apply wp_bind, wp_assign. apply wp_bind, wp_this.
  cbn [LDA._eigenvectors LDA.set_eigenvectors LDA.set_eigenvalues].
  apply wp_bind, wp_lift. simpl (cols _).
  rewrite bool_decide_true by apply sort_indices_lt.
  apply wp_bind, wp_gets, wp_alloc. simpl (rows _).
  rewrite !length_app. simpl (length [_]).
  rewrite (read_ext _ _ [_]) by (apply allocated_fresh; rewrite !length_app; simpl; lia).
  rewrite (read_fresh_raw _ _ _ _ _ Hbw).
  set (sv := flatten 1 (length idx) [map (fun k => nth k vals 0%Qc) idx]).
  set (sw := flatten (length vecs) (length idx) _).
  apply wp_bind, wp_assign. apply wp_bind, wp_this.
  cbn [LDA._num_components LDA.set_eigenvectors LDA.set_eigenvalues].
  set (k := LDA._num_components o).
  apply wp_bind. unfold colRange at 1. simpl (cols _).
  case_bool_decide as Hk; [|by intros [=]].
  apply wp_ret, wp_bind, wp_assign.
  apply wp_bind. unfold colRange. simpl (cols _).
  rewrite bool_decide_true by done.
  apply wp_ret, wp_assign. intros _.
  unfold selected. cbn [fst snd LDA._num_components LDA._eigenvalues LDA._eigenvectors
    LDA.set_eigenvectors LDA.set_eigenvalues rows channels data offset step cols fresh].
  fold k idx. rewrite Z.sub_0_r, Nat.add_0_r.
  pose proof (sort_indices_length false vals) as Hlidx. fold idx in Hlidx.
  assert (Z.to_nat k <= length vals) as HK by lia.
  set (K := Z.to_nat k) in *.
  set (s4 := (((s ++ [bv]) ++ [bw]) ++ [sv]) ++ [sw]).
  assert (s4 !! (length s + 1 + 1) = Some sv) as Hsv.
  { unfold s4. rewrite lookup_app_l by (rewrite !length_app; simpl; lia).
    rewrite lookup_app_r by (rewrite !length_app; simpl; lia).
    rewrite !length_app. simpl. by replace (_ - _) with 0 by lia. }
  assert (s4 !! (length s + 1 + 1 + 1) = Some sw) as Hsw.
  { unfold s4. rewrite lookup_app_r by (rewrite !length_app; simpl; lia).
    rewrite !length_app. simpl. by replace (_ - _) with 0 by lia. }
  split_and!; [done | |].
  - rewrite (read_window _ _ _ _ _ _ _ _ Hsv) by lia.
    rewrite mat_of_row. f_equal.
    apply list_eq. intros j. rewrite !list_lookup_fmap, lookup_take.
    destruct (decide (j < K)) as [Hj|Hj].
    + rewrite lookup_seq_lt by done. simpl.
      destruct (lookup_lt_is_Some_2 idx j) as [i Hi]; [lia|]. rewrite Hi. simpl.
      f_equal. unfold mat_at. simpl (nth 0 _ _).
      rewrite (nth_map_lt _ idx j 0) by lia.
      by rewrite (nth_lookup_Some _ _ _ _ Hi).
    + rewrite lookup_seq_ge by lia. done.
  - rewrite (read_window _ _ _ _ _ _ _ _ Hsw) by lia.
    apply mat_of_ext. intros i j Hi Hj.
    rewrite mat_at_select_columns.
    + apply mat_at_mat_of; [done|].
      pose proof (sort_indices_lt false vals) as Hlt. fold idx in Hlt.
      apply (proj1 (Forall_nth _ 0 idx) Hlt). lia.
    + unfold mat_of. by rewrite length_map, length_seq.
    + lia.
Qed.

Lemma solve_select_overflow o s m :
  let vals := fst (solver (read m s)) in
  (LDA._num_components o < 0 \/ Z.of_nat (length vals) < LDA._num_components o)%Z ->
  wp (LDA.solve solver m;; LDA.select)
     (fun r st =>
        r = Throw StsAssert /\
        LDA._num_components (fst st) = LDA._num_components o /\
        local s (LDA._eigenvalues (fst st)) /\
        local s (LDA._eigenvectors (fst st)) /\
        cols (LDA._eigenvectors (fst st)) = length vals /\
        read (LDA._eigenvalues (fst st)) (snd st)
          = [map (fun k => nth k vals 0%Qc) (sort_indices false vals)])
     (o, s).
Proof.
  intros vals0 Hover.
  set (vals := fst (solver (read m s))) in *. set (vecs := snd (solver (read m s))).
  set (idx := sort_indices false vals). subst vals0.
  unfold LDA.solve.
  apply wp_bind, wp_bind, wp_lift, wp_gets. fold vals vecs.
  apply wp_bind, wp_lift, wp_alloc. apply wp_bind, wp_assign.
  apply wp_bind, wp_lift, wp_alloc. apply wp_assign.
  set (bv := flatten (length vals) 1 (map (fun x => [x]) vals)).
  set (bw := flatten (length vecs) (length vals) vecs).
  rewrite length_app. simpl (length [_]).
  unfold LDA.select.
  apply wp_bind, wp_this. cbn [LDA._eigenvalues LDA.set_eigenvectors LDA.set_eigenvalues].
  assert (((s ++ [bv]) ++ [bw]) !! length s = Some bv) as Hbv.
  { rewrite lookup_app_l by (rewrite length_app; simpl; lia).
    by rewrite list_lookup_middle. }
  apply wp_bind.
  apply wp_mono with (P := fun r st => exists h,
    r = Ok h /\ st = (LDA.set_eigenvectors (fresh (length vecs) (length vals) (length s + 1))
                        (LDA.set_eigenvalues (fresh (length vals) 1 (length s)) o),
                      (s ++ [bv]) ++ [bw]) /\
    rows h = 1 /\ cols h = length vals /\ read h ((s ++ [bv]) ++ [bw]) = [vals]).
  { unfold reshape_1_1. simpl (rows _); simpl (cols _); simpl (step _).
    case_bool_decide as Hn.
    - apply wp_ret. eexists. split_and!; [done.. | |]; [by simpl|].
      eapply read_column_as_row; [exact Hbv | by left | done].
    - rewrite bool_decide_true by done. apply wp_ret. eexists.
      split_and!; [done.. | |]; [simpl; lia|].
      eapply read_column_as_row; [exact Hbv | by right | done]. }
  intros r st (h & -> & -> & Hrows & Hcols & Hread).
  apply wp_bind, wp_assign.
  apply wp_bind, wp_lift. unfold argsort. apply wp_bind, wp_gets.
  rewrite Hread. simpl (concat _). rewrite app_nil_r. apply wp_ret. fold idx.
  apply wp_bind, wp_lift. unfold sortMatrixByColumn.
  rewrite bool_decide_true by (rewrite Hcols; apply sort_indices_lt).
  apply wp_bind, wp_gets, wp_alloc. rewrite Hread, Hrows. simpl (map _ [_]).
  apply wp_bind, wp_assign. apply wp_bind, wp_this.
  cbn [LDA._eigenvectors LDA.set_eigenvectors LDA.set_eigenvalues].
  apply wp_bind, wp_lift. simpl (cols _).
  rewrite bool_decide_true by apply sort_indices_lt.
  apply wp_bind, wp_gets, wp_alloc. simpl (rows _).
  rewrite !length_app. simpl (length [_]).
  set (sv := flatten 1 (length idx) [map (fun k => nth k vals 0%Qc) idx]).
  set (sw := flatten (length vecs) (length idx) _).
  apply wp_bind, wp_assign. apply wp_bind, wp_this.
  cbn [LDA._num_components LDA.set_eigenvectors LDA.set_eigenvalues].
  pose proof (sort_indices_length false vals) as Hlidx. fold idx in Hlidx.
  apply wp_bind. unfold colRange at 1. simpl (cols _).
  rewrite bool_decide_false by lia.
  apply wp_throw.
  cbn [fst snd LDA._num_components LDA._eigenvalues LDA._eigenvectors
    LDA.set_eigenvectors LDA.set_eigenvalues].
  split_and!; [done | done | | | by simpl | ].
  - intros b' [= <-]. lia.
  - intros b' [= <-]. lia.
  - apply read_fresh.
    + rewrite lookup_app_l by (rewrite !length_app; simpl; lia).
      rewrite lookup_app_r by (rewrite !length_app; simpl; lia).
      rewrite !length_app. simpl. by replace (_ - _) with 0 by lia.
    + apply shape_row. by rewrite length_map.
Qed.

Lemma solve_select_succeeds o s m :
  let vals := fst (solver (read m s)) in
  (0 <= LDA._num_components o <= Z.of_nat (length vals))%Z ->
  wp (LDA.solve solver m;; LDA.select) (fun r _ => r = Ok tt) (o, s).
Proof.
  intros vals0 Hk.
  set (vals := fst (solver (read m s))) in *. set (vecs := snd (solver (read m s))).
  set (idx := sort_indices false vals). subst vals0.
  unfold LDA.solve.
  apply wp_bind, wp_bind, wp_lift, wp_gets. fold vals vecs.
  apply wp_bind, wp_lift, wp_alloc. apply wp_bind, wp_assign.
  apply wp_bind, wp_lift, wp_alloc. apply wp_assign.
  set (bv := flatten (length vals) 1 (map (fun x => [x]) vals)).
  set (bw := flatten (length vecs) (length vals) vecs).
  rewrite length_app. simpl (length [_]).
  unfold LDA.select.
  apply wp_bind, wp_this. cbn [LDA._eigenvalues LDA.set_eigenvectors LDA.set_eigenvalues].
  assert (((s ++ [bv]) ++ [bw]) !! length s = Some bv) as Hbv.
  { rewrite lookup_app_l by (rewrite length_app; simpl; lia).
    by rewrite list_lookup_middle. }
  apply wp_bind.
  apply wp_mono with (P := fun r st => exists h,
    r = Ok h /\ st = (LDA.set_eigenvectors (fresh (length vecs) (length vals) (length s + 1))
                        (LDA.set_eigenvalues (fresh (length vals) 1 (length s)) o),
                      (s ++ [bv]) ++ [bw]) /\
    rows h = 1 /\ cols h = length vals /\ read h ((s ++ [bv]) ++ [bw]) = [vals]).
  { unfold reshape_1_1. simpl (rows _); simpl (cols _); simpl (step _).
    case_bool_decide as Hn.
    - apply wp_ret. eexists. split_and!; [done.. | |]; [by simpl|].
      eapply read_column_as_row; [exact Hbv | by left | done].
    - rewrite bool_decide_true by done. apply wp_ret. eexists.
      split_and!; [done.. | |]; [simpl; lia|].
      eapply read_column_as_row; [exact Hbv | by right | done]. }
  intros r st (h & -> & -> & Hrows & Hcols & Hread).
  apply wp_bind, wp_assign.
  apply wp_bind, wp_lift. unfold argsort. apply wp_bind, wp_gets.
  rewrite Hread. simpl (concat _). rewrite app_nil_r. apply wp_ret. fold idx.
  apply wp_bind, wp_lift. unfold sortMatrixByColumn.
  rewrite bool_decide_true by (rewrite Hcols; apply sort_indices_lt).
  apply wp_bind, wp_gets, wp_alloc. rewrite Hread, Hrows. simpl (map _ [_]).
  apply wp_bind, wp_assign. apply wp_bind, wp_this.
  cbn [LDA._eigenvectors LDA.set_eigenvectors LDA.set_eigenvalues].
  apply wp_bind, wp_lift. simpl (cols _).
  rewrite bool_decide_true by apply sort_indices_lt.
  apply wp_bind, wp_gets, wp_alloc. simpl (rows _).
  apply wp_bind, wp_assign. apply wp_bind, wp_this.
  cbn [LDA._num_components LDA.set_eigenvectors LDA.set_eigenvalues].
  pose proof (sort_indices_length false vals) as Hlidx. fold idx in Hlidx.
  apply wp_bind. unfold colRange at 1. simpl (cols _).
  rewrite bool_decide_true by lia.
  apply wp_ret, wp_bind, wp_assign.
  apply wp_bind. unfold colRange. simpl (cols _).
  rewrite bool_decide_true by lia.
  by apply wp_ret, wp_assign.
Qed.

End Select.

(** ** [LinearDiscriminantAnalysis::reconstruct] *)

Lemma shape_mmul_nt r (A B : matrix) : length A = r -> shape r (length B) (mmul_nt A B).
Proof.
  intros HA. split; [by unfold mmul_nt; rewrite length_map|].
  apply Forall_map, Forall_forall. intros x _. simpl. by rewrite length_map.
Qed.

Lemma length_read m s : length (read m s) = rows m.
Proof. apply shape_read. Qed.

Ltac run_of f :=
  match goal with
  | |- context [f ?a ?s] => destruct (f a s) as [[?|?] ?]
  end.

Lemma reconstruct_object src o s :
  fst (final (LDA.reconstruct src (o, s))) = o.
Proof.
  unfold LDA.reconstruct, bind, LDA.this, LDA.lift, gets, ret, final.
  cbn [fst snd]. destruct (LDA._dataAsRow o); cbn [fst snd].
  - run_of (gemm src src 1 None 0 empty); done.
  - run_of transpose; cbn [fst snd]; [|done].
    match goal with |- context [gemm ?a src 1 None 0 empty GEMM_2_T ?s] =>
      destruct (gemm a src 1 None 0 empty GEMM_2_T s) as [[?|?] ?] end;
      cbn [fst snd]; [|done].
    run_of transpose; done.
Qed.

Lemma reconstruct_independent src o o' s :
  LDA._dataAsRow o' = LDA._dataAsRow o ->
  outcome (LDA.reconstruct src (o', s)) = outcome (LDA.reconstruct src (o, s)) /\
  snd (final (LDA.reconstruct src (o', s))) = snd (final (LDA.reconstruct src (o, s))).
Proof.
  intros Hflag.
  unfold LDA.reconstruct, bind, LDA.this, LDA.lift, gets, ret, outcome, final.
  cbn [fst snd]. rewrite Hflag. destruct (LDA._dataAsRow o); cbn [fst snd].
  - run_of (gemm src src 1 None 0 empty); done.
  - run_of transpose; cbn [fst snd]; [|done].
    match goal with |- context [gemm ?a src 1 None 0 empty GEMM_2_T ?s] =>
      destruct (gemm a src 1 None 0 empty GEMM_2_T s) as [[?|?] ?] end;
      cbn [fst snd]; [|done].
    run_of transpose; done.
Qed.

Lemma reconstruct_as_rows src o s :
  LDA._dataAsRow o = true ->
  LDA.reconstruct src (o, s) =
    (Ok (fresh (rows src) (rows src) (length s)),
     (o, s ++ [flatten (rows src) (rows src) (mmul_nt (read src s) (read src s))])).
Proof.
  intros Hflag.
  unfold LDA.reconstruct, bind, LDA.this, LDA.lift, gets. simpl. rewrite Hflag. simpl.
  unfold gemm, GEMM_2_T. simpl (Z.testbit _ _).
  cbv iota beta. rewrite bool_decide_true by done.
  unfold bind, gets, output. rewrite fits_empty. unfold alloc. simpl.
  by rewrite mscale_1.
Qed.

(** ** [subspace::project] and [subspace::reconstruct] *)

Section AffineAlgebra.
Implicit Types (u v w x m : vec) (W : matrix).













Lemma mtranspose_involutive r c (A : matrix) :
  shape r c A -> mtranspose c r (mtranspose r c A) = A.
Proof.
  intros HA. rewrite <- (mat_of_mat_at r c A) at 2 by done.
  unfold mtranspose. apply mat_of_ext. intros i j Hi Hj.
  by rewrite mat_at_mat_of.
Qed.

Lemma concat_replicate_singleton {X} n (e : X) : concat (replicate n [e]) = replicate n e.
Proof. induction n as [|n IH]; simpl; [done|]. by rewrite IH. Qed.

End AffineAlgebra.

Lemma allocated_reshaped mean s : allocated mean s -> allocated (reshaped mean) s.
Proof. unfold reshaped. by case_bool_decide. Qed.

Lemma rows_reshaped mean : rows (reshaped mean) = 1.
Proof. unfold reshaped. by case_bool_decide. Qed.

Lemma cols_reshaped mean : cols (reshaped mean) = total mean.
Proof. unfold reshaped, total. case_bool_decide as H; simpl; [rewrite H; lia | done]. Qed.

Lemma read_reshaped mean s : read (reshaped mean) s = [mean_row mean s].
Proof.
  unfold mean_row, read. rewrite rows_reshaped. by rewrite mat_of_row.
Qed.

Lemma length_mean_row mean s : length (mean_row mean s) = total mean.
Proof.
  unfold mean_row, read. rewrite rows_reshaped, mat_of_row. simpl.
  by rewrite length_map, length_seq, cols_reshaped.
Qed.

Lemma wp_reshape_1_1 {St} mean (Q : result Mat -> St -> Prop) st :
  continuous mean -> Q (Ok (reshaped mean)) st -> wp (reshape_1_1 mean) Q st.
Proof.
  intros Hc HQ. unfold reshape_1_1, reshaped in *.
  case_bool_decide as Hr; [done|].
  destruct Hc as [Hc|Hc]; [done|]. by rewrite bool_decide_true by done.
Qed.

Lemma wp_gemm_nn a b s (Q : result Mat -> store -> Prop) :
  cols a = rows b ->
  Q (Ok (fresh (rows a) (cols b) (length s)))
    (s ++ [flatten (rows a) (cols b) (mmul (cols b) (read a s) (read b s))]) ->
  wp (gemm a b 1 None 0 empty 0) Q s.
Proof.
  intros Hdim HQ. unfold gemm. simpl (Z.testbit _ _). cbv iota beta.
  rewrite bool_decide_true by done.
  apply wp_bind, wp_gets. apply wp_bind, wp_gets.
  apply wp_output_empty. by rewrite mscale_1.
Qed.

Lemma wp_gemm_nt_plus a b c s (Q : result Mat -> store -> Prop) :
  cols a = cols b -> rows c = rows a -> cols c = rows b ->
  Q (Ok (fresh (rows a) (rows b) (length s)))
    (s ++ [flatten (rows a) (rows b)
             (madd (mmul_nt (read a s) (read b s)) (read c s))]) ->
  wp (gemm a b 1 (Some c) 1 empty GEMM_2_T) Q s.
Proof.
  intros Hdim Hcr Hcc HQ. unfold gemm, GEMM_2_T. simpl (Z.testbit _ _). cbv iota beta.
  rewrite bool_decide_true by done.
  apply wp_bind, wp_gets. apply wp_bind, wp_gets.
  rewrite bool_decide_true by done.
  apply wp_bind, wp_gets.
  apply wp_output_empty. by rewrite !mscale_1.
Qed.

Section Affine.
Variables (W mean src : Mat) (row : bool) (s : store).
Hypothesis HW : allocated W s.
Hypothesis Hmean : allocated mean s.
Hypothesis Hcont : continuous mean.

(** The first four statements of [project] and of [reconstruct]: the
    observations as rows, and the mean repeated once per observation. *)
Lemma affine_prelude (src' : Mat) (s' : store) (e0 : store) (n d : nat)
    (k : Mat -> Mat -> M store Mat) (Q : result Mat -> store -> Prop) :
  s' = s ++ e0 ->
  n = (if row then rows src' else cols src') ->
  d = (if row then cols src' else rows src') ->
  total mean = d ->
  (forall dataT means e,
     rows dataT = n -> cols dataT = d -> rows means = n -> cols means = d ->
     allocated dataT (s ++ e) -> allocated means (s ++ e) ->
     read dataT (s ++ e) = observations row src' s' ->
     read means (s ++ e) = replicate n (mean_row mean s) ->
     wp (k dataT means) Q (s ++ e)) ->
  wp (let* data := convertTo src' empty 1 in
      let* dataT := (if row then ret data else transpose data) in
      let* mean1 := reshape_1_1 mean in
      let* means := repeat mean1 n 1 in
      k dataT means) Q s'.
Proof using Hmean Hcont.
  intros -> Hn Hd Htot Hk.
  set (X := read src' (s ++ e0)).
  assert (shape (rows src') (cols src') X) as HX by apply shape_read.
  apply wp_bind. unfold convertTo. apply wp_bind, wp_gets.
  apply wp_output_empty. fold X. rewrite mscale_1.
  pose proof (holds_alloc (s ++ e0) _ _ X HX) as Hdata.
  set (s1 := (s ++ e0) ++ [flatten (rows src') (cols src') X]) in *.
  apply wp_bind.
  apply wp_mono with (P := fun r s2 => exists dataT e,
    r = Ok dataT /\ s2 = s ++ e /\ rows dataT = n /\ cols dataT = d /\
    allocated dataT s2 /\
    read dataT s2 = observations row src' (s ++ e0)).
  { unfold observations. fold X. destruct row.
    - apply wp_ret. eexists _, _. split_and!; [done | | by subst | by subst | |].
      + unfold s1. by rewrite <- app_assoc.
      + apply allocated_fresh. unfold s1. rewrite !length_app. simpl. lia.
      + by apply holds_read.
    - unfold transpose. apply wp_bind, wp_gets, wp_alloc.
      rewrite (holds_read _ _ _ _ _ Hdata). simpl (rows _); simpl (cols _).
      eexists _, _. split_and!; [done | | by subst | by subst | |].
      + unfold s1. by rewrite <- !app_assoc.
      + apply allocated_fresh. rewrite !length_app. simpl. lia.
      + apply holds_read, holds_alloc, shape_mtranspose. }
  intros r s2 (dataT & e & -> & -> & Hrows & Hcols & Halloc & Hread).
  apply wp_bind, wp_reshape_1_1; [done|].
  apply wp_bind. unfold repeat. apply wp_bind, wp_gets, wp_alloc.
  rewrite (read_ext _ _ e) by (by apply allocated_reshaped).
  rewrite read_reshaped. simpl (map _ [_]). rewrite app_nil_r.
  rewrite concat_replicate_singleton.
  rewrite <- app_assoc. apply Hk.
  - done.
  - done.
  - simpl. rewrite rows_reshaped. lia.
  - simpl. rewrite cols_reshaped. lia.
  - rewrite app_assoc. intros b Hb. rewrite length_app. specialize (Halloc b Hb). lia.
  - rewrite app_assoc. apply allocated_fresh. rewrite !length_app. simpl. lia.
  - rewrite app_assoc. by rewrite read_ext.
  - rewrite app_assoc. apply holds_read. rewrite rows_reshaped, cols_reshaped.
    replace (1 * n) with n by lia. replace (total mean * 1) with d by lia.
    apply holds_alloc. split; [apply length_replicate|].
    apply Forall_replicate. by rewrite length_mean_row.
Qed.

End Affine.

Lemma shape_observations (row : bool) src s :
  shape (if row then rows src else cols src) (if row then cols src else rows src)
    (observations row src s).
Proof.
  unfold observations. destruct row; [apply shape_read | apply shape_mtranspose].
Qed.

Lemma shape_replicate n d (m : vec) : length m = d -> shape n d (replicate n m).
Proof. intros Hm. split; [apply length_replicate | by apply Forall_replicate]. Qed.

Ltac lookup_last :=
  repeat (rewrite lookup_app_r by (rewrite ?length_app; simpl; lia));
  rewrite ?length_app; simpl;
  match goal with |- [_] !! ?k = _ => replace k with 0 by lia end; done.

Section AffineRuns.
Variables (W mean : Mat) (row : bool) (s : store).
Hypothesis HW : allocated W s.
Hypothesis Hmean : allocated mean s.
Hypothesis Hcont : continuous mean.

(** [project] from a heap [s ++ e0], for a source with [n] observations
    of [d] features. *)
Lemma project_run (src : Mat) (e0 : store) (n d : nat) (Q : result Mat -> store -> Prop) :
  n = (if row then rows src else cols src) ->
  d = (if row then cols src else rows src) ->
  total mean = d -> rows W = d ->
  (forall Y e,
     rows Y = (if row then n else cols W) -> cols Y = (if row then cols W else n) ->
     allocated Y (s ++ e) ->
     observations row Y (s ++ e) =
       mmul (cols W) (msub (observations row src (s ++ e0)) (replicate n (mean_row mean s)))
         (read W s) ->
     Q (Ok Y) (s ++ e)) ->
  wp (project W mean src row) Q (s ++ e0).
Proof using HW Hmean Hcont.
  intros Hn Hd Htot HWr HQ. unfold project.
  rewrite <- Hd, <- Hn. rewrite bool_decide_false by (intros H; by apply H).
  apply (affine_prelude mean row s Hmean Hcont src (s ++ e0) e0 n d); [done..|].
  intros dataT means e Hr Hc Hmr Hmc Hda Hma Hrd Hrm.
  set (Xc := observations row src (s ++ e0)) in *.
  assert (shape n d Xc) as HXc by (subst n d; apply shape_observations).
  pose proof (length_mean_row mean s) as Hlm.
  (* subtract *)
  apply wp_bind. unfold subtract. rewrite same_size_true by congruence.
  apply wp_bind, wp_gets. apply wp_bind, wp_gets. rewrite Hrd, Hrm, Hr, Hc.
  apply wp_output_empty.
  set (D := msub Xc _).
  assert (shape n d D) as HD.
  { apply shape_msub; [done|]. apply shape_replicate. lia. }
  pose proof (holds_alloc (s ++ e) n d D HD) as HX.
  (* gemm *)
  apply wp_bind, wp_gemm_nn; [simpl; lia|]. simpl (rows _).
  rewrite (holds_read _ _ _ _ _ HX).
  rewrite <- app_assoc, (read_ext W s) by done.
  set (Yc := mmul (cols W) D (read W s)).
  assert (shape n (cols W) Yc) as HYc.
  { apply shape_mmul; [apply HD|]. apply (shape_read W s). }
  rewrite !length_app. simpl (length [_]).
  destruct row.
  - apply wp_ret. rewrite <- !app_assoc. apply HQ; [done | done | | ].
    + apply allocated_fresh. rewrite !length_app. simpl. lia.
    + unfold observations. cbv iota. apply (read_fresh _ _ _ _ Yc); [lookup_last | done].
  - unfold transpose. apply wp_bind, wp_gets, wp_alloc. simpl (rows _); simpl (cols _).
    rewrite (read_fresh _ _ _ _ Yc) by (done || lookup_last).
    rewrite <- !app_assoc.
    apply HQ; [done | done | |].
    + apply allocated_fresh. rewrite !length_app. simpl. lia.
    + unfold observations. cbv iota. simpl (rows _); simpl (cols _).
      rewrite (read_fresh _ _ _ _ (mtranspose n (cols W) Yc));
        [by apply mtranspose_involutive | | apply shape_mtranspose].
      lookup_last.
Qed.

Lemma reconstruct_run (src : Mat) (e0 : store) (n d : nat) (Q : result Mat -> store -> Prop) :
  n = (if row then rows src else cols src) ->
  d = (if row then cols src else rows src) ->
  total mean = d -> rows W = d -> cols W = d ->
  (forall X e,
     rows X = (if row then n else d) -> cols X = (if row then d else n) ->
     observations row X (s ++ e) =
       madd (mmul_nt (observations row src (s ++ e0)) (read W s))
            (replicate n (mean_row mean s)) ->
     Q (Ok X) (s ++ e)) ->
  wp (reconstruct W mean src row) Q (s ++ e0).
Proof using HW Hmean Hcont.
  intros Hn Hd Htot HWr HWc HQ. unfold reconstruct.
  rewrite <- Hd, <- Hn. rewrite bool_decide_false by (intros H; by apply H).
  apply (affine_prelude mean row s Hmean Hcont src (s ++ e0) e0 n d); [done..|].
  intros dataT means e Hr Hc Hmr Hmc Hda Hma Hrd Hrm.
  set (Yc := observations row src (s ++ e0)) in *.
  assert (shape n d Yc) as HYc by (subst n d; apply shape_observations).
  pose proof (length_mean_row mean s) as Hlm.
  apply wp_bind, wp_gemm_nt_plus; [congruence..|].
  rewrite Hrd, Hrm, Hr, HWr, (read_ext W s) by done.
  set (V := madd _ _).
  assert (shape n d V) as HV.
  { apply shape_madd; [|apply shape_replicate; lia].
    pose proof (shape_mmul_nt n Yc (read W s) (proj1 HYc)) as H.
    by rewrite length_read, HWr in H. }
  destruct row.
  - apply wp_ret. rewrite <- app_assoc. apply HQ; [done | done |].
    unfold observations. cbv iota. apply (read_fresh _ _ _ _ V); [lookup_last | done].
  - unfold transpose. apply wp_bind, wp_gets, wp_alloc. simpl (rows _); simpl (cols _).
    rewrite (holds_read _ _ _ _ _ (holds_alloc (s ++ e) n d V HV)).
    rewrite <- !app_assoc. apply HQ; [done | done |].
    unfold observations. cbv iota. simpl (rows _); simpl (cols _).
    rewrite (read_fresh _ _ _ _ (mtranspose n d V));
      [by apply mtranspose_involutive | | apply shape_mtranspose].
    lookup_last.
Qed.

End AffineRuns.

(** ** [compute] from the scatter matrices on *)

Section Outcome.
Variable solver : matrix -> vec * matrix.

Lemma solve_select_retains o s m :
  wp (LDA.solve solver m;; LDA.select)
     (fun r st => r = Ok tt -> retains (LDA._num_components o) (fst st)) (o, s).
Proof.
  apply wp_bind, solve_num_components; [by intros ??? [=]|]. intros o' s' Ho'.
  eapply wp_mono; [apply select_retains|]. intros r st Hr Hok.
  rewrite Ho' in Hr. auto.
Qed.

Lemma solve_select_ends o s m :
  wp (LDA.solve solver m;; LDA.select)
     (ends (fst (solver (read m s))) (snd (solver (read m s))) (LDA._num_components o))
     (o, s).
Proof.
  set (vals := fst (solver (read m s))). set (k := LDA._num_components o).
  destruct (decide (0 <= k <= Z.of_nat (length vals))%Z) as [Hk|Hk].
  - eapply wp_mono.
    { apply wp_conj; [by apply solve_select_succeeds|].
      apply wp_conj; [apply solve_select_run | apply solve_select_retains]. }
    intros r st (-> & Hsel & Hret). split; [by apply Hret|]. left. auto.
  - eapply wp_mono; [apply solve_select_overflow; fold vals k; lia|].
    intros r st (-> & Hk' & _ & _ & Hc & Hv). split; [done|]. right. auto.
Qed.

Lemma compute_tail o s nSw nSb D Sw Sb :
  holds s nSw D D Sw -> holds s nSb D D Sb ->
  wp (let* Swi := LDA.lift (inv (fresh D D nSw)) in
      let* M := LDA.lift (gemm Swi (fresh D D nSb) 1 None 0 empty 0) in
      LDA.solve solver M;; LDA.select)
     (fun r st =>
        (det D Sw = 0%Qc /\ r = Throw SingularMatrix /\ fst st = o) \/
        (det D Sw <> 0%Qc /\
         let A := mmul D (inverse D Sw) Sb in
         ends (fst (solver A)) (snd (solver A)) (LDA._num_components o) r st))
     (o, s).
Proof.
  intros HSw HSb.
  apply wp_bind, wp_lift. unfold inv. simpl (rows _); simpl (cols _).
  rewrite bool_decide_true by done.
  apply wp_bind, wp_gets. rewrite (holds_read _ _ _ _ _ HSw).
  case_bool_decide as Hdet; [by left|]. apply wp_alloc.
  pose proof (holds_alloc s D D (inverse D Sw) (shape_mat_of _ _ _)) as HSwi.
  apply wp_bind, wp_lift, wp_gemm_nn; [done|]. simpl (rows _); simpl (cols _).
  rewrite (holds_read _ _ _ _ _ HSwi), (holds_read _ _ _ _ _ (holds_app _ [_] _ _ _ _ HSb)).
  set (Mm := mmul D (inverse D Sw) Sb).
  assert (shape D D Mm) as HM.
  { apply shape_mmul; [by unfold inverse, mat_of; rewrite length_map, length_seq|].
    apply HSb. }
  pose proof (holds_alloc (s ++ [flatten D D (inverse D Sw)]) D D Mm HM) as HMm.
  eapply wp_mono; [apply solve_select_ends|].
  intros r st. rewrite (holds_read _ _ _ _ _ HMm). intros Hends. right. auto.
Qed.

Section Run.
Variables (o : LDA.t) (s : store) (src : Mat) (labels : list Z).

Let N := if LDA._dataAsRow o then rows src else cols src.
Let D := if LDA._dataAsRow o then cols src else rows src.
Let X := observations (LDA._dataAsRow o) src s.
Let mapped := LDA.mapped_labels labels.
Let C := length (cv.remove_dups labels).

(** With valid input and at least one observation, [compute] ends in
    one of three ways, decided by [Sw] and by the component count. *)
Lemma compute_outcome :
  channels src = 1 -> length labels = N -> 0 < N ->
  wp (LDA.compute solver src labels)
     (fun r st =>
        let Sw := Sw_of X mapped N D in
        let A := mmul D (inverse D Sw) (Sb_of X mapped N D C) in
        (det D Sw = 0%Qc /\ r = Throw SingularMatrix /\ fst st = LDA.clip C o) \/
        (det D Sw <> 0%Qc /\ shape D D A /\
         ends (fst (solver A)) (snd (solver A))
           (clipped (LDA._num_components o) (distinct labels)) r st))
     (o, s).
Proof.
  intros Hch Hlen HN.
  apply (compute_run solver o s src labels _ Hch Hlen HN).
  intros s' nSw nSb HSw HSb.
  eapply wp_mono; [by apply compute_tail|].
  intros r st [H|[Hdet H]]; [by left|]. right. split; [done|].
  fold N D X mapped C in H |- *.
  rewrite clip_num_components in H. unfold C in H at 2.
  rewrite remove_dups_length in H. split; [|done].
  apply shape_mmul; [by unfold inverse, mat_of; rewrite length_map, length_seq|].
  apply HSb.
Qed.

End Run.

End Outcome.

(** * The claims *)

Ltac by_computation := vm_compute; reflexivity.
Ltac by_decision := apply (bool_decide_unpack _); vm_compute; exact I.

(** ** Component selection: C1, C2 *)

Section SelectionClaims.
Variable solver : matrix -> vec * matrix.

(** C1.  A successful [compute] on labels with [C] distinct classes
    retains exactly [C-1] components when the configured
    [_num_components] is [<= 0] or [> C-1], and exactly the configured
    number otherwise; the clipped value is stored in [_num_components],
    so a later successful [compute] clips that value, not the original
    one. *)
Theorem compute_clips_num_components o s src labels :
  let r := LDA.compute solver src labels (o, s) in
  let requested := LDA._num_components o in
  let C := Z.of_nat (distinct labels) in
  let K := if bool_decide (requested <= 0 \/ requested > C - 1)%Z
           then (C - 1)%Z else requested in
  outcome r = Ok tt ->
  retains K (fst (final r)) /\
  forall src2 labels2,
    let r2 := LDA.compute solver src2 labels2 (final r) in
    outcome r2 = Ok tt ->
    retains (clipped K (distinct labels2)) (fst (final r2)).
Proof.
  intros r requested C K Hok.
  assert (retains K (fst (final r))) as HK by (by apply compute_retains).
  split; [done|]. intros src2 labels2 r2 Hok2.
  destruct HK as [<- _]. subst r2. destruct (final r) as [o' s'].
  by apply compute_retains.
Qed.

Lemma compute_selected o s src labels :
  wp (LDA.compute solver src labels)
     (fun r st => r = Ok tt ->
        exists A, selected (fst (solver A)) (snd (solver A)) (fst st) (snd st)) (o, s).
Proof.
  unfold LDA.compute.
  case_bool_decide; [by intros [=]|].
  apply wp_bind, wp_this.
  apply wp_bind, wp_lift, wp_any. intros [data|err] s1; [|by intros [=]].
  apply wp_bind, wp_lift, wp_any. intros [data'|err] s2; [|by intros [=]].
  case_bool_decide; [by intros [=]|].
  apply wp_bind, wp_assign.
  apply wp_bind, wp_lift, wp_any. intros [[Sw Sb]|err] s3; [|by intros [=]].
  apply wp_bind, wp_lift, wp_any. intros [Swi|err] s4; [|by intros [=]].
  apply wp_bind, wp_lift, wp_any. intros [Mm|err] s5; [|by intros [=]].
  eapply wp_mono; [apply solve_select_run|].
  intros r st Hsel Hok. eauto.
Qed.

(** C2.  After a successful [compute] with [K] components (the clipped
    request), the stored eigenvalues are the first [K] of the solver's
    eigenvalues taken in non-increasing order; column [j] of the stored
    eigenvector matrix is the solver's column for the [j]-th of them; and
    the order is that of a stable sort: it is a permutation of the
    solver's positions in which equal eigenvalues keep the order in which
    the solver returned them.  ([compute] is a function of its input, so
    a second run on the same input gives the same order.) *)
Theorem compute_sorts_eigenpairs o s src labels :
  let r := LDA.compute solver src labels (o, s) in
  outcome r = Ok tt ->
  exists A : matrix,
    let vals := fst (solver A) in
    let vecs := snd (solver A) in
    let idx := sort_indices false vals in
    let K := Z.to_nat (clipped (LDA._num_components o) (distinct labels)) in
    let retained := map (fun k => nth k vals 0%Qc) (take K idx) in
    K <= length vals /\
    read (LDA._eigenvalues (fst (final r))) (snd (final r)) = [retained] /\
    StronglySorted (fun x y => (y <= x)%Qc) retained /\
    read (LDA._eigenvectors (fst (final r))) (snd (final r)) =
      mat_of (length vecs) K (fun i j => mat_at vecs i (nth j idx 0)) /\
    idx ≡ₚ seq 0 (length vals) /\
    StronglySorted (precedes false vals) idx.
Proof.
  intros r Hok.
  destruct (compute_selected o s src labels Hok) as (A & HK & Hvals & Hvecs).
  destruct (compute_retains solver o s src labels Hok) as [Hnum _].
  fold r in HK, Hvals, Hvecs, Hnum. rewrite Hnum in HK, Hvals, Hvecs.
  exists A. simpl. split_and!; [done | done | | done | |].
  - apply (StronglySorted_fmap _ (precedes false (fst (solver A)))).
    + intros i j. apply precedes_descending.
    + eapply StronglySorted_app_1_l. rewrite take_drop. apply sort_indices_sorted.
  - apply sort_indices_perm.
  - apply sort_indices_sorted.
Qed.

End SelectionClaims.

Lemma compute_clips_num_components_witness :
  let r := LDA.compute diagonal_solver clusters_src [5; 5; 7; 7]%Z
             (untrained true 0, clusters_heap) in
  retains 1 (fst (final r)) /\
  forall src2 labels2,
    let r2 := LDA.compute diagonal_solver src2 labels2 (final r) in
    outcome r2 = Ok tt ->
    retains (clipped 1 (distinct labels2)) (fst (final r2)).
Proof.
  apply (compute_clips_num_components diagonal_solver (untrained true 0)
           clusters_heap clusters_src [5; 5; 7; 7]%Z).
  by_computation.
Defined.

(** Eight observations of three features in four classes, two components
    requested: the solver returns the eigenvalues 0, 2, 2 in that order,
    and [compute] keeps 2, 2 with the second and third eigenvector. *)
Lemma compute_sorts_eigenpairs_witness :
  let labels := [1; 1; 2; 2; 3; 3; 4; 4]%Z in
  let o := untrained true 2 in
  let r := LDA.compute diagonal_solver spread_src labels (o, spread_heap) in
  exists A : matrix,
    let vals := fst (diagonal_solver A) in
    let vecs := snd (diagonal_solver A) in
    let idx := sort_indices false vals in
    let K := Z.to_nat (clipped (LDA._num_components o) (distinct labels)) in
    let retained := map (fun k => nth k vals 0%Qc) (take K idx) in
    K <= length vals /\
    read (LDA._eigenvalues (fst (final r))) (snd (final r)) = [retained] /\
    StronglySorted (fun x y => (y <= x)%Qc) retained /\
    read (LDA._eigenvectors (fst (final r))) (snd (final r)) =
      mat_of (length vecs) K (fun i j => mat_at vecs i (nth j idx 0)) /\
    idx ≡ₚ seq 0 (length vals) /\
    StronglySorted (precedes false vals) idx.
Proof.
  apply (compute_sorts_eigenpairs diagonal_solver (untrained true 2)
           spread_heap spread_src [1; 1; 2; 2; 3; 3; 4; 4]%Z).
  by_computation.
Defined.

(** What that run stores. *)
Lemma compute_sorts_eigenpairs_example :
  let r := LDA.compute diagonal_solver spread_src [1; 1; 2; 2; 3; 3; 4; 4]%Z
             (untrained true 2, spread_heap) in
  outcome r = Ok tt /\
  read (LDA._eigenvalues (fst (final r))) (snd (final r)) = [[q 2; q 2]] /\
  read (LDA._eigenvectors (fst (final r))) (snd (final r))
    = [[q 0; q 0]; [q 1; q 0]; [q 0; q 1]].
Proof. split_and!; [by_computation | by_decision | by_decision]. Qed.

(** ** Scatter matrices: C3, C4 *)

Section ScatterClaims.
Variables (s : store) (b N D : nat) (X : matrix) (labels : list Z).

Let mapped := LDA.mapped_labels labels.
Let C := length (cv.remove_dups labels).

Lemma scatter_result :
  holds s b N D X -> length labels = N -> 0 < N ->
  wp (LDA.scatter (fresh N D b) mapped N D C)
     (fun r s' => exists Sw Sb,
        r = Ok (Sw, Sb) /\
        read (fresh N D b) s' = centered X mapped N D /\
        read Sw s' = mmul D (mtranspose N D (centered X mapped N D))
                       (centered X mapped N D) /\
        read Sb s' = Sb_of X mapped N D C) s.
Proof.
  intros Hd Hlen HN. apply (scatter_run s b N D C X mapped Hd).
  { intros i Hi. apply mapped_labels_lt. lia. }
  { done. }
  { intros c Hc. rewrite <- Hlen. by apply class_inhabited. }
  intros s' nSw nSb HR HSw HSb _. eexists _, _. split; [done|].
  by rewrite (holds_read _ _ _ _ _ HR), (holds_read _ _ _ _ _ HSw),
    (holds_read _ _ _ _ _ HSb).
Qed.






End ScatterClaims.

Lemma holds_clusters : holds clusters_heap 0 4 2 clusters.
Proof.
  split; [done|]. split; [done|]. by repeat constructor.
Qed.

Lemma holds_triple : holds triple_heap 0 5 2 triple.
Proof.
  split; [done|]. split; [done|]. by repeat constructor.
Qed.

(** On three observations 0, 0, 1 of one class the mean is the double
    nearest to 1/3, [0x1.5555555555555p-2], not 1/3: the first two rows
    become its opposite. *)
Lemma scatter_rounds_the_reciprocal :
  let r := LDA.scatter (fresh 3 1 0) [0; 0; 0] 3 1 1 thirds_heap in
  let third := Q2Qc (6004799503160661 # 2 ^ 54) in
  take 2 (read (fresh 3 1 0) (final r)) = [[(- third)%Qc]; [(- third)%Qc]] /\
  third <> (1 / q 3)%Qc.
Proof. split; by_decision. Qed.



(** ** Errors: C5, C6, C7 *)

Section ErrorClaims.
Variable solver : matrix -> vec * matrix.


(** C6.  When the number of samples differs from the number of labels,
    [compute] fails with [CV_StsBadArg] (the input error), the fields of
    the object are what they were, and so is every matrix that existed
    before the call, the previous eigenvectors and eigenvalues among
    them. *)
Theorem compute_rejects_label_count_mismatch o s src labels :
  let r := LDA.compute solver src labels (o, s) in
  (if LDA._dataAsRow o then rows src else cols src) <> length labels ->
  outcome r = Throw StsBadArg /\
  fst (final r) = o /\
  (forall m, allocated m s -> read m (snd (final r)) = read m s).
Proof.
  intros r Hne.
  destruct (compute_mismatch solver o s src labels Hne) as [Hr Ho].
  repeat split; [done..|]. intros m Hm.
  destruct (grows_compute solver s o [] src labels) as [e He].
  rewrite app_nil_r in He. fold r in He. rewrite He. by apply read_ext.
Qed.

(** C7 (as the code has it).  [compute] has no check of the number of
    classes.  On valid input whose labels are all the same, the clipping
    stores 0 in [_num_components], whatever was requested, and [compute]
    goes on to the inversion: it either returns, leaving a model with no
    component at all, or fails with [SingularMatrix]; it does not fail
    with the input error. *)
Theorem compute_single_class_retains_nothing o s src labels :
  let r := LDA.compute solver src labels (o, s) in
  let N := if LDA._dataAsRow o then rows src else cols src in
  distinct labels = 1 -> channels src = 1 -> length labels = N ->
  (outcome r = Ok tt \/ outcome r = Throw SingularMatrix) /\
  outcome r <> Throw StsBadArg /\
  LDA._num_components (fst (final r)) = 0%Z /\
  (outcome r = Ok tt -> retains 0 (fst (final r))).
Proof.
  intros r N HC Hch Hlen.
  assert (0 < N) as HN.
  { destruct labels; [by vm_compute in HC|]. simpl in Hlen. lia. }
  assert (clipped (LDA._num_components o) (distinct labels) = 0%Z) as HK.
  { rewrite HC. unfold clipped. by rewrite bool_decide_true by lia. }
  assert (outcome r = Ok tt -> retains 0 (fst (final r))) as Hret.
  { intros Hok. pose proof (compute_retains solver o s src labels Hok) as H.
    by rewrite HK in H. }
  destruct (compute_outcome solver o s src labels Hch Hlen HN) as [H|H].
  - destruct H as (_ & Hr & Ho). fold r in Hr, Ho. rewrite Hr, Ho.
    split_and!; [by right | done | | done].
    by rewrite clip_num_components, remove_dups_length.
  - destruct H as (_ & _ & Hnum & [(_ & Hr & _)|(Hk & _)]); fold r in Hnum.
    + fold r in Hr. rewrite HK in Hnum.
      split_and!; [by left | by rewrite Hr | done | done].
    + rewrite HK in Hk. exfalso. apply Hk. lia.
Qed.

End ErrorClaims.


Lemma compute_rejects_label_count_mismatch_witness :
  let r := LDA.compute diagonal_solver clusters_src [5; 5; 7]%Z
             (untrained true 0, clusters_heap) in
  outcome r = Throw StsBadArg /\
  fst (final r) = untrained true 0 /\
  (forall m, allocated m clusters_heap ->
     read m (snd (final r)) = read m clusters_heap).
Proof.
  apply (compute_rejects_label_count_mismatch diagonal_solver (untrained true 0)
           clusters_heap clusters_src [5; 5; 7]%Z).
  simpl. lia.
Defined.

Lemma compute_single_class_retains_nothing_witness :
  let r := LDA.compute diagonal_solver pair_src [7; 7]%Z (untrained true 0, pair_heap) in
  (outcome r = Ok tt \/ outcome r = Throw SingularMatrix) /\
  outcome r <> Throw StsBadArg /\
  LDA._num_components (fst (final r)) = 0%Z /\
  (outcome r = Ok tt -> retains 0 (fst (final r))).
Proof.
  apply (compute_single_class_retains_nothing diagonal_solver (untrained true 0)
           pair_heap pair_src [7; 7]%Z).
  - by_computation.
  - reflexivity.
  - reflexivity.
Defined.

(** C7 as stated fails: two observations of one class are accepted. *)
Lemma compute_accepts_single_class :
  distinct [7; 7]%Z = 1 /\
  outcome (LDA.compute diagonal_solver pair_src [7; 7]%Z
             (untrained true 0, pair_heap)) = Ok tt /\
  outcome (LDA.compute diagonal_solver pair_src [7; 7]%Z
             (untrained true 0, pair_heap)) <> Throw StsBadArg.
Proof.
  split; [by_computation|].
  assert (outcome (LDA.compute diagonal_solver pair_src [7; 7]%Z
             (untrained true 0, pair_heap)) = Ok tt) as H by by_computation.
  split; [exact H|]. rewrite H. discriminate.
Qed.

(** ** The affine maps: C8, C9 *)




(** C9 (as the code has it).  [reconstruct(src)] never reads the learned
    model: its outcome and the heap it leaves depend only on [src] and on
    the [_dataAsRow] flag, and the object is unchanged.  With
    [_dataAsRow] set the result is [src * src^T]. *)
Theorem reconstruct_ignores_model src o s :
  let r := LDA.reconstruct src (o, s) in
  fst (final r) = o /\
  (forall o', LDA._dataAsRow o' = LDA._dataAsRow o ->
     outcome (LDA.reconstruct src (o', s)) = outcome r /\
     snd (final (LDA.reconstruct src (o', s))) = snd (final r)) /\
  (LDA._dataAsRow o = true ->
     exists dst,
       outcome r = Ok dst /\ rows dst = rows src /\ cols dst = rows src /\
       read dst (snd (final r)) = mmul_nt (read src s) (read src s)).
Proof.
  intros r. split_and!.
  - apply reconstruct_object.
  - intros o'. apply reconstruct_independent.
  - intros Hrow. subst r. rewrite (reconstruct_as_rows src o s Hrow).
    eexists. split_and!; [done..|]. simpl.
    apply read_fresh; [by rewrite list_lookup_middle|].
    pose proof (shape_mmul_nt (rows src) (read src s) (read src s) (length_read src s)) as H.
    by rewrite length_read in H.
Qed.

(** C9 as stated fails for column-oriented data: on a square [src] the
    result is neither [src * src^T] nor [src^T * src], and on a [src]
    that is not square the product is rejected. *)
Lemma reconstruct_by_columns_is_no_outer_product :
  let src := fresh 2 2 0 in
  let r := LDA.reconstruct src (untrained false 0, shift_heap) in
  read src shift_heap = shift /\
  (exists dst, outcome r = Ok dst /\
     read dst (snd (final r)) = mzeros 2 2 /\
     read dst (snd (final r)) <> mmul_nt shift shift /\
     read dst (snd (final r)) <> mmul 2 (mtranspose 2 2 shift) shift) /\
  outcome (LDA.reconstruct clusters_src (untrained false 0, clusters_heap))
    = Throw StsAssert.
Proof.
  split; [by_decision|]. split.
  - eexists. split; [by_computation|]. split_and!; by_decision.
  - by_computation.
Qed.

Lemma reconstruct_ignores_model_witness :
  let src := fresh 2 2 0 in
  let r := LDA.reconstruct src (untrained true 0, shift_heap) in
  LDA._dataAsRow (untrained true 0) = true /\
  exists dst,
    outcome r = Ok dst /\
    read dst (snd (final r)) = mmul_nt (read src shift_heap) (read src shift_heap).
Proof.
  split; [reflexivity|].
  destruct (reconstruct_ignores_model (fresh 2 2 0) (untrained true 0) shift_heap)
    as (_ & _ & Hrow).
  destruct (Hrow eq_refl) as (dst & Hdst & _ & _ & Hread).
  by exists dst.
Defined.

(** ** Frame: C10 *)

Section FrameClaim.
Variable solver : matrix -> vec * matrix.

(** C10.  [compute] does not modify its caller's matrices: whatever the
    outcome, the heap after the call is the heap before it followed by
    the matrices the call allocated, so [src] reads as before.  The
    class-mean centring writes to the copy made by [clone] or
    [transpose].  ([labels] is a [const vector<int>&]: a value, which the
    code has no means to change.) *)
Theorem compute_leaves_src_unchanged o s src labels :
  let r := LDA.compute solver src labels (o, s) in
  allocated src s ->
  read src (snd (final r)) = read src s /\
  take (length s) (snd (final r)) = s.
Proof.
  intros r Hsrc.
  destruct (grows_compute solver s o [] src labels) as [e He].
  rewrite app_nil_r in He. fold r in He. rewrite He. split.
  - by apply read_ext.
  - by rewrite take_app_length.
Qed.

End FrameClaim.

Lemma compute_leaves_src_unchanged_witness :
  let r := LDA.compute diagonal_solver clusters_src [5; 5; 7; 7]%Z
             (untrained true 0, clusters_heap) in
  read clusters_src (snd (final r)) = read clusters_src clusters_heap /\
  take (length clusters_heap) (snd (final r)) = clusters_heap.
Proof.
  apply (compute_leaves_src_unchanged diagonal_solver (untrained true 0)
           clusters_heap clusters_src [5; 5; 7; 7]%Z).
  apply allocated_fresh. simpl. lia.
Defined.

(** * Further properties of the code *)

(** ** [subspace::project] and [subspace::reconstruct]: how a call ends *)

Lemma convertTo_empty m s :
  convertTo m empty 1 s =
    (Ok (fresh (rows m) (cols m) (length s)), s ++ [flatten (rows m) (cols m) (read m s)]).
Proof.
  unfold convertTo, bind, gets, output. rewrite fits_empty. unfold alloc.
  by rewrite mscale_1.
Qed.

Lemma wp_convertTo_empty m (Q : result Mat -> store -> Prop) s :
  Q (Ok (fresh (rows m) (cols m) (length s)))
    (s ++ [flatten (rows m) (cols m) (read m s)]) ->
  wp (convertTo m empty 1) Q s.
Proof. intros HQ. unfold wp. by rewrite convertTo_empty. Qed.

Lemma wp_transpose m (Q : result Mat -> store -> Prop) s :
  Q (Ok (fresh (cols m) (rows m) (length s)))
    (s ++ [flatten (cols m) (rows m) (mtranspose (rows m) (cols m) (read m s))]) ->
  wp (transpose m) Q s.
Proof. intros HQ. unfold transpose. by apply wp_bind, wp_gets, wp_alloc. Qed.

Lemma wp_reshape_1_1_broken {St} mean (Q : result Mat -> St -> Prop) st :
  ~ continuous mean -> Q (Throw BadStep) st -> wp (reshape_1_1 mean) Q st.
Proof.
  intros Hc HQ. unfold reshape_1_1, continuous in *.
  rewrite bool_decide_false by tauto. by rewrite bool_decide_false by tauto.
Qed.

(** The statements shared by [project] and [reconstruct], on headers
    only: the shapes of the canonical data and of the repeated mean. *)
Lemma affine_headers mean src (row : bool) s n d
    (k : Mat -> Mat -> M store Mat) (Q : result Mat -> store -> Prop) :
  n = (if row then rows src else cols src) ->
  d = (if row then cols src else rows src) ->
  total mean = d -> continuous mean ->
  (forall dataT means s',
     rows dataT = n -> cols dataT = d -> rows means = n -> cols means = d ->
     wp (k dataT means) Q s') ->
  wp (let* data := convertTo src empty 1 in
      let* dataT := (if row then ret data else transpose data) in
      let* mean1 := reshape_1_1 mean in
      let* means := repeat mean1 n 1 in
      k dataT means) Q s.
Proof.
  intros Hn Hd Htot Hcont Hk.
  apply wp_bind, wp_convertTo_empty.
  assert (forall dataT s', rows dataT = n -> cols dataT = d ->
            wp (let* mean1 := reshape_1_1 mean in
                let* means := repeat mean1 n 1 in k dataT means) Q s') as Hrest.
  { intros dataT s' Hr Hc.
    apply wp_bind, wp_reshape_1_1; [done|].
    apply wp_bind. unfold repeat. apply wp_bind, wp_gets, wp_alloc.
    apply Hk; [done | done | |]; simpl.
    - rewrite rows_reshaped. lia.
    - rewrite cols_reshaped. lia. }
  destruct row.
  - apply wp_bind, wp_ret. by apply Hrest.
  - apply wp_bind, wp_transpose. by apply Hrest.
Qed.

Lemma wp_subtract_empty a b (Q : result Mat -> store -> Prop) s :
  rows a = rows b -> cols a = cols b ->
  Q (Ok (fresh (rows a) (cols a) (length s)))
    (s ++ [flatten (rows a) (cols a) (msub (read a s) (read b s))]) ->
  wp (subtract a b empty) Q s.
Proof.
  intros Hr Hc HQ. unfold subtract. rewrite same_size_true by done.
  apply wp_bind, wp_gets. apply wp_bind, wp_gets. by apply wp_output_empty.
Qed.

Lemma wp_gemm_mismatch a b alpha c beta dst (Q : result Mat -> store -> Prop) s :
  cols a <> rows b -> Q (Throw StsAssert) s -> wp (gemm a b alpha c beta dst 0) Q s.
Proof.
  intros Hne HQ. unfold gemm. simpl (Z.testbit _ _). cbv iota beta.
  by rewrite bool_decide_false.
Qed.

(** X1.  How [subspace::project] ends, for every input.  [d] is the
    feature count of [src].  When it differs from [mean.total()] the
    call throws [CV_StsUnmatchedSizes] before anything is allocated;
    otherwise a mean that [reshape(1,1)] cannot flatten gives
    [CV_BadStep], a basis whose row count is not [d] fails the assertion
    of [gemm], and in every remaining case the call returns a matrix. *)
Theorem subspace_project_outcome W mean src (dataAsRow : bool) s :
  let d := if dataAsRow then cols src else rows src in
  let r := project W mean src dataAsRow s in
  (d <> total mean -> outcome r = Throw StsUnmatchedSizes /\ final r = s) /\
  (d = total mean -> ~ continuous mean -> outcome r = Throw BadStep) /\
  (d = total mean -> continuous mean -> rows W <> d -> outcome r = Throw StsAssert) /\
  (d = total mean -> continuous mean -> rows W = d -> succeeds r).
Proof.
  intros d r. subst r. unfold project. fold d.
  set (n := if dataAsRow then rows src else cols src).
  split_and!.
  - intros Hne. by rewrite bool_decide_true.
  - intros Heq Hnc. rewrite bool_decide_false by (intros H; by apply H).
    match goal with |- outcome (?m s) = ?e => change (wp m (fun r _ => r = e) s) end.
    apply wp_bind, wp_convertTo_empty.
    destruct dataAsRow.
    + apply wp_bind, wp_ret. by apply wp_bind, wp_reshape_1_1_broken.
    + apply wp_bind, wp_transpose. by apply wp_bind, wp_reshape_1_1_broken.
  - intros Heq Hc HW. rewrite bool_decide_false by (intros H; by apply H).
    match goal with |- outcome (?m s) = ?e => change (wp m (fun r _ => r = e) s) end.
    apply (affine_headers mean src dataAsRow s n d); [done..|].
    intros dataT means s' Hr Hcd Hmr Hmc.
    apply wp_bind, wp_subtract_empty; [congruence..|].
    apply wp_bind, wp_gemm_mismatch; [simpl; congruence|done].
  - intros Heq Hc HW. rewrite bool_decide_false by (intros H; by apply H).
    match goal with |- succeeds (?m s) => change (wp m (fun r _ => exists a, r = Ok a) s) end.
    apply (affine_headers mean src dataAsRow s n d); [done..|].
    intros dataT means s' Hr Hcd Hmr Hmc.
    apply wp_bind, wp_subtract_empty; [congruence..|].
    apply wp_bind, wp_gemm_nn; [simpl; congruence|].
    destruct dataAsRow; [apply wp_ret | apply wp_transpose]; eauto.
Qed.

Lemma wp_gemm_nt_mismatch a b alpha c beta dst (Q : result Mat -> store -> Prop) s :
  cols a <> cols b -> Q (Throw StsAssert) s ->
  wp (gemm a b alpha c beta dst GEMM_2_T) Q s.
Proof.
  intros Hne HQ. unfold gemm, GEMM_2_T. simpl (Z.testbit _ _). cbv iota beta.
  by rewrite bool_decide_false.
Qed.

Lemma wp_gemm_nt_plus_mismatch a b alpha c beta dst (Q : result Mat -> store -> Prop) s :
  cols a = cols b -> rows c <> rows a \/ cols c <> rows b -> Q (Throw StsAssert) s ->
  wp (gemm a b alpha (Some c) beta dst GEMM_2_T) Q s.
Proof.
  intros Heq Hne HQ. unfold gemm, GEMM_2_T. simpl (Z.testbit _ _). cbv iota beta.
  rewrite bool_decide_true by done.
  apply wp_bind, wp_gets. apply wp_bind, wp_gets.
  by rewrite bool_decide_false by tauto.
Qed.

Lemma subspace_project_outcome_witness :
  succeeds (project (fresh 2 2 1) (fresh 1 2 2) (fresh 4 2 0) true affine_heap).
Proof.
  apply (subspace_project_outcome (fresh 2 2 1) (fresh 1 2 2) (fresh 4 2 0) true
           affine_heap).
  - reflexivity.
  - by left.
  - reflexivity.
Defined.

(** X2.  How [subspace::reconstruct] ends, for every input.  The size
    check at lines 54-58 compares [mean.total()] with the number of
    coordinates per sample of [src] (its columns, for row data), and
    [gemm] then needs [W] to have that many columns and, for the added
    mean, that many rows: the call returns only for a square [W] whose
    order is both the coordinate count of [src] and [mean.total()]. *)
Theorem subspace_reconstruct_outcome W mean src (dataAsRow : bool) s :
  let d := if dataAsRow then cols src else rows src in
  let r := reconstruct W mean src dataAsRow s in
  (d <> total mean -> outcome r = Throw StsUnmatchedSizes /\ final r = s) /\
  (d = total mean -> ~ continuous mean -> outcome r = Throw BadStep) /\
  (d = total mean -> continuous mean -> cols W <> d \/ rows W <> d ->
     outcome r = Throw StsAssert) /\
  (d = total mean -> continuous mean -> cols W = d -> rows W = d -> succeeds r).
Proof.
  intros d r. subst r. unfold reconstruct. fold d.
  set (n := if dataAsRow then rows src else cols src).
  split_and!.
  - intros Hne. by rewrite bool_decide_true.
  - intros Heq Hnc. rewrite bool_decide_false by (intros H; by apply H).
    match goal with |- outcome (?m s) = ?e => change (wp m (fun r _ => r = e) s) end.
    apply wp_bind, wp_convertTo_empty.
    destruct dataAsRow.
    + apply wp_bind, wp_ret. by apply wp_bind, wp_reshape_1_1_broken.
    + apply wp_bind, wp_transpose. by apply wp_bind, wp_reshape_1_1_broken.
  - intros Heq Hc HW. rewrite bool_decide_false by (intros H; by apply H).
    match goal with |- outcome (?m s) = ?e => change (wp m (fun r _ => r = e) s) end.
    apply (affine_headers mean src dataAsRow s n d); [done..|].
    intros dataT means s' Hr Hcd Hmr Hmc. apply wp_bind.
    destruct (decide (cols W = d)) as [HWc|HWc].
    + apply wp_gemm_nt_plus_mismatch; [congruence | | done].
      right. destruct HW; congruence.
    + apply wp_gemm_nt_mismatch; [congruence | done].
  - intros Heq Hc HWc HWr. rewrite bool_decide_false by (intros H; by apply H).
    match goal with |- succeeds (?m s) => change (wp m (fun r _ => exists a, r = Ok a) s) end.
    apply (affine_headers mean src dataAsRow s n d); [done..|].
    intros dataT means s' Hr Hcd Hmr Hmc.
    apply wp_bind, wp_gemm_nt_plus; [congruence..|].
    destruct dataAsRow; [apply wp_ret | apply wp_transpose]; eauto.
Qed.

Lemma subspace_reconstruct_outcome_witness :
  outcome (reconstruct (fresh 2 1 1) (fresh 1 2 2) (fresh 4 2 0) true reduced_heap)
    = Throw StsAssert.
Proof.
  apply (subspace_reconstruct_outcome (fresh 2 1 1) (fresh 1 2 2) (fresh 4 2 0) true
           reduced_heap).
  - reflexivity.
  - by left.
  - left. simpl. lia.
Defined.

(** What a successful [project] tells about its arguments and its result. *)
Lemma project_headers W mean src (row : bool) s (Q : result Mat -> store -> Prop) :
  let n := if row then rows src else cols src in
  let d := if row then cols src else rows src in
  (forall e s', Q (Throw e) s') ->
  (forall Y s',
     total mean = d -> rows W = d ->
     rows Y = (if row then n else cols W) -> cols Y = (if row then cols W else n) ->
     Q (Ok Y) s') ->
  wp (project W mean src row) Q s.
Proof.
  intros n d Hthrow Hok. unfold project. fold n d.
  case_bool_decide as Htot; [apply Hthrow|].
  assert (d = total mean) as Hd by (destruct (decide (d = total mean)); tauto).
  apply wp_bind, wp_convertTo_empty.
  assert (forall dataT s', rows dataT = n -> cols dataT = d ->
    wp (let* mean1 := reshape_1_1 mean in
        let* means := repeat mean1 n 1 in
        let* X := subtract dataT means empty in
        let* Y := gemm X W 1 None 0 empty 0 in
        if row then ret Y else transpose Y) Q s') as Hrest.
  { intros dataT s' Hr Hc. apply wp_bind.
    destruct (decide (rows mean = 1)) as [Hr1|Hr1];
      [|destruct (decide (step mean = cols mean)) as [Hst|Hst]].
    3: { apply wp_reshape_1_1_broken; [unfold continuous; tauto | apply Hthrow]. }
    all: (apply wp_reshape_1_1; [unfold continuous; tauto|]);
      apply wp_bind; unfold repeat; apply wp_bind, wp_gets, wp_alloc;
      (apply wp_bind, wp_subtract_empty;
         [simpl; rewrite rows_reshaped; lia | simpl; rewrite cols_reshaped; lia |]);
      apply wp_bind;
      (destruct (decide (rows W = d)) as [HWr|HWr];
        [ apply wp_gemm_nn; [simpl; congruence|];
          destruct row; [apply wp_ret | apply wp_transpose];
          apply Hok; simpl; congruence
        | apply wp_gemm_mismatch; [simpl; congruence | apply Hthrow] ]). }
  destruct row.
  - apply wp_bind, wp_ret. by apply Hrest.
  - apply wp_bind, wp_transpose. by apply Hrest.
Qed.

Lemma project_ok_headers W mean src (row : bool) s Y s' :
  project W mean src row s = (Ok Y, s') ->
  total mean = (if row then cols src else rows src) /\
  rows W = (if row then cols src else rows src) /\
  rows Y = (if row then rows src else cols W) /\
  cols Y = (if row then cols W else cols src).
Proof.
  intros Hp.
  pose proof (project_headers W mean src row s
    (fun r _ => forall Y, r = Ok Y ->
       total mean = (if row then cols src else rows src) /\
       rows W = (if row then cols src else rows src) /\
       rows Y = (if row then rows src else cols W) /\
       cols Y = (if row then cols W else cols src))) as H.
  unfold wp in H. rewrite Hp in H. apply H; [by intros ? ? ? [=] | | done].
  intros Y' _ Htot HWr Hr Hc Y'' [= <-]. by destruct row.
Qed.

(** X3.  With a basis that is not square (fewer components than
    features), [reconstruct] never undoes [project]: the composition
    never returns, and whenever [project] itself succeeds the error is
    the [CV_StsUnmatchedSizes] of [reconstruct]'s size check. *)
Theorem project_then_reconstruct_needs_square_basis W mean src (dataAsRow : bool) s :
  let r := (let* Y := project W mean src dataAsRow in
            reconstruct W mean Y dataAsRow) s in
  rows W <> cols W ->
  ~ succeeds r /\
  (succeeds (project W mean src dataAsRow s) -> outcome r = Throw StsUnmatchedSizes).
Proof.
  intros r Hns. subst r. unfold bind.
  destruct (project W mean src dataAsRow s) as [[Y|e] s1] eqn:Hp.
  - destruct (project_ok_headers _ _ _ _ _ _ _ Hp) as (Htot & HWr & HYr & HYc).
    assert (reconstruct W mean Y dataAsRow s1 = (Throw StsUnmatchedSizes, s1)) as ->.
    { unfold reconstruct. rewrite bool_decide_true; [done|].
      destruct dataAsRow; congruence. }
    split; [by intros [a [=]] | done].
  - split; [by intros [a [=]] | by intros [a [=]]].
Qed.

Lemma project_then_reconstruct_needs_square_basis_witness :
  let r := (let* Y := project (fresh 2 1 1) (fresh 1 2 2) (fresh 4 2 0) true in
            reconstruct (fresh 2 1 1) (fresh 1 2 2) Y true) reduced_heap in
  ~ succeeds r /\
  (succeeds (project (fresh 2 1 1) (fresh 1 2 2) (fresh 4 2 0) true reduced_heap) ->
   outcome r = Throw StsUnmatchedSizes).
Proof.
  apply (project_then_reconstruct_needs_square_basis (fresh 2 1 1) (fresh 1 2 2)
           (fresh 4 2 0) true reduced_heap).
  simpl. lia.
Defined.

(** ** [subspace::project] and [subspace::reconstruct]: what they return *)

(** X4.  [subspace::project] returns [(X - mean) * W]: [X] is [src] with
    the observations as rows, the mean is subtracted from every row, and
    the result has one row per observation and one column per column of
    [W]; for column data the result is handed back transposed. *)
Theorem project_centres_then_multiplies W mean src (dataAsRow : bool) s :
  let n := if dataAsRow then rows src else cols src in
  let d := if dataAsRow then cols src else rows src in
  let r := project W mean src dataAsRow s in
  allocated W s -> allocated mean s -> continuous mean ->
  total mean = d -> rows W = d ->
  exists Y,
    outcome r = Ok Y /\
    rows Y = (if dataAsRow then n else cols W) /\
    cols Y = (if dataAsRow then cols W else n) /\
    observations dataAsRow Y (final r) =
      mmul (cols W)
        (msub (observations dataAsRow src s) (replicate n (mean_row mean s)))
        (read W s).
Proof.
  intros n d r HW Hmean Hcont Htot HWr.
  assert (wp (project W mean src dataAsRow) (fun r s' => exists Y, r = Ok Y /\
      rows Y = (if dataAsRow then n else cols W) /\
      cols Y = (if dataAsRow then cols W else n) /\
      observations dataAsRow Y s' =
        mmul (cols W)
          (msub (observations dataAsRow src s) (replicate n (mean_row mean s)))
          (read W s)) (s ++ [])) as Hwp.
  { apply (project_run W mean dataAsRow s HW Hmean Hcont src [] n d); [done..|].
    intros Y e HYr HYc _ Hobs. rewrite app_nil_r in Hobs. eauto. }
  rewrite app_nil_r in Hwp. exact Hwp.
Qed.

Lemma project_centres_then_multiplies_witness :
  let W := fresh 2 2 1 in
  let mean := fresh 1 2 2 in
  let src := fresh 4 2 0 in
  let r := project W mean src true affine_heap in
  exists Y,
    outcome r = Ok Y /\
    rows Y = 4 /\ cols Y = 2 /\
    observations true Y (final r) =
      mmul (cols W)
        (msub (observations true src affine_heap)
              (replicate 4 (mean_row mean affine_heap)))
        (read W affine_heap).
Proof.
  apply (project_centres_then_multiplies (fresh 2 2 1) (fresh 1 2 2) (fresh 4 2 0)
           true affine_heap).
  - apply allocated_fresh. simpl. lia.
  - apply allocated_fresh. simpl. lia.
  - by left.
  - reflexivity.
  - reflexivity.
Defined.

(** X5.  [subspace::reconstruct] returns [Y * W^T + mean]: [Y] is [src]
    with the observations as rows, and the mean is added to every row of
    the product; the result has the shape of [src]. *)
Theorem reconstruct_multiplies_then_adds_mean W mean src (dataAsRow : bool) s :
  let n := if dataAsRow then rows src else cols src in
  let d := if dataAsRow then cols src else rows src in
  let r := reconstruct W mean src dataAsRow s in
  allocated W s -> allocated mean s -> continuous mean ->
  total mean = d -> rows W = d -> cols W = d ->
  exists X,
    outcome r = Ok X /\
    rows X = rows src /\ cols X = cols src /\
    observations dataAsRow X (final r) =
      madd (mmul_nt (observations dataAsRow src s) (read W s))
           (replicate n (mean_row mean s)).
Proof.
  intros n d r HW Hmean Hcont Htot HWr HWc.
  assert (wp (reconstruct W mean src dataAsRow) (fun r s' => exists X, r = Ok X /\
      rows X = rows src /\ cols X = cols src /\
      observations dataAsRow X s' =
        madd (mmul_nt (observations dataAsRow src s) (read W s))
             (replicate n (mean_row mean s))) (s ++ [])) as Hwp.
  { apply (reconstruct_run W mean dataAsRow s HW Hmean Hcont src [] n d); [done..|].
    intros X e HXr HXc Hobs. rewrite app_nil_r in Hobs.
    exists X. subst n d. by destruct dataAsRow. }
  rewrite app_nil_r in Hwp. exact Hwp.
Qed.

Lemma reconstruct_multiplies_then_adds_mean_witness :
  let W := fresh 2 2 1 in
  let mean := fresh 1 2 2 in
  let src := fresh 4 2 0 in
  let r := reconstruct W mean src true affine_heap in
  exists X,
    outcome r = Ok X /\
    rows X = rows src /\ cols X = cols src /\
    observations true X (final r) =
      madd (mmul_nt (observations true src affine_heap) (read W affine_heap))
           (replicate 4 (mean_row mean affine_heap)).
Proof.
  apply (reconstruct_multiplies_then_adds_mean (fresh 2 2 1) (fresh 1 2 2) (fresh 4 2 0)
           true affine_heap).
  - apply allocated_fresh. simpl. lia.
  - apply allocated_fresh. simpl. lia.
  - by left.
  - reflexivity.
  - reflexivity.
  - reflexivity.
Defined.

Lemma observations_transposed src srcT s :
  rows srcT = cols src -> cols srcT = rows src ->
  read srcT s = mtranspose (rows src) (cols src) (read src s) ->
  observations false srcT s = observations true src s.
Proof.
  intros Hr Hc Hread. unfold observations. rewrite Hread, Hr, Hc.
  apply mtranspose_involutive, shape_read.
Qed.

Lemma read_of_observations Y YT s s' :
  rows YT = cols Y -> cols YT = rows Y ->
  observations false YT s' = observations true Y s ->
  read YT s' = mtranspose (rows Y) (cols Y) (read Y s).
Proof.
  intros Hr Hc Hobs. unfold observations in Hobs.
  rewrite <- Hobs, <- Hr, <- Hc. symmetry.
  apply mtranspose_involutive, shape_read.
Qed.

(** X6.  The orientation flag does not change what [project] computes:
    on the same observations given once as rows and once as columns, the
    column-oriented result is the transpose of the row-oriented one. *)
Theorem project_agrees_across_orientations W mean src srcT s :
  let r := project W mean src true s in
  let rT := project W mean srcT false s in
  allocated W s -> allocated mean s -> continuous mean ->
  total mean = cols src -> rows W = cols src ->
  rows srcT = cols src -> cols srcT = rows src ->
  read srcT s = mtranspose (rows src) (cols src) (read src s) ->
  exists Y YT,
    outcome r = Ok Y /\ outcome rT = Ok YT /\
    rows YT = cols Y /\ cols YT = rows Y /\
    read YT (final rT) = mtranspose (rows Y) (cols Y) (read Y (final r)).
Proof.
  intros r rT HW Hmean Hcont Htot HWr Hr Hc Hread. subst r rT.
  pose proof (project_run W mean true s HW Hmean Hcont src [] (rows src) (cols src)
    (fun r s' => exists Y, r = Ok Y /\ rows Y = rows src /\ cols Y = cols W /\
       read Y s' = mmul (cols W)
         (msub (observations true src s) (replicate (rows src) (mean_row mean s)))
         (read W s))) as H1.
  pose proof (project_run W mean false s HW Hmean Hcont srcT [] (rows src) (cols src)
    (fun r s' => exists Y, r = Ok Y /\ rows Y = cols W /\ cols Y = rows src /\
       observations false Y s' = mmul (cols W)
         (msub (observations true src s) (replicate (rows src) (mean_row mean s)))
         (read W s))) as H2.
  rewrite app_nil_r in H1, H2.
  destruct H1 as (Y & HY & HYr & HYc & HYv); [done..| |].
  { intros Y e HYr HYc _ Hobs. eauto. }
  destruct H2 as (YT & HYT & HYTr & HYTc & HYTv); [done..| |].
  { intros Y' e HYr' HYc' _ Hobs.
    rewrite (observations_transposed src srcT s) in Hobs by done. eauto. }
  exists Y, YT. split_and!; [done | done | congruence | congruence |].
  apply read_of_observations; [congruence | congruence |].
  unfold observations at 2. by rewrite HYv.
Qed.

Lemma project_agrees_across_orientations_witness :
  let W := fresh 2 2 1 in
  let mean := fresh 1 2 2 in
  let r := project W mean (fresh 4 2 0) true oriented_heap in
  let rT := project W mean (fresh 2 4 3) false oriented_heap in
  exists Y YT,
    outcome r = Ok Y /\ outcome rT = Ok YT /\
    rows YT = cols Y /\ cols YT = rows Y /\
    read YT (final rT) = mtranspose (rows Y) (cols Y) (read Y (final r)).
Proof.
  apply (project_agrees_across_orientations (fresh 2 2 1) (fresh 1 2 2) (fresh 4 2 0)
           (fresh 2 4 3) oriented_heap).
  - apply allocated_fresh. simpl. lia.
  - apply allocated_fresh. simpl. lia.
  - by left.
  - reflexivity.
  - reflexivity.
  - reflexivity.
  - reflexivity.
  - by_decision.
Defined.

(** X7.  The orientation flag does not change what [reconstruct]
    computes either: the column-oriented result is the transpose of the
    row-oriented one. *)
Theorem reconstruct_agrees_across_orientations W mean src srcT s :
  let r := reconstruct W mean src true s in
  let rT := reconstruct W mean srcT false s in
  allocated W s -> allocated mean s -> continuous mean ->
  total mean = cols src -> rows W = cols src -> cols W = cols src ->
  rows srcT = cols src -> cols srcT = rows src ->
  read srcT s = mtranspose (rows src) (cols src) (read src s) ->
  exists X XT,
    outcome r = Ok X /\ outcome rT = Ok XT /\
    rows XT = cols X /\ cols XT = rows X /\
    read XT (final rT) = mtranspose (rows X) (cols X) (read X (final r)).
Proof.
  intros r rT HW Hmean Hcont Htot HWr HWc Hr Hc Hread. subst r rT.
  pose proof (reconstruct_run W mean true s HW Hmean Hcont src [] (rows src) (cols src)
    (fun r s' => exists X, r = Ok X /\ rows X = rows src /\ cols X = cols src /\
       read X s' = madd (mmul_nt (observations true src s) (read W s))
                     (replicate (rows src) (mean_row mean s)))) as H1.
  pose proof (reconstruct_run W mean false s HW Hmean Hcont srcT [] (rows src) (cols src)
    (fun r s' => exists X, r = Ok X /\ rows X = cols src /\ cols X = rows src /\
       observations false X s' =
         madd (mmul_nt (observations true src s) (read W s))
              (replicate (rows src) (mean_row mean s)))) as H2.
  rewrite app_nil_r in H1, H2.
  destruct H1 as (X & HX & HXr & HXc & HXv); [done..| |].
  { intros X e HXr HXc Hobs. eauto. }
  destruct H2 as (XT & HXT & HXTr & HXTc & HXTv); [done..| |].
  { intros X' e HXr' HXc' Hobs.
    rewrite (observations_transposed src srcT s) in Hobs by done. eauto. }
  exists X, XT. split_and!; [done | done | congruence | congruence |].
  apply read_of_observations; [congruence | congruence |].
  unfold observations at 2. by rewrite HXv.
Qed.

Lemma reconstruct_agrees_across_orientations_witness :
  let W := fresh 2 2 1 in
  let mean := fresh 1 2 2 in
  let r := reconstruct W mean (fresh 4 2 0) true oriented_heap in
  let rT := reconstruct W mean (fresh 2 4 3) false oriented_heap in
  exists X XT,
    outcome r = Ok X /\ outcome rT = Ok XT /\
    rows XT = cols X /\ cols XT = rows X /\
    read XT (final rT) = mtranspose (rows X) (cols X) (read X (final r)).
Proof.
  apply (reconstruct_agrees_across_orientations (fresh 2 2 1) (fresh 1 2 2)
           (fresh 4 2 0) (fresh 2 4 3) oriented_heap).
  - apply allocated_fresh. simpl. lia.
  - apply allocated_fresh. simpl. lia.
  - by left.
  - reflexivity.
  - reflexivity.
  - reflexivity.
  - reflexivity.
  - reflexivity.
  - by_decision.
Defined.

(** ** [subspace::project] and [subspace::reconstruct]: frame *)

Lemma framed_weaken {A} s0 (P P' : A -> Prop) (m : M store A) s :
  (forall a, P a -> P' a) -> wp m (framed s0 P) s -> wp m (framed s0 P') s.
Proof.
  intros HP Hm. eapply wp_mono; [exact Hm|]. intros r s' [He Hr]. split; [done|]. auto.
Qed.

Lemma framed_reshape_1_1 s0 e m :
  wp (reshape_1_1 m) (framed s0 (fun _ => True)) (s0 ++ e).
Proof.
  unfold reshape_1_1. repeat case_bool_decide;
    first [by apply framed_ret | apply framed_throw].
Qed.

Section FramedAffine.
Variables (W mean src : Mat) (row : bool) (s0 : store).

Lemma framed_project e :
  wp (project W mean src row) (framed s0 (fun _ => True)) (s0 ++ e).
Proof.
  unfold project. case_bool_decide; [apply framed_throw|].
  eapply framed_bind; [apply framed_convertTo, local_empty|]. intros data e1 Hdata.
  eapply framed_bind.
  { destruct row; [by apply framed_ret | apply framed_transpose]. }
  intros dataT e2 HdataT.
  eapply framed_bind; [apply framed_reshape_1_1|]. intros mean1 e3 _.
  eapply framed_bind; [apply framed_repeat|]. intros means e4 _.
  eapply framed_bind; [apply framed_subtract, local_empty|]. intros X e5 _.
  eapply framed_bind; [apply framed_gemm, local_empty|]. intros Y e6 _.
  destruct row; [by apply framed_ret|].
  eapply framed_weaken; [|apply framed_transpose]. done.
Qed.

Lemma framed_reconstruct e :
  wp (reconstruct W mean src row) (framed s0 (fun _ => True)) (s0 ++ e).
Proof.
  unfold reconstruct. case_bool_decide; [apply framed_throw|].
  eapply framed_bind; [apply framed_convertTo, local_empty|]. intros data e1 Hdata.
  eapply framed_bind.
  { destruct row; [by apply framed_ret | apply framed_transpose]. }
  intros dataT e2 HdataT.
  eapply framed_bind; [apply framed_reshape_1_1|]. intros mean1 e3 _.
  eapply framed_bind; [apply framed_repeat|]. intros means e4 _.
  eapply framed_bind; [apply framed_gemm, local_empty|]. intros X e5 _.
  destruct row; [by apply framed_ret|].
  eapply framed_weaken; [|apply framed_transpose]. done.
Qed.

End FramedAffine.

(** X8.  [subspace::project] and [subspace::reconstruct] write to no
    matrix of their caller: whatever the outcome, the heap after the
    call is the heap before it followed by the temporaries and the
    result, so [W], [mean] and [src] read as before. *)
Theorem affine_maps_only_allocate W mean src (dataAsRow : bool) s :
  (exists e, final (project W mean src dataAsRow s) = s ++ e) /\
  (exists e, final (reconstruct W mean src dataAsRow s) = s ++ e).
Proof.
  split.
  - pose proof (framed_project W mean src dataAsRow s []) as [He _].
    by rewrite app_nil_r in He.
  - pose proof (framed_reconstruct W mean src dataAsRow s []) as [He _].
    by rewrite app_nil_r in He.
Qed.

(** ** [LinearDiscriminantAnalysis::project] *)

Lemma model_project_run src o s (Q : result Mat -> LDA.state -> Prop) :
  let W := LDA._eigenvectors o in
  let row := LDA._dataAsRow o in
  let n := if row then rows src else cols src in
  let d := if row then cols src else rows src in
  d = rows W ->
  (forall Y e,
     rows Y = (if row then n else cols W) -> cols Y = (if row then cols W else n) ->
     (allocated W s ->
      observations row Y (s ++ e) = mmul (cols W) (observations row src s) (read W s)) ->
     Q (Ok Y) (o, s ++ e)) ->
  wp (LDA.project src) Q (o, s).
Proof.
  intros W row n d Hd HQ. unfold LDA.project.
  apply wp_bind, wp_this. apply wp_bind, wp_this. fold W row.
  subst n d. destruct row.
  - apply wp_bind, wp_lift, wp_ret.
    apply wp_bind, wp_lift, wp_gemm_nn; [done|]. apply wp_ret.
    set (Yc := mmul (cols W) (read src s) (read W s)).
    assert (shape (rows src) (cols W) Yc) as HYc.
    { apply shape_mmul; [apply length_read | apply (shape_read W s)]. }
    apply HQ; [done | done |]. intros _. unfold observations.
    apply (read_fresh _ _ _ _ Yc); [lookup_last | done].
  - apply wp_bind, wp_lift, wp_transpose.
    set (XT := mtranspose (rows src) (cols src) (read src s)).
    pose proof (holds_alloc s _ _ XT (shape_mtranspose _ _ _)) as HXT.
    apply wp_bind, wp_lift, wp_gemm_nn; [done|]. simpl (rows _).
    rewrite (holds_read _ _ _ _ _ HXT).
    set (Yc := mmul (cols W) XT (read W (s ++ [flatten (cols src) (rows src) XT]))).
    assert (shape (cols src) (cols W) Yc) as HYc.
    { apply shape_mmul; [apply shape_mtranspose | apply shape_read]. }
    apply wp_lift, wp_transpose. simpl (rows _); simpl (cols _).
    rewrite (read_fresh _ _ _ _ Yc) by (done || lookup_last).
    rewrite <- !app_assoc. apply HQ; [done | done |]. intros HW.
    unfold observations. simpl (rows _); simpl (cols _).
    rewrite (read_fresh _ _ _ _ (mtranspose (cols src) (cols W) Yc));
      [| lookup_last | apply shape_mtranspose].
    rewrite mtranspose_involutive by done.
    unfold Yc. by rewrite read_ext.
Qed.

(** X9.  [LinearDiscriminantAnalysis::project] returns
    [src * _eigenvectors] on the observations as rows: unlike
    [subspace::project] it subtracts no mean.  For column data the
    product is handed back transposed. *)
Theorem model_project_multiplies_by_eigenvectors src o s :
  let W := LDA._eigenvectors o in
  let row := LDA._dataAsRow o in
  let n := if row then rows src else cols src in
  let d := if row then cols src else rows src in
  let r := LDA.project src (o, s) in
  d = rows W -> allocated W s ->
  exists Y,
    outcome r = Ok Y /\
    rows Y = (if row then n else cols W) /\
    cols Y = (if row then cols W else n) /\
    observations row Y (snd (final r)) =
      mmul (cols W) (observations row src s) (read W s).
Proof.
  intros W row n d r Hd HW.
  apply (model_project_run src o s
    (fun r st => exists Y, r = Ok Y /\
       rows Y = (if row then n else cols W) /\
       cols Y = (if row then cols W else n) /\
       observations row Y (snd st) =
         mmul (cols W) (observations row src s) (read W s))); [done|].
  intros Y e HYr HYc Hobs. exists Y. split_and!; [done..|]. by apply Hobs.
Qed.

Lemma model_project_multiplies_by_eigenvectors_witness :
  let src := fresh 4 2 0 in
  let r := LDA.project src (swapped, affine_heap) in
  exists Y,
    outcome r = Ok Y /\
    rows Y = 4 /\ cols Y = 2 /\
    observations true Y (snd (final r)) =
      mmul 2 (observations true src affine_heap) (read (fresh 2 2 1) affine_heap).
Proof.
  apply (model_project_multiplies_by_eigenvectors (fresh 4 2 0) swapped affine_heap).
  - reflexivity.
  - apply allocated_fresh. simpl. lia.
Defined.

Lemma model_project_object src o s :
  fst (final (LDA.project src (o, s))) = o /\
  exists e, snd (final (LDA.project src (o, s))) = s ++ e.
Proof.
  change (wp (LDA.project src)
            (fun _ st => fst st = o /\ exists e, snd st = s ++ e) (o, s)).
  unfold LDA.project.
  apply wp_bind, wp_this. apply wp_bind, wp_this.
  apply wp_bind, wp_lift.
  apply wp_mono with (P := framed s (fun _ => True)).
  { rewrite <- (app_nil_r s) at 2.
    destruct (LDA._dataAsRow o);
      [by apply framed_ret | eapply framed_weaken; [|apply framed_transpose]; done]. }
  intros [a|err] s1 [[e1 ->] _]; [|simpl; eauto].
  apply wp_bind, wp_lift.
  eapply wp_mono; [apply framed_gemm, local_empty|].
  intros [dst|err] s2 [[e2 ->] _]; [|simpl; eauto].
  destruct (LDA._dataAsRow o); [apply wp_ret; simpl; eauto|].
  apply wp_lift. eapply wp_mono; [apply framed_transpose|].
  intros r s3 [[e3 ->] _]. simpl. eauto.
Qed.

(** X10.  [LinearDiscriminantAnalysis::project] never changes the
    object and only allocates; it returns exactly when the feature count
    of [src] is the row count of [_eigenvectors], and fails the
    assertion of [gemm] otherwise.  On an object that [compute] has not
    filled ([_eigenvectors] is the empty [Mat]) every [src] with at
    least one feature is rejected. *)
Theorem model_project_checks_dimension src o s :
  let W := LDA._eigenvectors o in
  let d := if LDA._dataAsRow o then cols src else rows src in
  let r := LDA.project src (o, s) in
  fst (final r) = o /\
  (exists e, snd (final r) = s ++ e) /\
  (d <> rows W -> outcome r = Throw StsAssert) /\
  (d = rows W -> succeeds r).
Proof.
  intros W d r. split_and!.
  - apply model_project_object.
  - apply model_project_object.
  - intros Hne. subst r.
    change (wp (LDA.project src) (fun r _ => r = Throw StsAssert) (o, s)).
    unfold LDA.project. apply wp_bind, wp_this. apply wp_bind, wp_this.
    fold W. subst d. destruct (LDA._dataAsRow o).
    + apply wp_bind, wp_lift, wp_ret.
      by apply wp_bind, wp_lift, wp_gemm_mismatch.
    + apply wp_bind, wp_lift, wp_transpose.
      by apply wp_bind, wp_lift, wp_gemm_mismatch.
  - intros Heq.
    apply (model_project_run src o s (fun r _ => exists a, r = Ok a)); [done|].
    intros Y e _ _ _. eauto.
Qed.

Lemma model_project_checks_dimension_witness :
  outcome (LDA.project clusters_src (untrained true 0, clusters_heap)) = Throw StsAssert.
Proof.
  apply (model_project_checks_dimension clusters_src (untrained true 0) clusters_heap).
  simpl. lia.
Defined.

Section ComposeClaims.
Variable solver : matrix -> vec * matrix.

(** X11.  [project] after a successful [compute]: every [src] whose
    feature count is the row count of the learned basis is mapped to
    exactly [K] coordinates per observation, [K] being the clipped
    number of components, and keeps its number of observations. *)
Theorem compute_then_project_yields_K_coordinates o s src labels src2 :
  let r := LDA.compute solver src labels (o, s) in
  let o' := fst (final r) in
  let K := clipped (LDA._num_components o) (distinct labels) in
  let row := LDA._dataAsRow o' in
  let r2 := LDA.project src2 (final r) in
  outcome r = Ok tt ->
  (if row then cols src2 else rows src2) = rows (LDA._eigenvectors o') ->
  exists Y,
    outcome r2 = Ok Y /\
    Z.of_nat (if row then cols Y else rows Y) = K /\
    (if row then rows Y else cols Y) = (if row then rows src2 else cols src2).
Proof.
  intros r o' K row r2 Hok Hdim.
  destruct (compute_retains solver o s src labels Hok) as (_ & _ & HK).
  fold r o' K in HK. subst r2. destruct (final r) as [o1 s1] eqn:Hfin.
  simpl in o'. subst o'.
  apply (model_project_run src2 o1 s1
    (fun r2 _ => exists Y, r2 = Ok Y /\
       Z.of_nat (if LDA._dataAsRow o1 then cols Y else rows Y) = K /\
       (if LDA._dataAsRow o1 then rows Y else cols Y)
         = (if LDA._dataAsRow o1 then rows src2 else cols src2))); [done|].
  intros Y e HYr HYc _. exists Y. subst row.
  destruct (LDA._dataAsRow o1); (split_and!; [done | congruence | done]).
Qed.

End ComposeClaims.

Lemma compute_then_project_yields_K_coordinates_witness :
  let r := LDA.compute diagonal_solver clusters_src [5; 5; 7; 7]%Z
             (untrained true 0, clusters_heap) in
  let o' := fst (final r) in
  let K := clipped (LDA._num_components (untrained true 0)) (distinct [5; 5; 7; 7]%Z) in
  let row := LDA._dataAsRow o' in
  let r2 := LDA.project clusters_src (final r) in
  K = 1%Z /\
  exists Y,
    outcome r2 = Ok Y /\
    Z.of_nat (if row then cols Y else rows Y) = K /\
    (if row then rows Y else cols Y) = (if row then rows clusters_src else cols clusters_src).
Proof.
  split; [by_computation|].
  apply (compute_then_project_yields_K_coordinates diagonal_solver (untrained true 0)
           clusters_heap clusters_src [5; 5; 7; 7]%Z clusters_src).
  - by_computation.
  - by_computation.
Defined.

(** ** [compute]: the input checks *)

Section ChannelClaim.
Variable solver : matrix -> vec * matrix.

(** X12.  [compute] on a matrix with more than one channel throws
    [CV_StsBadArg] at its first statement: neither the object nor the
    heap is touched, not even by the copy of [src]. *)
Theorem compute_rejects_multichannel o s src labels :
  let r := LDA.compute solver src labels (o, s) in
  channels src <> 1 ->
  outcome r = Throw StsBadArg /\ final r = (o, s).
Proof.
  intros r Hch. subst r. unfold LDA.compute. by rewrite bool_decide_true.
Qed.

End ChannelClaim.

Lemma compute_rejects_multichannel_witness :
  let r := LDA.compute diagonal_solver colour_src [5; 5; 7; 7]%Z
             (untrained true 0, clusters_heap) in
  outcome r = Throw StsBadArg /\ final r = (untrained true 0, clusters_heap).
Proof.
  apply (compute_rejects_multichannel diagonal_solver (untrained true 0) clusters_heap
           colour_src [5; 5; 7; 7]%Z).
  simpl. lia.
Defined.

(** ** Class sizes *)

Lemma sum_list_snoc l k : sum_list (l ++ [k]) = sum_list l + k.
Proof. induction l as [|x l IH]; simpl; lia. Qed.

Lemma sum_list_indicator j C :
  sum_list (map (fun c => if decide (j = c) then 1 else 0) (seq 0 C))
  = if decide (j < C) then 1 else 0.
Proof.
  induction C as [|C IH]; [done|].
  rewrite seq_S, map_app. simpl (map _ [_]). rewrite sum_list_snoc, IH.
  repeat case_decide; lia.
Qed.

Lemma sum_list_map_plus {X} (f g : X -> nat) l :
  sum_list (map (fun x => f x + g x) l) = sum_list (map f l) + sum_list (map g l).
Proof. induction l as [|x l IH]; simpl; lia. Qed.

Lemma class_sizes_sum mapped C k :
  (forall i, i < k -> nth i mapped 0 < C) ->
  sum_list (map (fun c => length (members mapped c k)) (seq 0 C)) = k.
Proof.
  induction k as [|k IH]; intros Hm.
  - unfold members. simpl. induction (seq 0 C); simpl; [done|lia].
  - rewrite (map_ext _ (fun c => length (members mapped c k)
                                + (if decide (nth k mapped 0 = c) then 1 else 0))).
    + rewrite sum_list_map_plus, IH by (intros; apply Hm; lia).
      rewrite sum_list_indicator. rewrite decide_True by (apply Hm; lia). lia.
    + intros c. rewrite members_S, length_app. by case_decide.
Qed.

Section CountClaims.
Variables (s : store) (b N D : nat) (X : matrix) (labels : list Z).

Let mapped := LDA.mapped_labels labels.
Let C := length (cv.remove_dups labels).

(** X13.  After the summation loop (lines 113-119) [numClass] has one
    entry per class, every entry is at least 1, and the entries add up
    to the number of observations: the divisions by [numClass[i]] at
    line 123 never divide by zero. *)
Theorem sums_counts_every_class :
  let r := LDA.sums (fresh N D b) mapped N D C s in
  holds s b N D X -> length labels = N ->
  exists meanTotal meanClass numClass,
    outcome r = Ok (meanTotal, meanClass, numClass) /\
    length numClass = C /\
    Forall (fun k => 0 < k) numClass /\
    sum_list numClass = N.
Proof.
  intros r Hd Hlen.
  assert (forall i, i < N -> nth i mapped 0 < C) as Hm.
  { intros i Hi. apply mapped_labels_lt. lia. }
  apply (sums_run s b N D C X mapped Hd Hm
    (fun r _ => exists meanTotal meanClass numClass,
       r = Ok (meanTotal, meanClass, numClass) /\
       length numClass = C /\
       Forall (fun k => 0 < k) numClass /\
       sum_list numClass = N)).
  intros s' _ _ _. eexists _, _, _. split; [done|]. split_and!.
  - by rewrite length_map, length_seq.
  - apply Forall_map, Forall_forall. intros c Hc%elem_of_seq. simpl.
    rewrite <- Hlen. apply class_inhabited. fold C. lia.
  - by apply class_sizes_sum.
Qed.

End CountClaims.

Lemma sums_counts_every_class_witness :
  let labels := [5; 5; 7; 7]%Z in
  let r := LDA.sums (fresh 4 2 0) (LDA.mapped_labels labels) 4 2
             (length (cv.remove_dups labels)) clusters_heap in
  exists meanTotal meanClass numClass,
    outcome r = Ok (meanTotal, meanClass, numClass) /\
    length numClass = length (cv.remove_dups labels) /\
    Forall (fun k => 0 < k) numClass /\
    sum_list numClass = 4.
Proof.
  apply (sums_counts_every_class clusters_heap 0 4 2 clusters [5; 5; 7; 7]%Z).
  - apply holds_clusters.
  - reflexivity.
Defined.

(** ** Zero vectors and zero matrices *)

Lemma vsub_diag v : vsub v v = vzeros (length v).
Proof.
  unfold vsub, vzeros. induction v as [|x v IH]; simpl; [done|].
  rewrite IH. f_equal. ring.
Qed.

Lemma vscale_vzeros a c : vscale a (vzeros c) = vzeros c.
Proof.
  unfold vscale, vzeros. induction c as [|c IH]; simpl; [done|].
  rewrite IH. f_equal. ring.
Qed.

Lemma vscale_one v : vscale 1 v = v.
Proof.
  unfold vscale. rewrite <- (map_id v) at 2. apply map_ext. intros x. ring.
Qed.

Lemma vadd_zeros_l v c : length v = c -> vadd (vzeros c) v = v.
Proof. intros H. rewrite vadd_comm. by apply vadd_zeros_r. Qed.

Lemma outer_vzeros_r u c : outer u (vzeros c) = mzeros (length u) c.
Proof.
  unfold outer, mzeros. induction u as [|a u IH]; simpl; [done|].
  by rewrite IH, vscale_vzeros.
Qed.

Lemma outer_vzeros c : outer (vzeros c) (vzeros c) = mzeros c c.
Proof. by rewrite outer_vzeros_r, length_vzeros. Qed.

Lemma madd_mzeros_r A r c : shape r c A -> madd A (mzeros r c) = A.
Proof.
  intros [Hr Hc]. unfold madd, mzeros. subst r.
  induction A as [|v A IH]; simpl; [done|].
  apply Forall_cons in Hc as [Hv Hc]. by rewrite IH, vadd_zeros_r.
Qed.

Lemma sum_outer_zeros D n : sum_outer D (replicate n (vzeros D)) = mzeros D D.
Proof.
  induction n as [|n IH]; [done|].
  rewrite replicate_S_end, sum_outer_snoc, IH, outer_vzeros.
  apply madd_mzeros_r, shape_mzeros.
Qed.

Lemma alt_sum_zeros (l : list Qc) : Forall (fun x => x = 0%Qc) l -> alt_sum l = 0%Qc.
Proof.
  induction 1 as [|x l -> _ IH]; simpl; [done|]. rewrite IH. ring.
Qed.

Lemma det_zero_row n (A : matrix) c : det (S n) (vzeros c :: A) = 0%Qc.
Proof.
  simpl. apply alt_sum_zeros. apply Forall_forall. intros x Hx.
  apply list_elem_of_lookup_1 in Hx as [j Hj].
  rewrite list_lookup_imap in Hj. unfold vzeros in Hj.
  destruct (replicate c 0%Qc !! j) as [y|] eqn:Hy; [|done].
  apply lookup_replicate in Hy as [-> _]. simpl in Hj. injection Hj as <-. ring.
Qed.

Lemma det_mzeros D : 0 < D -> det D (mzeros D D) = 0%Qc.
Proof.
  destruct D as [|D]; [lia|]. intros _. unfold mzeros. simpl (replicate (S D) _).
  apply det_zero_row.
Qed.

(** ** A single class *)

Lemma filter_seq_all (P : nat -> Prop) `{!forall j, Decision (P j)} a N :
  (forall j, a <= j < a + N -> P j) -> filter P (seq a N) = seq a N.
Proof.
  revert a. induction N as [|N IH]; intros a HP; [done|].
  simpl. rewrite filter_cons, decide_True by (apply HP; lia).
  f_equal. apply IH. intros j Hj. apply HP. lia.
Qed.

Lemma class_mean_single_class X mapped N D :
  (forall i, i < N -> nth i mapped 0 = 0) ->
  class_mean X mapped N D 0 = total_mean X N D.
Proof.
  intros Hm. unfold class_mean, total_mean, members.
  rewrite filter_seq_all by (intros j Hj; apply Hm; lia).
  by rewrite length_seq.
Qed.

(** ** Symmetry *)

Lemma mat_at_zip_with (f : Qc -> Qc -> Qc) (A B : matrix) r c i j :
  shape r c A -> shape r c B -> i < r -> j < c ->
  mat_at (zip_with (zip_with f) A B) i j = f (mat_at A i j) (mat_at B i j).
Proof.
  intros [HAr HAc] [HBr HBc] Hi Hj. unfold mat_at.
  destruct (lookup_lt_is_Some_2 A i) as [u Hu]; [lia|].
  destruct (lookup_lt_is_Some_2 B i) as [v Hv]; [lia|].
  assert (length u = c) as Hlu.
  { apply (proj1 (Forall_forall _ _) HAc). by eapply list_elem_of_lookup_2. }
  assert (length v = c) as Hlv.
  { apply (proj1 (Forall_forall _ _) HBc). by eapply list_elem_of_lookup_2. }
  rewrite (nth_lookup_Some _ _ _ _ Hu), (nth_lookup_Some _ _ _ _ Hv).
  assert (zip_with (zip_with f) A B !! i = Some (zip_with f u v)) as Hz.
  { rewrite lookup_zip_with, Hu. simpl. by rewrite Hv. }
  rewrite (nth_lookup_Some _ _ _ _ Hz).
  destruct (lookup_lt_is_Some_2 u j) as [x Hx]; [lia|].
  destruct (lookup_lt_is_Some_2 v j) as [y Hy]; [lia|].
  rewrite (nth_lookup_Some _ _ _ _ Hx), (nth_lookup_Some _ _ _ _ Hy).
  apply nth_lookup_Some. rewrite lookup_zip_with, Hx. simpl. by rewrite Hy.
Qed.

Lemma mat_at_outer (u v : vec) i j :
  i < length u -> j < length v ->
  mat_at (outer u v) i j = (nth j v 0 * nth i u 0)%Qc.
Proof.
  intros Hi Hj. unfold mat_at, outer.
  rewrite (nth_map_lt _ _ _ 0%Qc) by done.
  unfold vscale. by rewrite (nth_map_lt _ _ _ 0%Qc) by done.
Qed.

Lemma symmetric_iff D A :
  shape D D A ->
  symmetric D A <-> forall i j, i < D -> j < D -> mat_at A i j = mat_at A j i.
Proof.
  intros HA. unfold symmetric, mtranspose. split.
  - intros Hs i j Hi Hj. rewrite <- Hs at 1. by rewrite mat_at_mat_of.
  - intros Hs. transitivity (mat_of D D (mat_at A)); [|by apply mat_of_mat_at].
    apply mat_of_ext. intros i j Hi Hj. by apply Hs.
Qed.

Lemma mat_at_mzeros r c i j : i < r -> j < c -> mat_at (mzeros r c) i j = 0%Qc.
Proof.
  intros Hi Hj. unfold mat_at, mzeros, vzeros.
  rewrite (nth_lookup_Some _ _ _ _ (lookup_replicate_2 _ _ _ Hi)).
  apply nth_lookup_Some. by apply lookup_replicate_2.
Qed.

Lemma sum_outer_symmetric D (l : list vec) :
  Forall (fun v => length v = D) l -> symmetric D (sum_outer D l).
Proof.
  intros Hl. apply symmetric_iff; [by apply shape_sum_outer|].
  induction l as [|v l IH] using rev_ind; intros i j Hi Hj.
  - unfold sum_outer. simpl. by rewrite !mat_at_mzeros.
  - apply Forall_app in Hl as [Hl Hv]. rewrite Forall_singleton in Hv.
    rewrite sum_outer_snoc. unfold madd, vadd.
    assert (shape D D (outer v v)) as Ho by (rewrite <- Hv at 1 2; apply shape_outer).
    rewrite !(mat_at_zip_with _ _ _ D D) by (done || by apply shape_sum_outer).
    rewrite (IH Hl i j) by done. rewrite !mat_at_outer by lia. ring.
Qed.

Section Symmetric.
Variables (s : store) (b N D : nat) (X : matrix) (labels : list Z).

Let mapped := LDA.mapped_labels labels.
Let C := length (cv.remove_dups labels).

(** X14.  Both scatter matrices are symmetric: [Sw] and [Sb] are sums
    of outer products [v^T * v], whatever the rounding of the means. *)
Theorem scatter_matrices_are_symmetric :
  let r := LDA.scatter (fresh N D b) mapped N D C s in
  holds s b N D X -> length labels = N -> 0 < N ->
  exists Sw Sb,
    outcome r = Ok (Sw, Sb) /\
    symmetric D (read Sw (final r)) /\
    symmetric D (read Sb (final r)).
Proof.
  intros r Hd Hlen HN.
  assert (forall i, i < N -> nth i mapped 0 < C) as Hm.
  { intros i Hi. apply mapped_labels_lt. lia. }
  destruct (scatter_result s b N D X labels Hd Hlen HN) as (Sw & Sb & Hr & _ & HSw & HSb).
  fold mapped C r in Hr, HSw, HSb. exists Sw, Sb. split; [done|].
  pose proof (shape_centered s b N D C X mapped Hd Hm) as Hsh.
  assert (Forall (fun v => length v = D)
            (map (fun c => vsub (class_mean X mapped N D c) (total_mean X N D))
               (seq 0 C))) as HFb.
  { apply Forall_map, Forall_forall. intros c _. simpl.
    apply length_vsub; unfold class_mean, total_mean; rewrite length_vscale.
    - apply (length_vsum_rows s b N D X Hd _ N); [done | apply members_lt].
    - apply (length_vsum_rows s b N D X Hd _ N); [done | apply Forall_seq_lt]. }
  rewrite HSw, HSb, (mulTransposed_sum_outer N D) by done. unfold Sb_of.
  split; apply sum_outer_symmetric; [apply Hsh | done].
Qed.

End Symmetric.

Lemma scatter_matrices_are_symmetric_witness :
  let labels := [5; 5; 5; 7; 7]%Z in
  let r := LDA.scatter (fresh 5 2 0) (LDA.mapped_labels labels) 5 2
             (length (cv.remove_dups labels)) triple_heap in
  exists Sw Sb,
    outcome r = Ok (Sw, Sb) /\
    symmetric 2 (read Sw (final r)) /\
    symmetric 2 (read Sb (final r)).
Proof.
  apply (scatter_matrices_are_symmetric triple_heap 0 5 2 triple [5; 5; 5; 7; 7]%Z).
  - apply holds_triple.
  - reflexivity.
  - lia.
Defined.

Section ScatterProperties.
Variables (s : store) (b N D : nat) (X : matrix) (labels : list Z).

Let mapped := LDA.mapped_labels labels.
Let C := length (cv.remove_dups labels).

(** X16.  With a single distinct label the class mean is the total
    mean, and the between-class scatter is the zero matrix. *)
Theorem scatter_of_one_class_has_no_between_scatter :
  let r := LDA.scatter (fresh N D b) mapped N D C s in
  holds s b N D X -> length labels = N -> distinct labels = 1 ->
  exists Sw Sb,
    outcome r = Ok (Sw, Sb) /\
    read Sb (final r) = mzeros D D.
Proof.
  intros r Hd Hlen HC.
  assert (0 < N) as HN.
  { rewrite <- Hlen. destruct (decide (length labels = 0)) as [H0|]; [|lia].
    apply nil_length_inv in H0. rewrite H0 in HC. by vm_compute in HC. }
  destruct (scatter_result s b N D X labels Hd Hlen HN) as (Sw & Sb & Hr & _ & _ & HSb).
  fold mapped C r in Hr, HSb. exists Sw, Sb. split; [done|]. rewrite HSb.
  assert (C = 1) as -> by (subst C; by rewrite remove_dups_length).
  assert (forall i, i < N -> nth i mapped 0 = 0) as Hm.
  { intros i Hi. pose proof (mapped_labels_lt labels i) as H.
    rewrite remove_dups_length, HC in H. fold mapped in H. lia. }
  unfold Sb_of. simpl (map _ (seq 0 1)).
  rewrite class_mean_single_class by done.
  rewrite vsub_diag. unfold total_mean. rewrite length_vscale.
  rewrite (length_vsum_rows s b N D X Hd _ N) by (done || apply Forall_seq_lt).
  apply (sum_outer_zeros D 1).
Qed.

End ScatterProperties.

Lemma scatter_of_one_class_has_no_between_scatter_witness :
  let labels := [7; 7; 7; 7]%Z in
  let r := LDA.scatter (fresh 4 2 0) (LDA.mapped_labels labels) 4 2
             (length (cv.remove_dups labels)) clusters_heap in
  exists Sw Sb,
    outcome r = Ok (Sw, Sb) /\
    read Sb (final r) = mzeros 2 2.
Proof.
  apply (scatter_of_one_class_has_no_between_scatter clusters_heap 0 4 2 clusters
           [7; 7; 7; 7]%Z).
  - apply holds_clusters.
  - reflexivity.
  - by_computation.
Defined.

(** ** One sample per class *)

Lemma filter_seq_singleton (P : nat -> Prop) `{!forall j, Decision (P j)} N i :
  i < N -> (forall j, j < N -> P j <-> j = i) -> filter P (seq 0 N) = [i].
Proof.
  intros Hi HP.
  assert (forall k, k <= N ->
            filter P (seq 0 k) = if decide (i < k) then [i] else []) as Hgen.
  { induction k as [|k IH]; intros Hk; [done|].
    rewrite seq_S, filter_app, IH by lia. simpl.
    rewrite filter_cons, filter_nil.
    destruct (decide (P k)) as [Hp|Hp].
    - apply HP in Hp as ->; [|lia].
      rewrite decide_False by lia. by rewrite decide_True by lia.
    - assert (k <> i) by (intros ->; apply Hp, HP; [lia|done]).
      destruct (decide (i < k)).
      + rewrite decide_True by lia. by rewrite app_nil_r.
      + by rewrite decide_False by lia. }
  rewrite Hgen by lia. by rewrite decide_True.
Qed.

Lemma members_singleton labels i :
  NoDup labels -> i < length labels ->
  members (LDA.mapped_labels labels) (nth i (LDA.mapped_labels labels) 0) (length labels)
  = [i].
Proof.
  intros Hnd Hi. unfold members. apply filter_seq_singleton; [done|].
  intros j Hj.
  destruct (lookup_lt_is_Some_2 labels i Hi) as [li Hli].
  destruct (lookup_lt_is_Some_2 labels j Hj) as [lj Hlj].
  rewrite (mapped_labels_same_class labels j i lj li Hlj Hli).
  split; [|by intros ->; congruence].
  intros ->. eapply NoDup_lookup; eauto.
Qed.

Lemma centered_singletons X labels N D :
  NoDup labels -> length labels = N -> shape N D X ->
  centered X (LDA.mapped_labels labels) N D = mzeros N D.
Proof.
  intros Hnd Hlen HX. unfold centered, mzeros.
  rewrite (map_ext_in _ (fun _ => vzeros D)).
  - clear. generalize 0. induction N as [|N IH]; intros a; simpl; [done|].
    by rewrite IH.
  - intros i Hi%list_elem_of_In%elem_of_seq.
    assert (length (nth i X []) = D) as Hrow by (eapply length_nth_row; [done|lia]).
    unfold class_mean. rewrite <- Hlen, members_singleton by (done || lia).
    simpl. rewrite rho_one, vscale_one.
    unfold vsum. simpl. rewrite vadd_zeros_l by done.
    by rewrite vsub_diag, Hrow.
Qed.

Section DegenerateClaims.
Variable solver : matrix -> vec * matrix.

(** X18.  With one observation per class (all labels distinct, at least
    one observation and one feature) every class mean is the observation
    itself, the centred data and [Sw] are zero, and [compute] ends with
    the [SingularMatrix] error of the inversion, whatever the data. *)
Theorem compute_one_sample_per_class_is_singular o s src labels :
  let r := LDA.compute solver src labels (o, s) in
  let N := if LDA._dataAsRow o then rows src else cols src in
  let D := if LDA._dataAsRow o then cols src else rows src in
  channels src = 1 -> length labels = N -> 0 < N -> 0 < D ->
  NoDup labels ->
  outcome r = Throw SingularMatrix.
Proof.
  intros r N D Hch Hlen HN HD Hnd.
  destruct (compute_outcome solver o s src labels Hch Hlen HN) as [H|H].
  - by destruct H as (_ & Hr & _).
  - exfalso. destruct H as [Hne _]. apply Hne. fold N D.
    unfold Sw_of. rewrite (centered_singletons _ labels _ _ Hnd Hlen).
    + unfold mzeros at 1. rewrite sum_outer_zeros. by apply det_mzeros.
    + apply shape_observations.
Qed.

(** X19.  A [compute] that ends with [SingularMatrix] has failed after
    the clipping and before the eigenvectors are assigned:
    [_eigenvectors] and [_eigenvalues] are the headers they were and
    read as before, but [_num_components] already holds the clipped
    value. *)
Theorem compute_singular_clips_but_keeps_model o s src labels :
  let r := LDA.compute solver src labels (o, s) in
  let o' := fst (final r) in
  outcome r = Throw SingularMatrix ->
  LDA._eigenvectors o' = LDA._eigenvectors o /\
  LDA._eigenvalues o' = LDA._eigenvalues o /\
  LDA._num_components o' = clipped (LDA._num_components o) (distinct labels) /\
  (forall m, allocated m s -> read m (snd (final r)) = read m s).
Proof.
  intros r o' Hr.
  set (N := if LDA._dataAsRow o then rows src else cols src).
  assert (o' = LDA.clip (length (cv.remove_dups labels)) o) as Ho.
  { destruct (decide (channels src = 1)) as [Hch|Hch].
    2:{ exfalso. unfold r, LDA.compute in Hr.
        by rewrite bool_decide_true in Hr by done. }
    destruct (decide (N = length labels)) as [Hlen|Hlen].
    2:{ exfalso. destruct (compute_mismatch solver o s src labels Hlen) as [H _].
        fold r in H. congruence. }
    destruct (decide (N = 0)) as [H0|H0].
    { exfalso. destruct (compute_empty solver o s src labels Hch (eq_sym Hlen) H0) as [H _].
      fold r in H. congruence. }
    destruct (compute_outcome solver o s src labels Hch (eq_sym Hlen)) as [H|H]; [lia | |].
    - by destruct H as (_ & _ & H).
    - exfalso. destruct H as (_ & _ & _ & [(_ & H & _)|(_ & H & _)]);
        fold r in H; congruence. }
  rewrite Ho, clip_num_components, remove_dups_length.
  split_and!; [| | done |].
  - unfold LDA.clip. by case_bool_decide.
  - unfold LDA.clip. by case_bool_decide.
  - intros m Hm.
    destruct (grows_compute solver s o [] src labels) as [e He].
    rewrite app_nil_r in He. fold r in He. rewrite He. by apply read_ext.
Qed.

End DegenerateClaims.

Lemma compute_one_sample_per_class_is_singular_witness :
  outcome (LDA.compute diagonal_solver clusters_src [1; 2; 3; 4]%Z
             (untrained true 0, clusters_heap)) = Throw SingularMatrix.
Proof.
  apply (compute_one_sample_per_class_is_singular diagonal_solver (untrained true 0)
           clusters_heap clusters_src [1; 2; 3; 4]%Z).
  - reflexivity.
  - reflexivity.
  - simpl. lia.
  - simpl. lia.
  - by_decision.
Defined.

Lemma compute_singular_clips_but_keeps_model_witness :
  let r := LDA.compute diagonal_solver (fresh 4 2 0) [5; 6; 7; 8]%Z
             (swapped, affine_heap) in
  let o' := fst (final r) in
  LDA._eigenvectors o' = LDA._eigenvectors swapped /\
  LDA._eigenvalues o' = LDA._eigenvalues swapped /\
  LDA._num_components o' = clipped (LDA._num_components swapped) (distinct [5; 6; 7; 8]%Z) /\
  (forall m, allocated m affine_heap -> read m (snd (final r)) = read m affine_heap).
Proof.
  apply (compute_singular_clips_but_keeps_model diagonal_solver swapped affine_heap
           (fresh 4 2 0) [5; 6; 7; 8]%Z).
  by_computation.
Defined.

(** ** More components than eigenvalues *)

Section OverflowClaim.
Variable solver : matrix -> vec * matrix.


End OverflowClaim.

Lemma length_diagonal_solver A : length (fst (diagonal_solver A)) = length A.
Proof. unfold diagonal_solver. simpl. by rewrite length_map, length_seq. Qed.


(** ** A complete run *)

Section Success.
Variable solver : matrix -> vec * matrix.

(** X21.  A complete run.  On valid input, when the clipped count [K]
    does not exceed the number of eigenvalues the solver returns,
    [compute] returns unless the inversion fails; it stores [K] and,
    from the eigenpairs the solver returns for a [D]-by-[D] matrix, the
    [K] with the largest eigenvalues: the eigenvalues in descending
    order as one row, and the matching eigenvectors as columns. *)
Theorem compute_keeps_leading_eigenpairs o s src labels :
  let r := LDA.compute solver src labels (o, s) in
  let N := if LDA._dataAsRow o then rows src else cols src in
  let D := if LDA._dataAsRow o then cols src else rows src in
  let K := clipped (LDA._num_components o) (distinct labels) in
  let o' := fst (final r) in
  channels src = 1 -> length labels = N -> 0 < N ->
  (forall A, length A = D -> (0 <= K <= Z.of_nat (length (fst (solver A))))%Z) ->
  outcome r = Throw SingularMatrix \/
  (outcome r = Ok tt /\
   LDA._num_components o' = K /\
   exists A, length A = D /\
     let vals := fst (solver A) in
     let vecs := snd (solver A) in
     let idx := sort_indices false vals in
     read (LDA._eigenvalues o') (snd (final r))
       = [map (fun k => nth k vals 0%Qc) (take (Z.to_nat K) idx)] /\
     read (LDA._eigenvectors o') (snd (final r))
       = mat_of (length vecs) (Z.to_nat K) (fun i j => mat_at vecs i (nth j idx 0))).
Proof.
  intros r N D K o' Hch Hlen HN Hfit.
  destruct (compute_outcome solver o s src labels Hch Hlen HN) as [H|H].
  - left. by destruct H as (_ & Hr & _).
  - right. destruct H as (_ & [HA _] & Hnum & [(_ & Hr & Hsel)|(Hk & _)]).
    + fold r o' in Hnum, Hr, Hsel. fold D K in Hnum, Hsel.
      destruct Hsel as (_ & Hvals & Hvecs). rewrite Hnum in Hvals, Hvecs.
      split_and!; [done | done |]. eexists. split; [exact HA|]. by split.
    + exfalso. apply Hk. by apply Hfit.
Qed.

End Success.

Lemma compute_keeps_leading_eigenpairs_witness :
  let labels := [5; 5; 7; 7]%Z in
  let o := untrained true 0 in
  let r := LDA.compute diagonal_solver clusters_src labels (o, clusters_heap) in
  let K := clipped (LDA._num_components o) (distinct labels) in
  let o' := fst (final r) in
  outcome r = Throw SingularMatrix \/
  (outcome r = Ok tt /\
   LDA._num_components o' = K /\
   exists A, length A = 2 /\
     let vals := fst (diagonal_solver A) in
     let vecs := snd (diagonal_solver A) in
     let idx := sort_indices false vals in
     read (LDA._eigenvalues o') (snd (final r))
       = [map (fun k => nth k vals 0%Qc) (take (Z.to_nat K) idx)] /\
     read (LDA._eigenvectors o') (snd (final r))
       = mat_of (length vecs) (Z.to_nat K) (fun i j => mat_at vecs i (nth j idx 0))).
Proof.
  apply (compute_keeps_leading_eigenpairs diagonal_solver (untrained true 0)
           clusters_heap clusters_src [5; 5; 7; 7]%Z).
  - reflexivity.
  - reflexivity.
  - simpl. lia.
  - intros A HA. rewrite length_diagonal_solver. simpl in HA. rewrite HA.
    by_decision.
Defined.

(** ** The label values *)

Section Relabelling.
Variable f : Z -> Z.
Hypothesis f_inj : forall x y, f x = f y -> x = y.

Lemma elem_of_map_inj x (l : list Z) : f x ∈ map f l <-> x ∈ l.
Proof using f_inj.
  split.
  - intros H. apply list_elem_of_fmap in H as (y & Hxy & Hy).
    by rewrite (f_inj _ _ Hxy).
  - intros H. apply list_elem_of_fmap. eauto.
Qed.

Lemma remove_dups_from_map seen l :
  cv.remove_dups_from (map f seen) (map f l) = map f (cv.remove_dups_from seen l).
Proof using f_inj.
  revert seen. induction l as [|x l IH]; intros seen; simpl; [done|].
  rewrite (bool_decide_ext _ (x ∈ seen)) by apply elem_of_map_inj.
  case_bool_decide; [apply IH|]. simpl. f_equal. apply (IH (x :: seen)).
Qed.

Lemma remove_dups_map l : cv.remove_dups (map f l) = map f (cv.remove_dups l).
Proof using f_inj. apply (remove_dups_from_map []). Qed.

Lemma mapped_labels_map labels :
  LDA.mapped_labels (map f labels) = LDA.mapped_labels labels.
Proof using f_inj.
  apply (nth_ext _ _ 0 0).
  { unfold LDA.mapped_labels. by rewrite !length_map. }
  intros i Hi. unfold LDA.mapped_labels in Hi. rewrite !length_map in Hi.
  destruct (lookup_lt_is_Some_2 labels i Hi) as [l Hl].
  destruct (mapped_labels_nth labels i l Hl) as (j & Hj & ->).
  assert (map f labels !! i = Some (f l)) as Hfl by (by rewrite list_lookup_fmap, Hl).
  destruct (mapped_labels_nth (map f labels) i (f l) Hfl) as (j' & Hj' & ->).
  rewrite remove_dups_map, list_lookup_fmap in Hj'.
  destruct (cv.remove_dups labels !! j') as [l'|] eqn:Hl'; [|done].
  simpl in Hj'. injection Hj' as Heq. apply f_inj in Heq as ->.
  eapply NoDup_lookup; [apply remove_dups_NoDup | exact Hl' | exact Hj].
Qed.

End Relabelling.

Section RelabellingClaim.
Variable solver : matrix -> vec * matrix.

(** X22.  [compute] uses the labels only to tell the classes apart:
    replacing every label [l] by [f l], for a strictly increasing [f]
    (a shift, say), changes nothing in the outcome, in the object or in
    the heap.  The labels need not be contiguous nor start at 0. *)
Theorem compute_ignores_label_values (f : Z -> Z) o s src labels :
  (forall x y, (x < y)%Z -> (f x < f y)%Z) ->
  LDA.compute solver src (map f labels) (o, s) = LDA.compute solver src labels (o, s).
Proof.
  intros Hf.
  assert (forall x y, f x = f y -> x = y) as Hinj.
  { intros x y Heq. destruct (Z.lt_trichotomy x y) as [H|[H|H]]; [|done|].
    - apply Hf in H. lia.
    - apply Hf in H. lia. }
  unfold LDA.compute.
  by rewrite (mapped_labels_map f Hinj), (remove_dups_map f Hinj), !length_map.
Qed.

End RelabellingClaim.

Lemma compute_ignores_label_values_witness :
  LDA.compute diagonal_solver clusters_src (map (fun z => (z + 10)%Z) [5; 5; 7; 7]%Z)
    (untrained true 0, clusters_heap)
  = LDA.compute diagonal_solver clusters_src [5; 5; 7; 7]%Z
      (untrained true 0, clusters_heap).
Proof.
  apply (compute_ignores_label_values diagonal_solver (fun z => (z + 10)%Z)
           (untrained true 0) clusters_heap clusters_src [5; 5; 7; 7]%Z).
  intros x y H. lia.
Defined.
